(** * Farmacias Vallenar: product normalisation, bioequivalence and ranking

    A shallow embedding of the repository:

    - [src/modules/drug_parser.py]      (modules [DrugParser], [Loader]),
    - [scripts/smart_match.py]          (modules [SmartMatch], [Reconcile]),
    - [src/modules/data_manager.py]     (modules [DataManager], [Loader];
                                         [Builtins] has [float] and [round]),
    - [motor_busqueda.py]               (module [MotorBusqueda]),
    - [src/api/main.py]                 (modules [Api], [Alternatives]),
    - [scripts/utils/procesar_datos.py] (module [ProcesarDatos]),
    - [src/etl/pipeline.py]             (module [Pipeline]),
    - [scripts/fix_dump.py]             (module [FixDump]),
    - [patch_stitch.py]                 (module [PatchStitch]).

    Python strings are lists of characters.  The embedding is exact for
    ASCII text (code points below 128, [is_ascii]), which is what every
    concrete example below uses; a character with a larger code is kept as
    an opaque symbol that is neither a letter, a digit nor white space.
    Python itself knows letters, digits and white space outside ASCII
    ([upper] changes them, [\w], [\s], [\d] and IGNORECASE match them), so
    a property that depends on the class of such a character is stated for
    ASCII text.

    The file has two parts: the program, then the properties proved of it. *)

From Stdlib Require Import Ascii String ZArith Bool Lia Arith QArith.
From Stdlib Require Import DecimalString DecimalPos SpecFloat.
From Stdlib Require Import List Permutation Sorted.
Import ListNotations.

Local Open Scope nat_scope.
Local Open Scope list_scope.
Local Open Scope bool_scope.

(* ===================================================================== *)
(** * Part I. The program                                                 *)
(* ===================================================================== *)

(** ** Python values, strings and exceptions *)

Abbreviation str := (list ascii).

(** [L "abc"] is the Python literal ["abc"]. *)
Definition L (s : string) : str := list_ascii_of_string s.

Definition code (c : ascii) : nat := nat_of_ascii c.

Definition between (lo hi : nat) (c : ascii) : bool :=
  (lo <=? code c)%nat && (code c <=? hi)%nat.

(** [str.isspace] / the class [\s] of a [str] pattern: TAB, LF, VT, FF, CR,
    the four separators FS GS RS US, and the space. *)
Definition is_space (c : ascii) : bool := between 9 13 c || between 28 32 c.

(** The class [\d]. *)
Definition is_digit (c : ascii) : bool := between 48 57 c.

(** The letters [A-Z] and [a-z]. *)
Definition is_upper (c : ascii) : bool := between 65 90 c.
Definition is_lower (c : ascii) : bool := between 97 122 c.

(** The ASCII characters, on which the embedding is exact. *)
Definition is_ascii (c : ascii) : bool := (code c <? 128)%nat.

(** The class [\w] among the ASCII characters: the letters [A-Z] and
    [a-z], the digits and the underscore. *)
Definition is_word (c : ascii) : bool :=
  is_upper c || is_lower c || is_digit c || (code c =? 95)%nat.

(** The capital of a character: [a-z] go to [A-Z]. *)
Definition upper_char (c : ascii) : ascii :=
  if is_lower c then ascii_of_nat (code c - 32) else c.

Definition space : ascii := " "%char.
Definition newline : ascii := ascii_of_nat 10.

Definition eqb_str (a b : str) : bool :=
  if list_eq_dec ascii_dec a b then true else false.

(** [s.upper()], for ASCII text: character by character. *)
Definition upper (s : str) : str := map upper_char s.

(** [s.lstrip()], [s.rstrip()], [s.strip()] *)
Fixpoint lstrip (s : str) : str :=
  match s with
  | c :: s' => if is_space c then lstrip s' else s
  | [] => []
  end.

Definition rstrip (s : str) : str := rev (lstrip (rev s)).

Definition strip (s : str) : str := rstrip (lstrip s).

(** [s.startswith(p)] *)
Fixpoint startswith (s p : str) {struct p} : bool :=
  match p, s with
  | [], _ => true
  | a :: p', b :: s' => Ascii.eqb a b && startswith s' p'
  | _ :: _, [] => false
  end.

(** [p in s] for two strings. *)
Fixpoint contains (s p : str) : bool :=
  startswith s p ||
  match s with
  | [] => false
  | _ :: s' => contains s' p
  end.

(** [s.replace(old, new)]: every non-overlapping occurrence of [old], from
    the left.  [skip] counts the characters of an occurrence still to be
    dropped.  For the empty [old] Python puts [new] before every character
    and at the end. *)
Fixpoint replace_from (old new : str) (skip : nat) (s : str) : str :=
  match skip, s with
  | S k, _ :: s' => replace_from old new k s'
  | S _, [] => []
  | O, [] => []
  | O, c :: s' =>
      if startswith s old
      then new ++ replace_from old new (length old - 1) s'
      else c :: replace_from old new 0 s'
  end.

Definition replace (s old new : str) : str :=
  match old with
  | [] => new ++ flat_map (fun c => c :: new) s
  | _ :: _ => replace_from old new 0 s
  end.

(** A Python object as far as this program looks at it: a [str], or
    something else of which only [isinstance(x, str)] and [str(x)] are
    used. *)
Inductive pyval :=
| PyStr (s : str)
| PyNone
| PyInt (z : Z)
| PyBool (b : bool)
| PyFloat (repr : str).   (* a float, carried by the text [repr] gives *)

Definition isinstance_str (v : pyval) : bool :=
  match v with PyStr _ => true | _ => false end.

(** The text of a value: what [str(v)] gives when it returns.  It does
    for every cell of a frame that pandas reads from a file, where an
    integer has 64 bits; [str_of] below is the call [str(v)] for any
    value. *)
Definition py_str (v : pyval) : str :=
  match v with
  | PyStr s => s
  | PyNone => L "None"
  | PyInt z => L (NilZero.string_of_int (Z.to_int z))
  | PyBool true => L "True"
  | PyBool false => L "False"
  | PyFloat r => r
  end.

Inductive exn :=
| ValueError | TypeError | KeyError | IndexError | ZeroDivisionError.

Inductive result (A : Type) :=
| Ok (a : A)
| Raise (e : exn).
Arguments Ok {A} a.
Arguments Raise {A} e.

(** [sys.int_info.default_max_str_digits]: the interpreter (CPython 3.11
    and later, as it is set up by default) refuses to write an [int] of
    more decimal digits than this. *)
Definition int_max_str_digits : Z := 4300.

(** An [int] of more than [int_max_str_digits] digits. *)
Definition long_int (v : pyval) : bool :=
  match v with
  | PyInt z => (10 ^ int_max_str_digits <=? Z.abs z)%Z
  | _ => false
  end.

(** [str(v)], the call: ValueError for an [int] that is too long to be
    written, the text [py_str v] for every other value. *)
Definition str_of (v : pyval) : result str :=
  if long_int v then Raise ValueError else Ok (py_str v).

Definition bind {A B} (m : result A) (f : A -> result B) : result B :=
  match m with
  | Ok a => f a
  | Raise e => Raise e
  end.

Notation "x <- m ;; k" := (bind m (fun x => k))
  (at level 61, m at next level, right associativity).

(** ** Regular expressions: the part of Python's [re] the program uses

    A backtracking matcher with Python's priorities: alternatives are tried
    left to right, repetition is greedy, and the first way of matching that
    lets the rest of the pattern succeed is the match.  The position in the
    text is a zipper: the characters already passed (nearest first) and the
    characters still ahead, so that [^], [$] and [\b] can look both ways. *)

Definition zipper := (list ascii * list ascii)%type.

Inductive regex :=
| REps
| RChar (p : ascii -> bool)
| RSeq (r1 r2 : regex)
| RAlt (r1 r2 : regex)
| RStar (r : regex)
| RBol
| REol
| RWordB
| RGroup (n : nat) (r : regex).

Definition captures := list (nat * str).

Definition at_word_boundary (z : zipper) : bool :=
  let before := match fst z with c :: _ => is_word c | [] => false end in
  let after := match snd z with c :: _ => is_word c | [] => false end in
  xorb before after.

(** [$] without MULTILINE: the end of the text, or just before a final
    line feed. *)
Definition at_end (z : zipper) : bool :=
  match snd z with
  | [] => true
  | [c] => Ascii.eqb c newline
  | _ => false
  end.

Definition consumed (z z' : zipper) : str :=
  firstn (length (snd z) - length (snd z')) (snd z).

Definition cont := zipper -> captures -> option (zipper * captures).

(** Greedy repetition of [body]: as many rounds as possible, each of which
    must consume something, then the rest [k] of the pattern; on failure one
    round less.  [n] bounds the rounds and starts at the number of characters
    ahead, which is as many as can ever be made. *)
Fixpoint star_loop (body : zipper -> captures -> cont -> option (zipper * captures))
    (k : cont) (n : nat) (z : zipper) (caps : captures)
    {struct n} : option (zipper * captures) :=
  match n with
  | O => k z caps
  | S n' =>
      match body z caps
              (fun z' caps' =>
                 if length (snd z') <? length (snd z)
                 then star_loop body k n' z' caps' else None) with
      | Some m => Some m
      | None => k z caps
      end
  end.

Fixpoint rmatch (r : regex) (z : zipper) (caps : captures) (k : cont)
    {struct r} : option (zipper * captures) :=
  match r with
  | REps => k z caps
  | RChar p =>
      match snd z with
      | c :: rest => if p c then k (c :: fst z, rest) caps else None
      | [] => None
      end
  | RSeq r1 r2 => rmatch r1 z caps (fun z' caps' => rmatch r2 z' caps' k)
  | RAlt r1 r2 =>
      match rmatch r1 z caps k with
      | Some m => Some m
      | None => rmatch r2 z caps k
      end
  | RStar r1 => star_loop (rmatch r1) k (length (snd z)) z caps
  | RBol => match fst z with [] => k z caps | _ :: _ => None end
  | REol => if at_end z then k z caps else None
  | RWordB => if at_word_boundary z then k z caps else None
  | RGroup n r1 =>
      rmatch r1 z caps (fun z' caps' => k z' ((n, consumed z z') :: caps'))
  end.

(** A match anchored at the position [z]: where it ends, and its groups. *)
Definition match_at (r : regex) (z : zipper) : option (zipper * captures) :=
  rmatch r z [] (fun z' caps' => Some (z', caps')).

Record match_obj := {
  m_start : nat;
  m_group0 : str;
  m_caps : captures
}.

(** [m.group(n)] for a group that took part in the match. *)
Definition group (m : match_obj) (n : nat) : str :=
  match n with
  | O => m_group0 m
  | _ => match find (fun p => (fst p =? n)%nat) (m_caps m) with
         | Some p => snd p
         | None => []
         end
  end.

(** [pattern.search(text)]: the leftmost position with a match. *)
Fixpoint search_from (r : regex) (before ahead : list ascii)
    : option match_obj :=
  match match_at r (before, ahead) with
  | Some (z', caps) =>
      Some {| m_start := length before;
              m_group0 := consumed (before, ahead) z';
              m_caps := caps |}
  | None =>
      match ahead with
      | [] => None
      | c :: ahead' => search_from r (c :: before) ahead'
      end
  end.

Definition search (r : regex) (text : str) : option match_obj :=
  search_from r [] text.

(** [re.sub(pattern, repl, text)] for a literal [repl]: the matches are
    found from left to right and do not overlap; [skip] counts the
    characters of the current match still to be passed.  (The patterns the
    program substitutes consume at least one character; an empty match puts
    [repl] in front of the next character.) *)
Fixpoint sub_from (r : regex) (repl : str) (skip : nat)
    (before ahead : list ascii) : str :=
  match skip, ahead with
  | S k, c :: ahead' => sub_from r repl k (c :: before) ahead'
  | S _, [] => []
  | O, _ =>
      match match_at r (before, ahead) with
      | Some (z', _) =>
          repl ++
          match ahead with
          | [] => []
          | c :: ahead' =>
              match length (consumed (before, ahead) z') with
              | O => c :: sub_from r repl 0 (c :: before) ahead'
              | S k => sub_from r repl k (c :: before) ahead'
              end
          end
      | None =>
          match ahead with
          | [] => []
          | c :: ahead' => c :: sub_from r repl 0 (c :: before) ahead'
          end
      end
  end.

Definition re_sub (r : regex) (repl text : str) : str :=
  sub_from r repl 0 [] text.

(** Pattern builders.  [lit] is a literal text; under IGNORECASE a letter
    [A-Z] or [a-z] matches in either case.  (So it does in Python, where a
    few characters outside ASCII match a letter too.) *)
Definition chr (ignorecase : bool) (a : ascii) : regex :=
  RChar (fun c => if ignorecase
                  then Ascii.eqb (upper_char c) (upper_char a)
                  else Ascii.eqb c a).

Definition lit (ignorecase : bool) (s : string) : regex :=
  fold_right (fun a r => RSeq (chr ignorecase a) r) REps (L s).

Definition RPlus (r : regex) : regex := RSeq r (RStar r).
Definition ROpt (r : regex) : regex := RAlt r REps.

Fixpoint alts (rs : list regex) : regex :=
  match rs with
  | [] => RChar (fun _ => false)
  | [r] => r
  | r :: rs' => RAlt r (alts rs')
  end.

(** [.] without DOTALL *)
Definition any_char : regex := RChar (fun c => negb (Ascii.eqb c newline)).

(** ** [src/modules/drug_parser.py] *)

Module DrugParser.

Definition digits : regex := RPlus (RChar is_digit).
Definition spaces0 : regex := RStar (RChar is_space).
Definition spaces1 : regex := RPlus (RChar is_space).

(** [(\d+(?:[.,]\d+)?)\s*(MG|G|GR|MCG|ML|%|UI|GRS)], IGNORECASE *)
Definition REGEX_DOSIS : regex :=
  RSeq (RGroup 1
          (RSeq digits
             (ROpt (RSeq (RChar (fun c => Ascii.eqb c "."%char
                                          || Ascii.eqb c ","%char))
                         digits))))
    (RSeq spaces0
       (RGroup 2
          (alts (map (lit true)
                   ["MG"; "G"; "GR"; "MCG"; "ML"; "%"; "UI"; "GRS"]%string)))).

(** [(?:X\s*|ENV\s*|^|\s)(\d+)\s*(COMP|CAP|SOBRE|ML|AMPOLLA|FRASCO|UNID|UND|DOSIS|G)],
    IGNORECASE *)
Definition REGEX_CANTIDAD : regex :=
  RSeq (alts [RSeq (lit true "X") spaces0;
              RSeq (lit true "ENV") spaces0;
              RBol;
              RChar is_space])
    (RSeq (RGroup 1 digits)
       (RSeq spaces0
          (RGroup 2
             (alts (map (lit true)
                      ["COMP"; "CAP"; "SOBRE"; "ML"; "AMPOLLA"; "FRASCO";
                       "UNID"; "UND"; "DOSIS"; "G"]%string))))).

(** The laboratory pattern, IGNORECASE: one of [LAB\.], [LABORATORIO],
    [LAB]; then [\s+]; then group 1, a greedy star of [.]; then [$]. *)
Definition REGEX_LAB : regex :=
  RSeq (alts [lit true "LAB."; lit true "LABORATORIO"; lit true "LAB"])
    (RSeq spaces1
       (RSeq (RGroup 1 (RStar any_char)) REol)).

(** [\bX\d+\b] *)
Definition REGEX_X_RESIDUE : regex :=
  RSeq RWordB (RSeq (lit false "X") (RSeq digits RWordB)).

(** The dictionary [parse] returns.  [brand_type] is a key of the
    dictionary only on the path for an input that is not a string. *)
Record parsed := {
  original : str;
  clean_name : str;
  brand_type : option str;
  lab : str;
  dose_val : option str;
  dose_unit : option str;
  qty_val : option str;
  qty_unit : option str
}.

Definition NO_IDENTIFICADO : str := L "NO IDENTIFICADO".

(** [DrugParser.parse] for a string: the body after the test of
    [isinstance]. *)
Definition parse_str (product_name : str) : parsed :=
    let text_bruto := strip (upper product_name) in
    let original_ := text_bruto in
    (* 1. Extract Lab *)
    let match_lab := search REGEX_LAB text_bruto in
    let lab_ := match match_lab with
                | Some m => strip (group m 1)
                | None => NO_IDENTIFICADO
                end in
    let text_bruto := match match_lab with
                      | Some m => replace text_bruto (group m 0) []
                      | None => text_bruto
                      end in
    (* 2. Extract Dose *)
    let match_dosis := search REGEX_DOSIS text_bruto in
    let text_bruto := match match_dosis with
                      | Some m => replace text_bruto (group m 0) [space]
                      | None => text_bruto
                      end in
    (* 3. Extract Quantity / Format *)
    let match_cant := search REGEX_CANTIDAD text_bruto in
    let text_bruto := match match_cant with
                      | Some m => replace text_bruto (group m 0) [space]
                      | None => text_bruto
                      end in
    (* 4. Clean up *)
    let text_bruto := strip (re_sub spaces1 [space] text_bruto) in
    let text_bruto := re_sub REGEX_X_RESIDUE [] text_bruto in
    {| original := original_;
       clean_name := strip text_bruto;
       brand_type := None;
       lab := lab_;
       dose_val := option_map (fun m => group m 1) match_dosis;
       dose_unit := option_map (fun m => group m 2) match_dosis;
       qty_val := option_map (fun m => group m 1) match_cant;
       qty_unit := option_map (fun m => group m 2) match_cant |}.

(** [DrugParser.parse]: for a value that is not a string the dictionary of
    defaults, for which [str(product_name)] is called twice; else the body
    above, in which nothing raises. *)
Definition parse (product_name : pyval) : result parsed :=
  if negb (isinstance_str product_name) then
    original_ <- str_of product_name ;;
    clean_name_ <- str_of product_name ;;
    Ok {| original := original_;
          clean_name := clean_name_;
          brand_type := Some (L "UNKNOWN");
          lab := NO_IDENTIFICADO;
          dose_val := None; dose_unit := None;
          qty_val := None; qty_unit := None |}
  else Ok (parse_str (py_str product_name)).

End DrugParser.

(** ** [scripts/smart_match.py] *)

Module SmartMatch.

Definition stop_words : list string :=
  ["MG"; "COMPRIMIDOS"; "CAPSULAS"; "JARABE"; "CM"; "AL"; "X"; "CAJA";
   "FRASCO"]%string.

(** [r'\b' + word + r'\b'] *)
Definition word_re (word : string) : regex :=
  RSeq RWordB (RSeq (lit false word) RWordB).

(** [[^A-Z0-9\s]] *)
Definition special_char (c : ascii) : bool :=
  negb (is_upper c || is_digit c || is_space c).

(** [normalize_text] *)
Definition normalize_text (text : pyval) : str :=
  if negb (isinstance_str text) then []
  else
    let text := upper (py_str text) in
    let text :=
      fold_left (fun text word => re_sub (word_re word) [] text)
        stop_words text in
    let text := re_sub (RChar special_char) [] text in
    strip (re_sub (RPlus (RChar is_space)) [space] text).

End SmartMatch.

(** ** [rapidfuzz]: the two scorers the data manager calls

    The library is not part of the repository; [_enrich_compliance] below
    takes its scorers as arguments.  These two definitions follow the
    library's algorithm (normalised Indel similarity on a 0-100 scale) and
    serve to run the program on concrete rows. *)

Module RapidFuzz.

Fixpoint lcs_row (a : ascii) (prev : list nat) (b : str) (diag left : nat)
    : list nat :=
  match b, prev with
  | c :: b', up :: prev' =>
      let v := if Ascii.eqb a c then S diag else Nat.max up left in
      v :: lcs_row a prev' b' up v
  | _, _ => []
  end.

(** Length of a longest common subsequence. *)
Definition lcs (a b : str) : nat :=
  last (fold_left (fun row c => lcs_row c row b 0 0) a (map (fun _ => O) b)) O.

Definition norm_similarity (dist total : nat) : Q :=
  match total with
  | O => 100%Q
  | _ => (100 - (100 * inject_Z (Z.of_nat dist)) / inject_Z (Z.of_nat total))%Q
  end.

Definition indel_distance (a b : str) : nat :=
  (length a + length b - 2 * lcs a b)%nat.

(** [fuzz.ratio] *)
Definition ratio (a b : str) : Q :=
  norm_similarity (indel_distance a b) (length a + length b)%nat.

(** [s.split()] *)
Fixpoint split_from (cur : str) (s : str) : list str :=
  match s with
  | [] => match cur with [] => [] | _ => [rev cur] end
  | c :: s' =>
      if is_space c
      then match cur with
           | [] => split_from [] s'
           | _ => rev cur :: split_from [] s'
           end
      else split_from (c :: cur) s'
  end.

Definition split (s : str) : list str := split_from [] s.

Fixpoint str_leb (a b : str) : bool :=
  match a, b with
  | [], _ => true
  | _ :: _, [] => false
  | x :: a', y :: b' =>
      (code x <? code y)%nat || ((code x =? code y)%nat && str_leb a' b')
  end.

Fixpoint insert_sorted (x : str) (l : list str) : list str :=
  match l with
  | [] => [x]
  | y :: l' => if str_leb x y then x :: l else y :: insert_sorted x l'
  end.

(** [sorted(set(tokens))] *)
Definition sorted_set (l : list str) : list str :=
  fold_right (fun x acc => if existsb (eqb_str x) acc then acc
                           else insert_sorted x acc) [] l.

(** [" ".join(tokens)] *)
Fixpoint join (l : list str) : str :=
  match l with
  | [] => []
  | [x] => x
  | x :: l' => x ++ space :: join l'
  end.

Definition bool_nat (n : nat) : nat := match n with O => 0 | _ => 1 end.

Definition Qmax (a b : Q) : Q := if Qle_bool a b then b else a.

(** [fuzz.token_set_ratio] *)
Definition token_set_ratio (s1 s2 : str) : Q :=
  let tokens_a := sorted_set (split s1) in
  let tokens_b := sorted_set (split s2) in
  match tokens_a, tokens_b with
  | [], _ => 0%Q
  | _, [] => 0%Q
  | _, _ =>
      let intersect := filter (fun t => existsb (eqb_str t) tokens_b) tokens_a in
      let diff_ab :=
        filter (fun t => negb (existsb (eqb_str t) tokens_b)) tokens_a in
      let diff_ba :=
        filter (fun t => negb (existsb (eqb_str t) tokens_a)) tokens_b in
      match intersect, diff_ab, diff_ba with
      | _ :: _, [], _ => 100%Q
      | _ :: _, _, [] => 100%Q
      | _, _, _ =>
          let ab_len := length (join diff_ab) in
          let ba_len := length (join diff_ba) in
          let sect_len := length (join intersect) in
          let sect_ab_len := (sect_len + bool_nat sect_len + ab_len)%nat in
          let sect_ba_len := (sect_len + bool_nat sect_len + ba_len)%nat in
          let result :=
            norm_similarity (indel_distance (join diff_ab) (join diff_ba))
              (sect_ab_len + sect_ba_len)%nat in
          match sect_len with
          | O => result
          | _ =>
              Qmax result
                (Qmax (norm_similarity (bool_nat sect_len + ab_len)%nat
                         (sect_len + sect_ab_len)%nat)
                      (norm_similarity (bool_nat sect_len + ba_len)%nat
                         (sect_len + sect_ba_len)%nat))
          end
      end
  end.

End RapidFuzz.

(** ** The builtins [float] and [round]

    What the interpreter does for [float(s)] on a string and for
    [round(x, 2)] on a float.  [_calculate_ppum] below takes the two as
    arguments; these definitions are the ones to run it with. *)

Module Builtins.

(** The binary64 number nearest to [num / den], for [0 <= num] and
    [0 < den]: ties go to the even mantissa, and a quotient too large is
    an infinity. *)
Definition nearest (negative : bool) (num den : Z) : spec_float :=
  match num with
  | Zpos _ =>
      let '(q, e, l) := SFdiv_core_binary 53 1024 num 0 den 0 in
      binary_round_aux 53 1024 negative q e l
  | _ => S754_zero negative
  end.

(** The number [m * 10 ^ e] as a binary64 number. *)
Definition decimal (negative : bool) (m e : Z) : spec_float :=
  if (0 <=? e)%Z then nearest negative (m * 10 ^ e) 1
  else nearest negative m (10 ^ (- e)).

Definition digit_value (c : ascii) : Z := Z.of_nat (code c - 48).

Definition int_of_digits (ds : str) : Z :=
  fold_left (fun acc c => 10 * acc + digit_value c)%Z ds 0%Z.

(** The underscores of a numeric literal: each one stands between two
    digits.  [prev] is the character before.  [None] when one does not;
    else the text without them. *)
Fixpoint drop_underscores (prev : option ascii) (s : str) : option str :=
  match s with
  | [] => match prev with
          | Some p => if Ascii.eqb p "_"%char then None else Some []
          | None => Some []
          end
  | c :: s' =>
      if Ascii.eqb c "_"%char then
        match prev with
        | Some p => if is_digit p then drop_underscores (Some c) s' else None
        | None => None
        end
      else
        match prev with
        | Some p =>
            if Ascii.eqb p "_"%char && negb (is_digit c) then None
            else option_map (cons c) (drop_underscores (Some c) s')
        | None => option_map (cons c) (drop_underscores (Some c) s')
        end
  end.

Fixpoint span_digits (s : str) : str * str :=
  match s with
  | c :: s' => if is_digit c
               then let '(ds, rest) := span_digits s' in (c :: ds, rest)
               else ([], s)
  | [] => ([], [])
  end.

(** An optional sign. *)
Definition take_sign (s : str) : bool * str :=
  match s with
  | c :: s' => if Ascii.eqb c "-"%char then (true, s')
               else if Ascii.eqb c "+"%char then (false, s')
               else (false, s)
  | [] => (false, [])
  end.

(** The exponent part: nothing, or [e] or [E], an optional sign and one
    digit or more, to the end of the text. *)
Definition exponent (s : str) : option Z :=
  match s with
  | [] => Some 0%Z
  | c :: s' =>
      if Ascii.eqb (upper_char c) "E"%char then
        let '(negative, s'') := take_sign s' in
        match span_digits s'' with
        | ((_ :: _) as ds, []) =>
            Some (if negative then - int_of_digits ds else int_of_digits ds)%Z
        | _ => None
        end
      else None
  end.

(** The white space [float] drops around a text: TAB, LF, VT, FF, CR and
    the space (the four separators that [strip] drops as well stay). *)
Definition is_c_space (c : ascii) : bool :=
  between 9 13 c || (code c =? 32)%nat.

Fixpoint lstrip_c (s : str) : str :=
  match s with
  | c :: s' => if is_c_space c then lstrip_c s' else s
  | [] => []
  end.

Definition strip_c (s : str) : str := rev (lstrip_c (rev (lstrip_c s))).

(** [float(s)] for a string of ASCII characters; [None] is ValueError.
    White space around the text is dropped; then come an optional sign and
    one of [inf], [infinity], [nan] in any case, or a decimal number: digits
    with an optional point in front, inside or behind, and an optional
    exponent.  Single underscores between two digits are ignored. *)
Definition float_of_str (s : str) : option spec_float :=
  match drop_underscores None (strip_c s) with
  | None => None
  | Some s =>
      let '(negative, s) := take_sign s in
      if eqb_str (upper s) (L "INF") || eqb_str (upper s) (L "INFINITY")
      then Some (S754_infinity negative)
      else if eqb_str (upper s) (L "NAN") then Some S754_nan
      else
        let '(whole, s) := span_digits s in
        let '(fraction, s) :=
          match s with
          | c :: s' => if Ascii.eqb c "."%char then span_digits s' else ([], s)
          | [] => ([], [])
          end in
        match whole ++ fraction with
        | [] => None
        | (_ :: _) as ds =>
            match exponent s with
            | Some e =>
                Some (decimal negative (int_of_digits ds)
                        (e - Z.of_nat (length fraction)))
            | None => None
            end
        end
  end.

(** [round(x, 2)]: the decimal number with two places nearest to [x], ties
    to the even last digit, and of that the nearest binary64 number.  An
    infinity and NaN are returned as they are. *)
Definition round2 (x : spec_float) : spec_float :=
  match x with
  | S754_finite negative m e =>
      let hundredths :=
        if (0 <=? e)%Z then (Zpos m * 2 ^ e * 100)%Z
        else
          let den := (2 ^ (- e))%Z in
          let q := (Zpos m * 100 / den)%Z in
          let r := (Zpos m * 100 mod den)%Z in
          match (2 * r ?= den)%Z with
          | Lt => q
          | Gt => (q + 1)%Z
          | Eq => if Z.even q then q else (q + 1)%Z
          end in
      nearest negative hundredths 100
  | _ => x
  end.

End Builtins.

(** ** [src/modules/data_manager.py] *)

Module DataManager.

(** One value of the registry dictionary. *)
Record isp_entry := {
  generics : list str;
  brands : list str;
  active_ingredient : str
}.

(** The registry: a [dict], of which the program uses the insertion order
    ([keys()], [items()]) and the lookup by key. *)
Definition isp_db := list (str * isp_entry).

Definition keys (db : isp_db) : list str := map fst db.

(** [db[key]] *)
Fixpoint getitem (db : isp_db) (key : str) : result isp_entry :=
  match db with
  | [] => Raise KeyError
  | (k, d) :: db' => if eqb_str k key then Ok d else getitem db' key
  end.

(** [_load_mock_isp_db] *)
Definition _load_mock_isp_db : isp_db :=
  [ (L "ACICLOVIR 200 MG",
     {| generics := [L "ACICLOVIR 200 MG"];
        brands := [L "ZOVIRAX 200 MG"];
        active_ingredient := L "ACICLOVIR" |});
    (L "ACIDO ACETILSALICILICO 100 MG",
     {| generics := [L "ACIDO ACETILSALICILICO 100 MG"];
        brands := [L "CARDIOASPIRINA 100"; L "ASPIRINA 100"];
        active_ingredient := L "ACIDO ACETILSALICILICO" |});
    (L "PARACETAMOL 500 MG",
     {| generics := [L "PARACETAMOL 500 MG"];
        brands := [L "PANADOL"; L "KITADOL"];
        active_ingredient := L "PARACETAMOL" |});
    (L "IBUPROFENO 400 MG",
     {| generics := [L "IBUPROFENO 400 MG"];
        brands := [L "IBUPIRAC"; L "ACTRON"];
        active_ingredient := L "IBUPROFENO" |});
    (L "LOSARTAN 50 MG",
     {| generics := [L "LOSARTAN 50 MG"; L "LOSARTAN POTASICO 50 MG"];
        brands := [L "COZAAR"];
        active_ingredient := L "LOSARTAN" |});
    (L "DIONOGEST 2 MG",
     {| generics := [L "DIONOGEST"];
        brands := [L "ACOTOL"];
        active_ingredient := L "DIONOGEST + ETINILESTRADIOL" |}) ].

(** The object: [data_path] and the registry loaded by [__init__]. *)
Record manager := {
  data_path : str;
  isp_db_mock : isp_db
}.

Definition __init__ (path : str) : manager :=
  {| data_path := path; isp_db_mock := _load_mock_isp_db |}.

(** A row of the inventory frame after [DrugParser.process_dataframe]: the
    columns of the file the manager reads, and the parser's columns. *)
Record row := {
  Producto : pyval;
  Precio_Venta : pyval;
  parsed : DrugParser.parsed
}.

(** The row of a line of the file whose product cell is the text
    [producto]. *)
Definition from_csv (producto : str) (precio : pyval) : row :=
  {| Producto := PyStr producto;
     Precio_Venta := precio;
     parsed := DrugParser.parse_str producto |}.

(** What [_calculate_ppum] returns: the integer [0] or a float. *)
Inductive number :=
| NInt (z : Z)
| NFloat (x : spec_float).

(** The row with the four columns [_enrich_compliance] adds. *)
Record enriched := {
  base : row;
  Active_Ingredient : str;
  Is_Bioequivalent : bool;
  Is_Generic : bool;
  Calculated_PPUM : number
}.

Definition DESCONOCIDO : str := L "DESCONOCIDO".

(** Truth value of [best_match]: [None] and the empty string are false. *)
Definition truthy (best_match : option str) : bool :=
  match best_match with
  | Some (_ :: _) => true
  | _ => false
  end.

(** [process.extractOne(query, choices, scorer=...)]: the choice with the
    highest score, the first one among equals; [None] without choices. *)
Fixpoint extractOne_from (scorer : str -> str -> Q) (query : str)
    (choices : list str) (best : option (str * Q)) : option (str * Q) :=
  match choices with
  | [] => best
  | c :: choices' =>
      let score := scorer query c in
      extractOne_from scorer query choices'
        (match best with
         | None => Some (c, score)
         | Some (_, b) => if Qle_bool score b then best else Some (c, score)
         end)
  end.

Definition extractOne (scorer : str -> str -> Q) (query : str)
    (choices : list str) : option (str * Q) :=
  extractOne_from scorer query choices None.

Definition Qgt_bool (a b : Q) : bool := negb (Qle_bool a b).

(** Python floats are IEEE 754 binary64. *)
Definition float := spec_float.
Definition float_zero : float := S754_zero false.
Definition float_gt (a b : float) : bool := SFltb b a.

(** [a / b] on floats *)
Definition float_div (a b : float) : result float :=
  match b with
  | S754_zero _ => Raise ZeroDivisionError
  | _ => Ok (SFdiv 53 1024 a b)
  end.

Section WithLibraries.

(** Whether [rapidfuzz] could be imported, and its two scorers. *)
Variable FUZZY_AVAILABLE : bool.
Variable token_set_ratio : str -> str -> Q.
Variable fuzz_ratio : str -> str -> Q.

(** The builtins [float(s)] for a string ([None]: [ValueError]) and
    [round(x, 2)]. *)
Variable float_of_str : str -> option float.
Variable round2 : float -> float.

(** [float(v)] for the value of the column [qty_val], a string or [None]. *)
Definition py_float (v : option str) : result float :=
  match v with
  | None => Raise TypeError
  | Some s => match float_of_str s with
              | Some x => Ok x
              | None => Raise ValueError
              end
  end.

(** The body of the [try] of [_calculate_ppum]: [Some] is a [return]. *)
Definition ppum_try (r : row) : result (option number) :=
  price <- py_float (Some (replace (py_str (Precio_Venta r))
                             (L ",") (L "."))) ;;
  qty <- py_float (DrugParser.qty_val (parsed r)) ;;
  if float_gt qty float_zero
  then q <- float_div price qty ;; Ok (Some (NFloat (round2 q)))
  else Ok None.

(** [_calculate_ppum] *)
Definition _calculate_ppum (r : row) : result number :=
  match ppum_try r with
  | Ok (Some v) => Ok v
  | Ok None => Ok (NInt 0)
  | Raise ValueError => Ok (NInt 0)
  | Raise TypeError => Ok (NInt 0)
  | Raise e => Raise e
  end.

(** The name the classifier works on. *)
Definition working_name (r : row) : str :=
  let clean_name := upper (DrugParser.clean_name (parsed r)) in
  match clean_name with
  | [] => upper (py_str (Producto r))
  | _ :: _ => clean_name
  end.

(** Fallback 1: the first key that is a substring of the name. *)
Definition first_key_in (db : isp_db) (clean_name : str) : option str :=
  find (fun key => contains clean_name key) (keys db).

(** Fallback 2: the key of the first entry one of whose brands is a
    substring of the name.  The loops stop at the first key that is true. *)
Fixpoint first_brand_key (db : isp_db) (clean_name : str)
    (best_match : option str) : option str :=
  match db with
  | [] => best_match
  | (key, data) :: db' =>
      let best_match :=
        if existsb (fun brand => contains clean_name brand) (brands data)
        then Some key else best_match in
      if truthy best_match then best_match
      else first_brand_key db' clean_name best_match
  end.

(** Step 1 of [_enrich_compliance]: [best_match]. *)
Definition find_best_match (db : isp_db) (clean_name : str) : option str :=
  if FUZZY_AVAILABLE then
    match extractOne token_set_ratio clean_name (keys db) with
    | Some (choice, score) => if Qgt_bool score 85 then Some choice else None
    | None => None
    end
  else
    let best_match := first_key_in db clean_name in
    if negb (truthy best_match)
    then first_brand_key db clean_name best_match
    else best_match.

(** Step 2: the generic test; gives [(is_generic, is_bioequivalent)]. *)
Definition generic_check (clean_name found_active_ingredient : str)
    : bool * bool :=
  if contains clean_name found_active_ingredient
     && negb (contains clean_name (L "COMPUESTO"))
  then
    let ratio :=
      if FUZZY_AVAILABLE
      then fuzz_ratio (strip (replace clean_name (L "MG") []))
             found_active_ingredient
      else if startswith clean_name found_active_ingredient
           then 100%Q else 0%Q in
    if Qgt_bool ratio 60 then (true, true) else (false, false)
  else (false, false).

(** Step 3: the loop over the brands of the entry. *)
Definition brand_check (clean_name : str) (brand_list : list str)
    (flags : bool * bool) : bool * bool :=
  fold_left (fun flags brand =>
               if contains clean_name brand then (false, true) else flags)
    brand_list flags.

(** [_enrich_compliance] *)
Definition _enrich_compliance (self : manager) (r : row) : result enriched :=
  let clean_name := working_name r in
  let best_match := find_best_match (isp_db_mock self) clean_name in
  flags <-
    (if truthy best_match then
       data <- getitem (isp_db_mock self)
                 (match best_match with Some k => k | None => [] end) ;;
       let found_active_ingredient := active_ingredient data in
       Ok (found_active_ingredient,
           brand_check clean_name (brands data)
             (generic_check clean_name found_active_ingredient))
     else Ok (DESCONOCIDO, (false, false))) ;;
  ppum <- _calculate_ppum r ;;
  Ok {| base := r;
        Active_Ingredient := fst flags;
        Is_Bioequivalent := snd (snd flags);
        Is_Generic := fst (snd flags);
        Calculated_PPUM := ppum |}.

End WithLibraries.

End DataManager.

(** ** [pandas]: [Series.str.contains(pat)]

    [contains] compiles [pat] as a regular expression ([regex=True] is the
    default) and searches each value.  Of Python's pattern syntax this
    covers ordinary characters and the dot; [compile_query] gives [None]
    for a pattern with any other special character, which is outside the
    embedding. *)

Module Pandas.

Definition special (c : ascii) : bool :=
  existsb (Ascii.eqb c) (L "\^$*+?{}[]|()").

Fixpoint compile_query (ignorecase : bool) (pat : str) : option regex :=
  match pat with
  | [] => Some REps
  | c :: pat' =>
      match compile_query ignorecase pat' with
      | None => None
      | Some r =>
          if Ascii.eqb c "."%char then Some (RSeq any_char r)
          else if special c then None
          else Some (RSeq (chr ignorecase c) r)
      end
  end.

Definition str_contains (r : regex) (value : str) : bool :=
  match search r value with
  | Some _ => true
  | None => false
  end.

End Pandas.

(** ** [motor_busqueda.py] *)

Module MotorBusqueda.

(** The columns the engine reads, in a row of the inventory frame of a
    file in which pandas finds whole numbers in the columns of the stock
    and of the price (pesos, units).  A decimal comma in one price makes the
    column of the prices a column of texts, on which the arithmetic of
    [_render_results] raises: that frame is outside the embedding. *)
Record product := {
  clean_name : str;
  Active_Ingredient : str;
  Stock : Z;
  Is_Generic : bool;
  Is_Bioequivalent : bool;
  Precio_Venta : Z
}.

(** A row of [alternatives] once the column [Rank] is added. *)
Record ranked := {
  item : product;
  Rank : Z
}.

Definition price (r : ranked) : Z := Precio_Venta (item r).

(** [calculate_rank], the closure over [query] inside [buscar] *)
Definition calculate_rank (query : str) (row : product) : Z :=
  let is_requested := contains (clean_name row) query in
  if Is_Generic row && Is_Bioequivalent row then 1%Z
  else if Is_Bioequivalent row then 2%Z
  else if is_requested then 3%Z
  else 4%Z.

(** The order of [sort_values(by=['Rank', 'Precio Venta'])]. *)
Definition key_leb (a b : ranked) : bool :=
  (Rank a <? Rank b)%Z || ((Rank a =? Rank b)%Z && (price a <=? price b)%Z).

Fixpoint insert_by (x : ranked) (l : list ranked) : list ranked :=
  match l with
  | [] => [x]
  | y :: l' => if key_leb x y then x :: l else y :: insert_by x l'
  end.

(** [sort_values]: a stable sort on the two keys. *)
Definition sort_values (l : list ranked) : list ranked :=
  fold_right insert_by [] l.

(** Step 4 of [buscar]: the column [Rank], then the sort. *)
Definition rank_and_sort (query : str) (alternatives : list product)
    : list ranked :=
  sort_values
    (map (fun row => {| item := row; Rank := calculate_rank query row |})
       alternatives).

Inductive tipo := BIO_GENERICO | BIO_MARCA | SOLICITADO | OTROS.

(** One printed line: the label, the product, and the amount after
    [SAVE $] when the column AHORRO is not empty. *)
Record line := {
  l_tipo : tipo;
  l_row : ranked;
  l_ahorro : option Z
}.

(** The body of the loop of [_render_results]. *)
Definition render_row (ref_price : Z) (row : ranked) : line :=
  if (Rank row =? 1)%Z then
    {| l_tipo := BIO_GENERICO; l_row := row;
       l_ahorro := if (ref_price >? price row)%Z
                   then Some (ref_price - price row)%Z else None |}
  else if (Rank row =? 2)%Z then
    {| l_tipo := BIO_MARCA; l_row := row; l_ahorro := None |}
  else if (Rank row =? 3)%Z then
    {| l_tipo := SOLICITADO; l_row := row; l_ahorro := None |}
  else
    {| l_tipo := OTROS; l_row := row; l_ahorro := None |}.

(** [results.iloc[0]] *)
Definition iloc0 (rows : list ranked) : result ranked :=
  match rows with
  | r :: _ => Ok r
  | [] => Raise IndexError
  end.

(** The reference price of [_render_results], for the compiled query. *)
Definition reference_price (pat : regex) (results : list ranked)
    : result Z :=
  let ref_rows :=
    filter (fun r => Pandas.str_contains pat (clean_name (item r))) results in
  match ref_rows with
  | r :: _ => Ok (price r)
  | [] => r <- iloc0 results ;; Ok (price r)
  end.

(** [_render_results]: the reference price and the lines printed.  [None]
    when the query is a pattern outside the embedding. *)
Definition _render_results (results : list ranked) (original_query : str)
    : option (result (Z * list line)) :=
  match Pandas.compile_query false original_query with
  | None => None
  | Some pat =>
      Some (ref_price <- reference_price pat results ;;
            Ok (ref_price, map (render_row ref_price) results))
  end.

(** What [buscar] does: it prints that nothing was found and returns, or
    prints the ingredient detected and the table. *)
Inductive outcome :=
| NoMatch (query : str)
| Rendered (active_ing : str) (ref_price : Z) (lines : list line).

(** [buscar], over the rows of the frame [self.df], which is what
    [load_data] returned.  For a file without rows that frame has the
    columns of the file only ([process_dataframe] makes the columns of the
    parser from the dictionaries of the rows, and there is none), so that
    [self.df['clean_name']] raises KeyError. *)
Definition buscar (df : list product) (query : str)
    : option (result outcome) :=
  let query := strip (upper query) in
  match df with
  | [] => Some (Raise KeyError)
  | _ :: _ =>
      match Pandas.compile_query true query with
      | None => None
      | Some pat =>
          let matches :=
            filter (fun row => Pandas.str_contains pat (clean_name row)) df in
          match matches with
          | [] => Some (Ok (NoMatch query))
          | target_product :: _ =>
              let active_ing := Active_Ingredient target_product in
              let alternatives :=
                if negb (eqb_str active_ing DataManager.DESCONOCIDO)
                then filter (fun row =>
                               eqb_str (Active_Ingredient row) active_ing
                               && (Stock row >? 0)%Z) df
                else matches in
              let sorted_results := rank_and_sort query alternatives in
              match _render_results sorted_results query with
              | None => None
              | Some (Ok (ref_price, lines)) =>
                  Some (Ok (Rendered active_ing ref_price lines))
              | Some (Raise e) => Some (Raise e)
              end
          end
      end
  end.

End MotorBusqueda.

(** ** [src/api/main.py] *)

Module Api.

(** A row of the query of [search_products]: the inventory columns and the
    columns of the master catalogue joined to them, [None] for NULL. *)
Record db_row := {
  id : Z;
  nombre_comercial : str;
  precio : Z;
  stock : Z;
  maestro_id : option Z;
  nombre_generico : option str
}.

Inductive status := AVAILABLE | ORDER | REF.

Record product_out := {
  o_id : Z;
  o_nombre : str;
  o_precio : Z;
  o_stock : Z;
  o_status : status;
  o_is_bioequivalent : bool;
  o_is_generic : bool;
  o_maestro_id : option Z
}.

(** What the framework answers: the body of the handler, or the
    validation error 422 when the parameter breaks its declared
    constraint. *)
Inductive response (A : Type) :=
| Http200 (body : A)
| Http422.
Arguments Http200 {A} body.
Arguments Http422 {A}.

(** The body of the loop over the rows. *)
Definition to_result (row : db_row) : product_out :=
  {| o_id := id row;
     o_nombre := nombre_comercial row;
     o_precio := precio row;
     o_stock := stock row;
     o_status := if (stock row >? 0)%Z then AVAILABLE
                 else if (precio row >? 0)%Z then ORDER else REF;
     o_is_bioequivalent := match maestro_id row with
                           | Some _ => true
                           | None => false
                           end;
     o_is_generic := match nombre_generico row with
                     | Some (c :: g) => contains (nombre_comercial row) (c :: g)
                     | _ => false
                     end;
     o_maestro_id := maestro_id row |}.

Section WithDatabase.

(** The SQL query, run with the pattern [q_str] for both placeholders. *)
Variable run_query : str -> list db_row.

(** [search_products], with [q: str = Query(..., min_length=2)] *)
Definition search_products (q : str) : response (str * list product_out) :=
  if length q <? 2 then Http422
  else
    let q_str := L "%" ++ upper q ++ L "%" in
    Http200 (q, map to_result (run_query q_str)).

End WithDatabase.

End Api.

(** ** [scripts/utils/procesar_datos.py] *)

Module ProcesarDatos.

(** [buscar_columna(df, keywords, evitar)], over the column names of [df]:
    the first keyword that is a column; else the first column without a
    forbidden word that contains a keyword. *)
Definition buscar_columna (columns keywords evitar : list str) : option str :=
  match find (fun key => existsb (eqb_str key) columns) keywords with
  | Some key => Some key
  | None =>
      find (fun col =>
              negb (existsb (fun bad => contains col bad) evitar)
              && existsb (fun key => contains col key) keywords)
        columns
  end.

(** What [limpiar_num] can raise, and what it gives. *)
Inductive raised := ValueError | OverflowError.

Inductive outcome :=
| Return (n : Z)
| Fail (e : raised).

(** The number a text of decimal digits spells. *)
Definition digit_value (c : ascii) : Z := Z.of_nat (code c - 48).

Definition int_of_digits (ds : str) : Z :=
  fold_left (fun acc c => 10 * acc + digit_value c)%Z ds 0%Z.

(** [float(s)] for a text of digits and hyphens, which is what the
    substitution of [limpiar_num] leaves: Python reads an optional sign and
    one decimal digit or more, and gives the nearest binary64 number;
    [None] is ValueError. *)
Definition float_of_digits (s : str) : option spec_float :=
  let number (negative : bool) (ds : str) :=
    match ds with
    | [] => None
    | _ :: _ =>
        if forallb is_digit ds
        then Some (binary_normalize 53 1024
                     (if negative then - int_of_digits ds
                      else int_of_digits ds)%Z 0 negative)
        else None
    end in
  match s with
  | c :: ds => if Ascii.eqb c "-"%char then number true ds
               else number false s
  | [] => None
  end.

(** [int(x)] for a float: the whole part. *)
Definition int_of_float (x : spec_float) : outcome :=
  match x with
  | S754_zero _ => Return 0
  | S754_infinity _ => Fail OverflowError
  | S754_nan => Fail ValueError
  | S754_finite s m e =>
      let a := if (0 <=? e)%Z then (Zpos m * 2 ^ e)%Z
               else (Zpos m / 2 ^ (- e))%Z in
      Return (if s then - a else a)%Z
  end.

(** [[^\d\-]] *)
Definition not_digit_or_hyphen (c : ascii) : bool :=
  negb (is_digit c || Ascii.eqb c "-"%char).

(** [limpiar_num] *)
Definition limpiar_num (val : pyval) : outcome :=
  match str_of val with
  | Raise _ => Fail ValueError
  | Ok text =>
      let s := re_sub (RChar not_digit_or_hyphen) [] text in
      match s with
      | [] => Return 0
      | _ :: _ =>
          match float_of_digits s with
          | Some x => int_of_float x
          | None => Fail ValueError
          end
      end
  end.

(** A row of the Cenabast file, as far as the script reads it: the two
    cells [row.get] returns. *)
Record cenabast_row := {
  Nombre_producto_generico : pyval;
  Clasificacion_interna : pyval
}.

(** The dictionary [mapa_cat]: keys in the order they were added. *)
Definition dict := list (str * str).

Fixpoint dict_get (d : dict) (key : str) : option str :=
  match d with
  | [] => None
  | (k, v) :: d' => if eqb_str k key then Some v else dict_get d' key
  end.

(** The body of the loop that fills [mapa_cat]; [None] is the IndexError of
    [nom.split()[0]]. *)
Definition add_category (mapa_cat : dict) (row : cenabast_row)
    : option dict :=
  let nom := upper (py_str (Nombre_producto_generico row)) in
  let cat := strip (py_str (Clasificacion_interna row)) in
  if (3 <? length nom)
     && negb (existsb (eqb_str cat) [L "nan"; []])
  then
    match RapidFuzz.split nom with
    | [] => None
    | key :: _ =>
        Some (match dict_get mapa_cat key with
              | Some _ => mapa_cat
              | None => mapa_cat ++ [(key, cat)]
              end)
    end
  else Some mapa_cat.

(** The loop inside [try: ... except: pass]: an exception ends it and
    leaves the dictionary as it is. *)
Fixpoint load_categories (mapa_cat : dict) (rows : list cenabast_row)
    : dict :=
  match rows with
  | [] => mapa_cat
  | row :: rows' =>
      match add_category mapa_cat row with
      | Some mapa_cat' => load_categories mapa_cat' rows'
      | None => mapa_cat
      end
  end.

Definition OTROS : str := L "OTROS".
Definition SIN_CLASIFICAR : str := L "SIN CLASIFICAR".

(** [get_cat], with the global [mapa_cat] as an argument *)
Definition get_cat (mapa_cat : dict) (txt : pyval) : str :=
  if negb (isinstance_str txt) then OTROS
  else
    let tokens := RapidFuzz.split (upper (py_str txt)) in
    match find (fun t => (3 <? length t)
                         && match dict_get mapa_cat t with
                            | Some _ => true
                            | None => false
                            end) tokens with
    | Some t => match dict_get mapa_cat t with
                | Some cat => cat
                | None => SIN_CLASIFICAR
                end
    | None => SIN_CLASIFICAR
    end.

(** A row of [df_clean] once the three numeric columns are cleaned. *)
Record fila := {
  Producto : pyval;
  Codigo : pyval;
  Stock : Z;
  Costo : Z;
  Precio : Z
}.

Definition DISPONIBLE : str := L "DISPONIBLE".
Definition POR_ENCARGO : str := L "POR ENCARGO".
Definition SOLO_REFERENCIA : str := L "SOLO REFERENCIA".

(** [definir_estado] *)
Definition definir_estado (row : fila) : str :=
  let s := Stock row in
  let p := Precio row in
  if (s >? 0)%Z && (p >? 0)%Z then DISPONIBLE
  else if (s <=? 0)%Z && (p >? 0)%Z then POR_ENCARGO
  else SOLO_REFERENCIA.

(** The row with the columns [Categoria] and [Estado]. *)
Record fila_final := {
  datos : fila;
  Categoria : str;
  Estado : str
}.

Definition clasificar (mapa_cat : dict) (row : fila) : fila_final :=
  {| datos := row;
     Categoria := get_cat mapa_cat (Producto row);
     Estado := definir_estado row |}.

(** [pd.notna] of a cell: neither [None] nor NaN. *)
Definition notna (v : pyval) : bool :=
  match v with
  | PyNone => false
  | PyFloat r => negb (eqb_str r (L "nan"))
  | _ => true
  end.

(** The filter on the product name: [!= "SIN NOMBRE"], then [notna]. *)
Definition con_nombre (row : fila) : bool :=
  negb (match Producto row with
        | PyStr s => eqb_str s (L "SIN NOMBRE")
        | _ => false
        end)
  && notna (Producto row).

(** The order of [sort_values(by=['Estado', 'Producto'])] when every
    product name is a string: texts compare by code points. *)
Definition clave_leb (a b : fila_final) : bool :=
  if eqb_str (Estado a) (Estado b)
  then RapidFuzz.str_leb (py_str (Producto (datos a)))
         (py_str (Producto (datos b)))
  else RapidFuzz.str_leb (Estado a) (Estado b).

Fixpoint insertar (x : fila_final) (l : list fila_final) : list fila_final :=
  match l with
  | [] => [x]
  | y :: l' => if clave_leb x y then x :: l else y :: insertar x l'
  end.

(** The sort; [None] when some product name is not a string, which is
    outside the embedding. *)
Definition sort_values (l : list fila_final) : option (list fila_final) :=
  if forallb (fun r => isinstance_str (Producto (datos r))) l
  then Some (fold_right insertar [] l)
  else None.

(** Sections 2 and 3 of the script, from the cleaned rows to the rows
    written to the file. *)
Definition catalogo (mapa_cat : dict) (rows : list fila)
    : option (list fila_final) :=
  sort_values (map (clasificar mapa_cat) (filter con_nombre rows)).

End ProcesarDatos.

(** ** [src/etl/pipeline.py] *)

Module Pipeline.

(** A row of the Cenabast file: the three cells [row.get] returns. *)
Record cenabast_row := {
  Nombre_producto_generico : pyval;
  Codigo_material : pyval;
  Clasificacion_interna : pyval
}.

(** A tuple of [records]: [(codigo, nombre, clasificacion)]. *)
Record maestro_record := {
  codigo : str;
  nombre : str;
  clasificacion : str
}.

(** The body of the loop of [load_maestro], on the pair of [records] and
    [unique_names]. *)
Definition add_maestro (state : list maestro_record * list str)
    (row : cenabast_row) : list maestro_record * list str :=
  let (records, unique_names) := state in
  let nombre_ := upper (strip (py_str (Nombre_producto_generico row))) in
  let codigo_ := strip (py_str (Codigo_material row)) in
  let clasificacion_ := strip (py_str (Clasificacion_interna row)) in
  if negb (match nombre_ with [] => true | _ :: _ => false end)
     && negb (existsb (eqb_str nombre_) unique_names)
  then (records ++ [{| codigo := codigo_; nombre := nombre_;
                       clasificacion := clasificacion_ |}],
        nombre_ :: unique_names)
  else state.

(** [load_maestro]: the records handed to [executemany]. *)
Definition load_maestro (df : list cenabast_row) : list maestro_record :=
  fst (fold_left add_maestro df ([], [])).

(** The dictionary [maestro_cache], from the name to the id, built from the
    rows [(id, nombre_generico)] of the master table: a name seen again
    keeps its place and takes the new id. *)
Definition cache := list (str * Z).

Fixpoint cache_set (d : cache) (key : str) (v : Z) : cache :=
  match d with
  | [] => [(key, v)]
  | (k, v0) :: d' =>
      if eqb_str k key then (k, v) :: d' else (k, v0) :: cache_set d' key v
  end.

Fixpoint cache_get (d : cache) (key : str) : option Z :=
  match d with
  | [] => None
  | (k, v) :: d' => if eqb_str k key then Some v else cache_get d' key
  end.

Definition maestro_cache (rows : list (Z * str)) : cache :=
  fold_left (fun d row => cache_set d (snd row) (fst row)) rows [].

(** [d[key]] *)
Definition cache_getitem (d : cache) (key : str) : result Z :=
  match cache_get d key with
  | Some v => Ok v
  | None => Raise KeyError
  end.

Section WithLibraries.

(** Whether [rapidfuzz] could be imported, its scorer, and
    [difflib.get_close_matches(word, possibilities, n=1, cutoff=0.8)]. *)
Variable FUZZY_AVAILABLE : bool.
Variable token_set_ratio : str -> str -> Q.
Variable get_close_matches : str -> list str -> list str.

(** Step 3 of the loop of [load_inventario]: the value of [maestro_id]. *)
Definition smart_link (maestro_cache : cache) (clean_name : str)
    : result (option Z) :=
  let maestro_keys := map fst maestro_cache in
  match cache_get maestro_cache clean_name with
  | Some v => Ok (Some v)
  | None =>
      match maestro_keys with
      | [] => Ok None
      | _ :: _ =>
          if FUZZY_AVAILABLE then
            match DataManager.extractOne token_set_ratio clean_name
                    maestro_keys with
            | Some (choice, score) =>
                if DataManager.Qgt_bool score 85
                then v <- cache_getitem maestro_cache choice ;; Ok (Some v)
                else Ok None
            | None => Ok None
            end
          else
            match get_close_matches clean_name maestro_keys with
            | m :: _ => v <- cache_getitem maestro_cache m ;; Ok (Some v)
            | [] => Ok None
            end
      end
  end.

(** The builtin [int] on a cell; [None] when it raises. *)
Variable py_int : pyval -> option Z.

(** [int(v) if pd.notna(v) else 0] inside [try: ... except: ... = 0];
    [None] stands for a column that was not found. *)
Definition to_int (cell : option pyval) : Z :=
  match cell with
  | Some v => if ProcesarDatos.notna v
              then match py_int v with Some z => z | None => 0%Z end
              else 0%Z
  | None => 0%Z
  end.

(** A row of the inventory file: the product cell and, for the columns
    that were found, the other cells. *)
Record golan_row := {
  g_producto : pyval;
  g_stock : option pyval;
  g_precio : option pyval;
  g_codigo : option pyval
}.

(** A tuple of [records_to_insert]. *)
Record inventario_record := {
  sku : option str;
  nombre_comercial : str;
  precio : Z;
  stock : Z;
  maestro_id : option Z
}.

(** The body of the loop of [load_inventario]; [None] is [continue]. *)
Definition inventario_row (maestro_cache : cache) (row : golan_row)
    : result (option inventario_record) :=
  let raw_name := py_str (g_producto row) in
  if eqb_str raw_name (L "nan") then Ok None
  else
    let parsed := DrugParser.parse_str raw_name in
    let clean_name := DrugParser.clean_name parsed in
    let stock_ := to_int (g_stock row) in
    let precio_ := to_int (g_precio row) in
    let sku_ := match g_codigo row with
                | Some v => if ProcesarDatos.notna v then Some (py_str v)
                            else None
                | None => None
                end in
    maestro_id_ <- smart_link maestro_cache clean_name ;;
    Ok (Some {| sku := sku_; nombre_comercial := raw_name;
                precio := precio_; stock := stock_;
                maestro_id := maestro_id_ |}).

(** The loop: [records_to_insert]. *)
Fixpoint inventario_records (maestro_cache : cache) (df : list golan_row)
    : result (list inventario_record) :=
  match df with
  | [] => Ok []
  | row :: df' =>
      r <- inventario_row maestro_cache row ;;
      rs <- inventario_records maestro_cache df' ;;
      Ok (match r with Some x => x :: rs | None => rs end)
  end.

(** [load_inventario], from the column names and the rows of the file and
    the rows of the master table; [None] when there is no product column
    and nothing is inserted. *)
Definition load_inventario (columns : list str) (df : list golan_row)
    (maestro : list (Z * str)) : option (result (list inventario_record)) :=
  match find (fun c => contains c (L "Producto")) columns with
  | None => None
  | Some _ => Some (inventario_records (maestro_cache maestro) df)
  end.

End WithLibraries.

End Pipeline.

(** ** [scripts/smart_match.py]: the reconciliation of [main] *)

Module Reconcile.

(** A row of the ISP file, as far as [main] reads it: the five cells. *)
Record isp_row := {
  Principio_Activo : pyval;
  Estado : pyval;
  Producto : pyval;
  Titular : pyval;
  Vigencia : pyval
}.

(** [pd.isna] of a cell: [None] or NaN. *)
Definition isna (v : pyval) : bool := negb (ProcesarDatos.notna v).

(** Equality of two cells of the file (texts, or NaN). *)
Definition cell_eqb (a b : pyval) : bool :=
  match a, b with
  | PyStr s, PyStr t => eqb_str s t
  | PyNone, PyNone => true
  | PyInt x, PyInt y => (x =? y)%Z
  | PyBool x, PyBool y => Bool.eqb x y
  | PyFloat r, PyFloat r' => eqb_str r r'
  | _, _ => false
  end.

(** [Series.unique()]: the values in the order they first appear. *)
Fixpoint unique_from (seen : list pyval) (l : list pyval) : list pyval :=
  match l with
  | [] => []
  | v :: l' =>
      if existsb (cell_eqb v) seen then unique_from seen l'
      else v :: unique_from (v :: seen) l'
  end.

(** [normalized_principles] *)
Definition normalized_principles (df_isp : list isp_row)
    : list (pyval * str) :=
  let unique_principles :=
    unique_from []
      (filter (fun v => negb (isna v)) (map Principio_Activo df_isp)) in
  map (fun p => (p, SmartMatch.normalize_text p)) unique_principles.

(** An entry of [bio_map]. *)
Record bio_entry := {
  principio : str;
  producto : str;
  titular : str;
  vigencia : str
}.

(** [bio_map] *)
Definition bio_map (df_isp : list isp_row) : list bio_entry :=
  flat_map
    (fun row =>
       let p_active := Principio_Activo row in
       if isna p_active then []
       else if contains (upper (py_str (Estado row))) (L "EQUIVALENTE")
            then [{| principio := SmartMatch.normalize_text p_active;
                     producto := SmartMatch.normalize_text
                                   (PyStr (py_str (Producto row)));
                     titular := SmartMatch.normalize_text
                                  (PyStr (py_str (Titular row)));
                     vigencia := upper (py_str (Vigencia row)) |}]
            else [])
    df_isp.

(** The truth value of an object. *)
Definition py_truthy (v : pyval) : bool :=
  match v with
  | PyStr [] => false
  | PyStr (_ :: _) => true
  | PyNone => false
  | PyInt z => negb (z =? 0)%Z
  | PyBool b => b
  | PyFloat r => negb (eqb_str r (L "0.0") || eqb_str r (L "-0.0"))
  end.

(** A row of the table [products]. *)
Record product := {
  pid : Z;
  raw_name : pyval;
  raw_lab : pyval
}.

(** Step 1: the first principle, at least three characters long once
    normalised, that the normalised name contains. *)
Definition detect_dci (principles : list (pyval * str)) (norm_name : str)
    : option pyval :=
  option_map fst
    (find (fun p => negb (length (snd p) <? 3) && contains norm_name (snd p))
       principles).

Section WithDifflib.

(** [similar]: the ratio of [difflib.SequenceMatcher]. *)
Variable similar : str -> str -> Q.

(** Step 2: whether some entry of [bio_map] for the principle passes. *)
Definition detect_bio (entries : list bio_entry) (detected_dci : option pyval)
    (norm_name norm_lab : str) : bool :=
  match detected_dci with
  | Some dci =>
      if py_truthy dci then
        let norm_dci := SmartMatch.normalize_text dci in
        existsb
          (fun entry =>
             eqb_str (principio entry) norm_dci
             && ((DataManager.Qgt_bool (similar norm_lab (titular entry))
                    (6 # 10)
                  || DataManager.Qgt_bool
                       (similar norm_name (producto entry)) (6 # 10))
                 && negb (contains (vigencia entry) (L "NO"))))
          entries
      else false
  | None => false
  end.

(** The statement sent to the database for a product. *)
Inductive update :=
| SetDciAndBio (dci : pyval)
| SetDci (dci : pyval)
| SetBio.

(** The choice of the statement; [None] when nothing is to be updated. *)
Definition choose_update (detected_dci : option pyval)
    (is_bioequivalent : bool) : option update :=
  match detected_dci with
  | Some dci =>
      if py_truthy dci then
        if is_bioequivalent then Some (SetDciAndBio dci)
        else Some (SetDci dci)
      else if is_bioequivalent then Some SetBio else None
  | None => if is_bioequivalent then Some SetBio else None
  end.

(** What [main] decides for one product. *)
Definition reconcile (principles : list (pyval * str))
    (entries : list bio_entry) (p : product) : option update :=
  let norm_name := SmartMatch.normalize_text (raw_name p) in
  let norm_lab :=
    SmartMatch.normalize_text
      (if py_truthy (raw_lab p) then raw_lab p else PyStr []) in
  let detected_dci := detect_dci principles norm_name in
  let is_bioequivalent := detect_bio entries detected_dci norm_name norm_lab in
  choose_update detected_dci is_bioequivalent.

(** Whether [cur.execute] succeeds, given the statements sent before; when
    it raises, the handler rolls back and the counters stay. *)
Variable execute : list (Z * update) -> Z -> update -> bool.

(** The counters [updates_dci] and [updates_bio], and the statements sent
    so far, the latest first. *)
Record progress := {
  updates_dci : nat;
  updates_bio : nat;
  sent : list (Z * update)
}.

Definition count (c : progress) (u : update) : progress :=
  match u with
  | SetDciAndBio _ => {| updates_dci := S (updates_dci c);
                         updates_bio := S (updates_bio c);
                         sent := sent c |}
  | SetDci _ => {| updates_dci := S (updates_dci c);
                   updates_bio := updates_bio c;
                   sent := sent c |}
  | SetBio => {| updates_dci := updates_dci c;
                 updates_bio := S (updates_bio c);
                 sent := sent c |}
  end.

(** The body of the loop over the products. *)
Definition process_product (principles : list (pyval * str))
    (entries : list bio_entry) (c : progress) (p : product) : progress :=
  match reconcile principles entries p with
  | Some u =>
      let c' := {| updates_dci := updates_dci c;
                   updates_bio := updates_bio c;
                   sent := (pid p, u) :: sent c |} in
      if execute (sent c) (pid p) u then count c' u else c'
  | None => c
  end.

(** The loop. *)
Definition process_products (df_isp : list isp_row) (products : list product)
    : progress :=
  fold_left (process_product (normalized_principles df_isp) (bio_map df_isp))
    products {| updates_dci := 0; updates_bio := 0; sent := [] |}.

End WithDifflib.

End Reconcile.

(** ** [src/api/main.py]: [get_alternatives] *)

Module Alternatives.

(** The two tables, with the columns the handler names. *)
Record inventario_local := {
  id : Z;
  nombre_comercial : str;
  precio : Z;
  stock : Z;
  maestro_id : option Z
}.

Record catalogo_maestro := {
  m_id : Z;
  nombre_generico : option str
}.

Record database := {
  INVENTARIO_LOCAL : list inventario_local;
  CATALOGO_MAESTRO : list catalogo_maestro
}.

(** The first query, with [fetchone]. *)
Definition select_product (db : database) (product_id : Z)
    : option inventario_local :=
  find (fun i => (id i =? product_id)%Z) (INVENTARIO_LOCAL db).

Fixpoint insert_by_precio (x : inventario_local * catalogo_maestro)
    (l : list (inventario_local * catalogo_maestro))
    : list (inventario_local * catalogo_maestro) :=
  match l with
  | [] => [x]
  | y :: l' =>
      if (precio (fst x) <=? precio (fst y))%Z then x :: l
      else y :: insert_by_precio x l'
  end.

(** The second query: the join, the three conditions, the order by price.
    (Rows of the same price come in an order the query does not fix; here
    they keep the order of the tables.) *)
Definition select_siblings (db : database) (maestro product_id : Z)
    : list (inventario_local * catalogo_maestro) :=
  let joined :=
    flat_map
      (fun i =>
         map (fun m => (i, m))
           (filter (fun m => match maestro_id i with
                             | Some k => (k =? m_id m)%Z
                             | None => false
                             end)
              (CATALOGO_MAESTRO db)))
      (INVENTARIO_LOCAL db) in
  let selected :=
    filter (fun im => match maestro_id (fst im) with
                      | Some k => (k =? maestro)%Z
                      | None => false
                      end
                      && negb (id (fst im) =? product_id)%Z
                      && (stock (fst im) >? 0)%Z)
      joined in
  fold_right insert_by_precio [] selected.

Record alternative := {
  a_id : Z;
  a_nombre : str;
  a_precio : Z;
  a_stock : Z;
  a_savings : Z;
  a_is_generic : bool
}.

(** The body of the loop over the rows; [x in s] raises TypeError when [x]
    is [None]. *)
Definition to_alternative (base_price : Z)
    (row : inventario_local * catalogo_maestro) : result alternative :=
  let (i, m) := row in
  let savings := Z.max 0 (base_price - precio i) in
  match nombre_generico m with
  | Some g =>
      Ok {| a_id := id i; a_nombre := nombre_comercial i;
            a_precio := precio i; a_stock := stock i;
            a_savings := savings;
            a_is_generic := contains (nombre_comercial i) g |}
  | None => Raise TypeError
  end.

Fixpoint to_alternatives (base_price : Z)
    (rows : list (inventario_local * catalogo_maestro))
    : result (list alternative) :=
  match rows with
  | [] => Ok []
  | row :: rows' =>
      a <- to_alternative base_price row ;;
      alts <- to_alternatives base_price rows' ;;
      Ok (a :: alts)
  end.

(** [get_alternatives]: the list under the key [alternatives]. *)
Definition get_alternatives (db : database) (product_id : Z)
    : result (list alternative) :=
  match select_product db product_id with
  | None => Ok []
  | Some prod =>
      match maestro_id prod with
      | None => Ok []
      | Some maestro =>
          if (maestro =? 0)%Z then Ok []
          else
            let base_price := precio prod in
            to_alternatives base_price
              (select_siblings db maestro product_id)
      end
  end.

End Alternatives.

(** ** [patch_stitch.py] *)

Module PatchStitch.

Definition search_text : str := L "_log(`injecting env".
Definition replace_text : str := L "// _log(`injecting env".

(** How the script ends: exit code 1 when the file is missing; exit code 0
    with the file untouched when the text is not found, after telling
    whether the file appears to be patched already; or the new content
    written. *)
Inductive outcome :=
| FileNotFound
| NotFound (appears_patched : bool)
| Patched (new_content : str).

(** The script, from the content of the file, [None] when it is missing. *)
Definition patch (file : option str) : outcome :=
  match file with
  | None => FileNotFound
  | Some content =>
      if negb (contains content search_text)
      then NotFound (contains content replace_text)
      else Patched (replace content search_text replace_text)
  end.

End PatchStitch.

(** ** [DrugParser.process_dataframe] and [DataManager.load_data] *)

Module Loader.

(** [process_dataframe], on the cells [Producto] and [Precio Venta] of the
    rows of the frame: [parse] is applied to the product of each row, in
    the order of the frame, and its dictionary gives the parser's columns of
    the row. *)
Fixpoint process_dataframe (df : list (pyval * pyval))
    : result (list DataManager.row) :=
  match df with
  | [] => Ok []
  | (producto, precio) :: df' =>
      p <- DrugParser.parse producto ;;
      rows <- process_dataframe df' ;;
      Ok ({| DataManager.Producto := producto;
             DataManager.Precio_Venta := precio;
             DataManager.parsed := p |} :: rows)
  end.

(** The file at [data_path] as [load_data] meets it: there is none; or
    [pd.read_csv] raises on it (a file pandas cannot decode or parse); or
    [pd.read_csv] returns a frame, of which [df] holds the cells [Producto]
    and [Precio Venta] of each row.  The lines of the file that
    [on_bad_lines='skip'] drops are not rows of the frame. *)
Inductive csv_file :=
| Missing
| Unreadable
| Frame (df : list (pyval * pyval)).

(** What [load_data] does: it raises FileNotFoundError, lets the exception
    of [pd.read_csv] pass, raises an exception from a row, or returns the
    frame. *)
Inductive outcome :=
| FileNotFoundError
| ReadCsvError
| Raised (e : exn)
| Loaded (inventory_df : list DataManager.enriched).

Section WithLibraries.

Variable FUZZY_AVAILABLE : bool.
Variable token_set_ratio : str -> str -> Q.
Variable fuzz_ratio : str -> str -> Q.
Variable float_of_str : str -> option DataManager.float.
Variable round2 : DataManager.float -> DataManager.float.

(** [df.apply(self._enrich_compliance, axis=1)] *)
Fixpoint apply_enrich (self : DataManager.manager)
    (rows : list DataManager.row) : result (list DataManager.enriched) :=
  match rows with
  | [] => Ok []
  | r :: rows' =>
      e <- DataManager._enrich_compliance FUZZY_AVAILABLE token_set_ratio
             fuzz_ratio float_of_str round2 self r ;;
      es <- apply_enrich self rows' ;;
      Ok (e :: es)
  end.

(** [load_data] *)
Definition load_data (self : DataManager.manager) (file : csv_file)
    : outcome :=
  match file with
  | Missing => FileNotFoundError
  | Unreadable => ReadCsvError
  | Frame df =>
      match rows <- process_dataframe df ;; apply_enrich self rows with
      | Ok inventory_df => Loaded inventory_df
      | Raise e => Raised e
      end
  end.

End WithLibraries.

End Loader.

(** ** [scripts/fix_dump.py] *)

Module FixDump.

Section WithPatterns.

(** The four compiled patterns, as [search] on a line: the groups of the
    match ([None] without one), or whether there is a match. *)
Variable table_create_regex : str -> option str.
Variable inherits_regex : str -> option str.
Variable copy_regex : str -> option (str * str).
Variable skip_regex : str -> bool.

(** The dictionary [chunk_map]; [current_chunk] is a key, so a key may be
    [None]. *)
Definition chunks := list (option str * str).

Fixpoint chunks_set (d : chunks) (key : option str) (v : str) : chunks :=
  match d with
  | [] => [(key, v)]
  | (k, v0) :: d' =>
      if match k, key with
         | Some a, Some b => eqb_str a b
         | None, None => true
         | _, _ => false
         end
      then (k, v) :: d'
      else (k, v0) :: chunks_set d' key v
  end.

Fixpoint chunks_get (d : chunks) (key : str) : option str :=
  match d with
  | [] => None
  | (Some k, v) :: d' => if eqb_str k key then Some v else chunks_get d' key
  | (None, _) :: d' => chunks_get d' key
  end.

(** The variables of the loop, and the lines written so far, the latest
    first. *)
Record state := {
  chunk_map : chunks;
  inside_chunk_create : bool;
  current_chunk : option str;
  buffer_chunk : list str;
  fout : list str
}.

(** [line.strip().endswith(";")] *)
Definition ends_statement (line : str) : bool :=
  match rev (strip line) with
  | c :: _ => Ascii.eqb c ";"%char
  | [] => false
  end.

(** The lines written when no chunk is being created and the line is not a
    COPY that was rewritten. *)
Definition default_write (st : state) (line : str) : state :=
  if skip_regex line then st
  else if contains line (L "CREATE EXTENSION IF NOT EXISTS timescaledb")
       then st
       else {| chunk_map := chunk_map st;
               inside_chunk_create := inside_chunk_create st;
               current_chunk := current_chunk st;
               buffer_chunk := buffer_chunk st;
               fout := line :: fout st |}.

(** The body of the loop over the lines. *)
Definition step (st : state) (line : str) : state :=
  match table_create_regex line with
  | Some chunk =>
      {| chunk_map := chunk_map st;
         inside_chunk_create := true;
         current_chunk := Some chunk;
         buffer_chunk := [line];
         fout := fout st |}
  | None =>
      if inside_chunk_create st then
        let chunk_map' :=
          match inherits_regex line with
          | Some parent_table =>
              chunks_set (chunk_map st) (current_chunk st) parent_table
          | None => chunk_map st
          end in
        let ended := ends_statement line in
        {| chunk_map := chunk_map';
           inside_chunk_create := negb ended;
           current_chunk := if ended then None else current_chunk st;
           buffer_chunk := buffer_chunk st ++ [line];
           fout := fout st |}
      else
        match copy_regex line with
        | Some (chunk_name, cols) =>
            match chunks_get (chunk_map st) chunk_name with
            | Some (c :: parent_table) =>
                {| chunk_map := chunk_map st;
                   inside_chunk_create := inside_chunk_create st;
                   current_chunk := current_chunk st;
                   buffer_chunk := buffer_chunk st;
                   fout := (L "COPY " ++ (c :: parent_table) ++ L " ("
                            ++ cols ++ L ") FROM stdin;" ++ [newline])
                           :: fout st |}
            | _ => default_write st line
            end
        | None => default_write st line
        end
  end.

(** [process_dump], from the lines of the input file to the lines of the
    output file. *)
Definition process_dump (lines : list str) : list str :=
  rev (fout (fold_left step lines
               {| chunk_map := []; inside_chunk_create := false;
                  current_chunk := None; buffer_chunk := [];
                  fout := [] |})).

End WithPatterns.

End FixDump.

(** ** Notions used to state and prove the properties *)

(** *** Lists and the shape of a text *)

Fixpoint takeWhile {A} (p : A -> bool) (l : list A) : list A :=
  match l with
  | x :: l' => if p x then x :: takeWhile p l' else []
  | [] => []
  end.

Fixpoint dropWhile {A} (p : A -> bool) (l : list A) : list A :=
  match l with
  | x :: l' => if p x then dropWhile p l' else l
  | [] => []
  end.

(** The characters [A-Z], [0-9] and the space. *)
Definition plain_char (c : ascii) : bool :=
  is_upper c || is_digit c || Ascii.eqb c space.

(** The letters [a-z] and [A-Z], the digits and ASCII white space. *)
Definition text_char (c : ascii) : bool :=
  is_upper c || is_lower c || is_digit c || is_space c.

(** Texts all of whose characters are their own capital. *)
Definition upper_closed (s : str) : Prop :=
  Forall (fun c => upper_char c = c) s.

(** Neither the first nor the last character is white space. *)
Definition trimmed (s : str) : bool :=
  match s with
  | [] => true
  | c :: _ => negb (is_space c) && negb (is_space (last s c))
  end.

(** No two white-space characters next to each other. *)
Fixpoint single_spaced (s : str) : bool :=
  match s with
  | a :: (b :: _) as s' => negb (is_space a && is_space b) && single_spaced s'
  | _ => true
  end.

(** Every run of white space replaced by one space; [in_run] tells that the
    run the next character would belong to has been replaced already. *)
Fixpoint collapse (in_run : bool) (s : str) : str :=
  match s with
  | [] => []
  | c :: s' =>
      if is_space c
      then if in_run then collapse true s' else space :: collapse true s'
      else c :: collapse false s'
  end.

(** *** Word runs *)

(** Whether the character just before the position is a word character. *)
Definition wstat (before : list ascii) : bool :=
  match before with
  | c :: _ => is_word c
  | [] => false
  end.

(** The maximal runs of word characters of a text, in order; [cur] is the
    run being read, latest character first. *)
Definition emit (cur : str) : list str :=
  match cur with
  | [] => []
  | _ :: _ => [rev cur]
  end.

Fixpoint word_runs_acc (cur : str) (s : str) : list str :=
  match s with
  | [] => emit cur
  | c :: s' =>
      if is_word c then word_runs_acc (c :: cur) s'
      else emit cur ++ word_runs_acc [] s'
  end.

Definition word_runs (s : str) : list str := word_runs_acc [] s.

(** The text without the word runs that [is_tok] selects. *)
Definition keep (is_tok : str -> bool) (w : str) : str :=
  if is_tok w then [] else w.

Fixpoint remove_acc (is_tok : str -> bool) (cur : str) (s : str) : str :=
  match s with
  | [] => keep is_tok (rev cur)
  | c :: s' =>
      if is_word c then remove_acc is_tok (c :: cur) s'
      else keep is_tok (rev cur) ++ c :: remove_acc is_tok [] s'
  end.

(** A word that [\b...\b] can delimit. *)
Definition word_ok (w : string) : Prop :=
  L w <> [] /\ forallb is_word (L w) = true.

(** The word [w] is none of the word runs of the text. *)
Definition no_run (w : string) (t : str) : Prop :=
  Forall (fun run => eqb_str run (L w) = false) (word_runs t).

(** [X] followed by one digit or more: what [\bX\d+\b] deletes. *)
Definition is_x_residue (w : str) : bool :=
  match w with
  | c :: d :: ds => Ascii.eqb c "X"%char && forallb is_digit (d :: ds)
  | _ => false
  end.

(** *** The matcher *)

(** The greedy star of one character class, by recursion on the text: the
    longest run first, then shorter ones while the rest [k] fails. *)
Fixpoint star_spec (p : ascii -> bool) (k : cont) (before ahead : list ascii)
    (caps : captures) : option (zipper * captures) :=
  match ahead with
  | c :: ahead' =>
      if p c
      then match star_spec p k (c :: before) ahead' caps with
           | Some m => Some m
           | None => k (before, ahead) caps
           end
      else k (before, ahead) caps
  | [] => k (before, []) caps
  end.

(** A pattern that matches at a position exactly when a run of word
    characters starts there and the whole run is one that [is_tok]
    selects. *)
Definition whole_word (r : regex) (is_tok : str -> bool) : Prop :=
  forall before ahead,
    match_at r (before, ahead)
    = if wstat before then None
      else if is_tok (takeWhile is_word ahead)
           then Some ((rev (takeWhile is_word ahead) ++ before,
                       dropWhile is_word ahead), [])
           else None.

(** Whether the pattern can match the empty text. *)
Fixpoint nullable (r : regex) : bool :=
  match r with
  | REps | RStar _ | RBol | REol | RWordB => true
  | RChar _ => false
  | RSeq r1 r2 => nullable r1 && nullable r2
  | RAlt r1 r2 => nullable r1 || nullable r2
  | RGroup _ r1 => nullable r1
  end.

(** The position [z1] is not before [z] in the text, and it is after it
    when [strict]. *)
Definition advances (strict : bool) (z z1 : zipper) : Prop :=
  if strict then length (snd z1) < length (snd z)
  else length (snd z1) <= length (snd z).

(** *** The field extractor and the normaliser *)

(** The record [parse] gives for a text from which it takes nothing. *)
Definition nothing_extracted (text : str) : DrugParser.parsed :=
  {| DrugParser.original := text;
     DrugParser.clean_name := text;
     DrugParser.brand_type := None;
     DrugParser.lab := DrugParser.NO_IDENTIFICADO;
     DrugParser.dose_val := None; DrugParser.dose_unit := None;
     DrugParser.qty_val := None; DrugParser.qty_unit := None |}.

(** Parsing the clean name of [s] again gives the same clean name and
    extracts nothing. *)
Definition reparse_fixed_point (s : str) : Prop :=
  let c := DrugParser.clean_name (DrugParser.parse_str s) in
  let p := DrugParser.parse_str c in
  DrugParser.clean_name p = c
  /\ DrugParser.dose_val p = None /\ DrugParser.dose_unit p = None
  /\ DrugParser.qty_val p = None /\ DrugParser.qty_unit p = None
  /\ DrugParser.lab p = DrugParser.NO_IDENTIFICADO.

(** The stop words of the normaliser removed one after the other. *)
Definition remove_stop_words (ws : list string) (text : str) : str :=
  fold_left (fun text word => re_sub (SmartMatch.word_re word) [] text)
    ws text.

(** *** The ranking engine *)

(** The order of the result list: by rank, and by price within a rank. *)
Definition key_le (a b : MotorBusqueda.ranked) : Prop :=
  (MotorBusqueda.Rank a < MotorBusqueda.Rank b)%Z
  \/ (MotorBusqueda.Rank a = MotorBusqueda.Rank b
      /\ (MotorBusqueda.price a <= MotorBusqueda.price b)%Z).

(** The rank of a row by the first rule that applies. *)
Definition rank_rule (query : str) (r : MotorBusqueda.ranked) : Prop :=
  let p := MotorBusqueda.item r in
  let generic := MotorBusqueda.Is_Generic p in
  let bioequivalent := MotorBusqueda.Is_Bioequivalent p in
  let requested := contains (MotorBusqueda.clean_name p) query in
  (generic = true /\ bioequivalent = true -> MotorBusqueda.Rank r = 1%Z)
  /\ (generic = false /\ bioequivalent = true -> MotorBusqueda.Rank r = 2%Z)
  /\ (bioequivalent = false /\ requested = true ->
      MotorBusqueda.Rank r = 3%Z)
  /\ (bioequivalent = false /\ requested = false ->
      MotorBusqueda.Rank r = 4%Z).

(** The reference price and the saving in the words of the specification:
    the price of the first row, in the order of the list, whose clean name
    contains the query string, else the price of the first row. *)
Definition spec_reference_price (query : str)
    (results : list MotorBusqueda.ranked) : option Z :=
  match filter (fun r => contains (MotorBusqueda.clean_name
                                     (MotorBusqueda.item r)) query)
          results with
  | r :: _ => Some (MotorBusqueda.price r)
  | [] => match results with
          | r :: _ => Some (MotorBusqueda.price r)
          | [] => None
          end
  end.

Definition spec_savings (reference_price : Z) (r : MotorBusqueda.ranked)
    : Z :=
  Z.max 0 (reference_price - MotorBusqueda.price r).

(** A query in which no character is special for [re]: the pattern it
    compiles to is the text itself. *)
Definition literal_query (query : str) : bool :=
  forallb (fun c => negb (Ascii.eqb c "."%char || Pandas.special c)) query.

(** Two products with the same active ingredient, both in stock: an eye
    drop sold under its brand, and the generic. *)
Definition ofteno : MotorBusqueda.product :=
  {| MotorBusqueda.clean_name := L "3-A OFTENO DICLOFENACO SODICO";
     MotorBusqueda.Active_Ingredient := L "DICLOFENACO";
     MotorBusqueda.Stock := 3;
     MotorBusqueda.Is_Generic := false;
     MotorBusqueda.Is_Bioequivalent := false;
     MotorBusqueda.Precio_Venta := 9000 |}.

Definition diclofenaco : MotorBusqueda.product :=
  {| MotorBusqueda.clean_name := L "DICLOFENACO SODICO";
     MotorBusqueda.Active_Ingredient := L "DICLOFENACO";
     MotorBusqueda.Stock := 10;
     MotorBusqueda.Is_Generic := true;
     MotorBusqueda.Is_Bioequivalent := true;
     MotorBusqueda.Precio_Venta := 4000 |}.

(** *** The classifier *)

(** The flags [(is_generic, is_bioequivalent)] never say generic without
    saying bioequivalent. *)
Definition flags_ok (flags : bool * bool) : Prop :=
  fst flags = true -> snd flags = true.

(** Some brand of the entry is in the name. *)
Definition has_brand_in (clean_name : str)
    (e : str * DataManager.isp_entry) : bool :=
  existsb (fun brand => contains clean_name brand)
    (DataManager.brands (snd e)).

(** A registry as [dict] makes it: no key twice.  In the registry of the
    repository, moreover, no key is empty and no ingredient is called
    DESCONOCIDO. *)
Definition well_formed (db : DataManager.isp_db) : Prop :=
  NoDup (DataManager.keys db)
  /\ Forall (fun e => fst e <> []
                      /\ DataManager.active_ingredient (snd e)
                         <> DataManager.DESCONOCIDO) db.

(** The reverse lookup in the words of the specification, for one row:
    when no key of the registry is in the name and a brand of the registry
    is, the ingredient is resolved. *)
Definition reverse_lookup_resolves (fuzzy_available : bool)
    (token_set_ratio fuzz_ratio : str -> str -> Q)
    (float_of_str : str -> option DataManager.float)
    (round2 : DataManager.float -> DataManager.float)
    (self : DataManager.manager) (r : DataManager.row) : Prop :=
  let name := DataManager.working_name r in
  DataManager.first_key_in (DataManager.isp_db_mock self) name = None ->
  (exists key data brand,
      In (key, data) (DataManager.isp_db_mock self)
      /\ In brand (DataManager.brands data)
      /\ contains name brand = true) ->
  exists e,
    DataManager._enrich_compliance fuzzy_available token_set_ratio fuzz_ratio
      float_of_str round2 self r = Ok e
    /\ DataManager.Active_Ingredient e <> DataManager.DESCONOCIDO.

(** What [_calculate_ppum] returns in the words of the specification. *)
Definition spec_ppum (float_of_str : str -> option DataManager.float)
    (round2 : DataManager.float -> DataManager.float)
    (r : DataManager.row) : DataManager.number :=
  match float_of_str (replace (py_str (DataManager.Precio_Venta r))
                        (L ",") (L ".")),
        DrugParser.qty_val (DataManager.parsed r) with
  | Some price, Some qty_text =>
      match float_of_str qty_text with
      | Some qty =>
          if DataManager.float_gt qty DataManager.float_zero
          then DataManager.NFloat (round2 (SFdiv 53 1024 price qty))
          else DataManager.NInt 0
      | None => DataManager.NInt 0
      end
  | _, _ => DataManager.NInt 0
  end.

(** *** What a match consumed *)

(** [matches r before x after caps caps']: at the position with [before]
    behind it (nearest first), the pattern can match the text [x], with
    [after] following, and adds to the groups [caps] to give [caps']. *)
Inductive matches : regex -> list ascii -> str -> list ascii ->
                    captures -> captures -> Prop :=
| M_eps before after caps : matches REps before [] after caps caps
| M_char p c before after caps :
    p c = true -> matches (RChar p) before [c] after caps caps
| M_seq r1 r2 before x y after caps caps1 caps2 :
    matches r1 before x (y ++ after) caps caps1 ->
    matches r2 (rev x ++ before) y after caps1 caps2 ->
    matches (RSeq r1 r2) before (x ++ y) after caps caps2
| M_alt_l r1 r2 before x after caps caps1 :
    matches r1 before x after caps caps1 ->
    matches (RAlt r1 r2) before x after caps caps1
| M_alt_r r1 r2 before x after caps caps1 :
    matches r2 before x after caps caps1 ->
    matches (RAlt r1 r2) before x after caps caps1
| M_star_nil r before after caps : matches (RStar r) before [] after caps caps
| M_star_cons r before x y after caps caps1 caps2 :
    matches r before x (y ++ after) caps caps1 ->
    matches (RStar r) (rev x ++ before) y after caps1 caps2 ->
    matches (RStar r) before (x ++ y) after caps caps2
| M_bol after caps : matches RBol [] [] after caps caps
| M_eol before after caps :
    at_end (before, after) = true -> matches REol before [] after caps caps
| M_wordb before after caps :
    at_word_boundary (before, after) = true ->
    matches RWordB before [] after caps caps
| M_group n r before x after caps caps1 :
    matches r before x after caps caps1 ->
    matches (RGroup n r) before x after caps ((n, x) :: caps1).

(** Whether the pattern has no group. *)
Fixpoint group_free (r : regex) : bool :=
  match r with
  | RGroup _ _ => false
  | RSeq r1 r2 | RAlt r1 r2 => group_free r1 && group_free r2
  | RStar r1 => group_free r1
  | REps | RChar _ | RBol | REol | RWordB => true
  end.

(** [s.upper().startswith(p.upper())] *)
Fixpoint startswith_ci (s p : str) {struct p} : bool :=
  match p, s with
  | [], _ => true
  | a :: p', b :: s' =>
      Ascii.eqb (upper_char b) (upper_char a) && startswith_ci s' p'
  | _ :: _, [] => false
  end.

(** A text of one decimal digit or more. *)
Definition is_number (ds : str) : Prop :=
  ds <> [] /\ forallb is_digit ds = true.

(** The units the two patterns of the parser can give. *)
Definition dose_units : list str :=
  map L ["MG"; "G"; "MCG"; "ML"; "%"; "UI"]%string.

Definition quantity_units : list str :=
  map L ["COMP"; "CAP"; "SOBRE"; "ML"; "AMPOLLA"; "FRASCO"; "UNID"; "UND";
         "DOSIS"; "G"]%string.

(** *** The catalogue script *)

(** The place of a state in the catalogue: available first. *)
Definition estado_rank (estado : str) : nat :=
  if eqb_str estado ProcesarDatos.DISPONIBLE then 0
  else if eqb_str estado ProcesarDatos.POR_ENCARGO then 1
  else 2.

(** The state in the words of the endpoint [/search]. *)
Definition estado_of_status (s : Api.status) : str :=
  match s with
  | Api.AVAILABLE => ProcesarDatos.DISPONIBLE
  | Api.ORDER => ProcesarDatos.POR_ENCARGO
  | Api.REF => ProcesarDatos.SOLO_REFERENCIA
  end.

(** The digits and hyphens of a text, in order. *)
Definition digits_and_hyphens (s : str) : str :=
  filter (fun c => is_digit c || Ascii.eqb c "-"%char) s.

(** An entry of the dictionary of categories comes from a row of the
    file: the key is the first word of its generic name, the value its
    classification, which is neither empty nor [nan]. *)
Definition from_row (rows : list ProcesarDatos.cenabast_row)
    (entry : str * str) : Prop :=
  exists row rest,
    In row rows
    /\ RapidFuzz.split
         (upper (py_str (ProcesarDatos.Nombre_producto_generico row)))
       = fst entry :: rest
    /\ snd entry = strip (py_str (ProcesarDatos.Clasificacion_interna row))
    /\ snd entry <> [] /\ snd entry <> L "nan".

(** The state is one of the three the script gives. *)
Definition known_estado (r : ProcesarDatos.fila_final) : Prop :=
  In (ProcesarDatos.Estado r)
    [ProcesarDatos.DISPONIBLE; ProcesarDatos.POR_ENCARGO;
     ProcesarDatos.SOLO_REFERENCIA].

Definition rank_le (a b : ProcesarDatos.fila_final) : Prop :=
  estado_rank (ProcesarDatos.Estado a) <= estado_rank (ProcesarDatos.Estado b).

(** *** The pipeline *)

(** The master record a row of the Cenabast file gives. *)
Definition maestro_of_row (row : Pipeline.cenabast_row)
    : Pipeline.maestro_record :=
  {| Pipeline.codigo := strip (py_str (Pipeline.Codigo_material row));
     Pipeline.nombre :=
       upper (strip (py_str (Pipeline.Nombre_producto_generico row)));
     Pipeline.clasificacion :=
       strip (py_str (Pipeline.Clasificacion_interna row)) |}.

(** The link of an inventory record points to a row of the master table. *)
Definition link_ok (maestro : list (Z * str))
    (r : Pipeline.inventario_record) : Prop :=
  match Pipeline.maestro_id r with
  | Some v => exists name, In (v, name) maestro
  | None => True
  end.

(** *** The alternatives of a product *)

(** What [get_alternatives] promises of an alternative, for the product
    [prod] asked for: another product of the inventory, in stock, linked to
    the same master entry, with the saving against the price of [prod],
    never negative. *)
Definition alternative_ok (db : Alternatives.database)
    (prod : Alternatives.inventario_local) (a : Alternatives.alternative)
    : Prop :=
  exists i,
    In i (Alternatives.INVENTARIO_LOCAL db)
    /\ Alternatives.id i = Alternatives.a_id a
    /\ Alternatives.id i <> Alternatives.id prod
    /\ Alternatives.maestro_id i = Alternatives.maestro_id prod
    /\ Alternatives.a_precio a = Alternatives.precio i
    /\ Alternatives.a_stock a = Alternatives.stock i
    /\ (Alternatives.a_stock a > 0)%Z
    /\ Alternatives.a_savings a
       = Z.max 0 (Alternatives.precio prod - Alternatives.precio i)
    /\ (0 <= Alternatives.a_savings a)%Z.

Definition precio_le (x y : Alternatives.inventario_local
                             * Alternatives.catalogo_maestro) : Prop :=
  (Alternatives.precio (fst x) <= Alternatives.precio (fst y))%Z.

(** *** The dump filter *)

(** A line [process_dump] may write: a line of the input that starts no
    chunk table and is not skipped, or the COPY line of a chunk retargeted
    to the parent table some INHERITS line of the input names. *)
Definition written_line (table_create_regex inherits_regex : str -> option str)
    (copy_regex : str -> option (str * str)) (skip_regex : str -> bool)
    (lines : list str) (l : str) : Prop :=
  (In l lines
   /\ table_create_regex l = None /\ skip_regex l = false
   /\ contains l (L "CREATE EXTENSION IF NOT EXISTS timescaledb") = false)
  \/ (exists line chunk_name cols parent_table line',
        In line lines /\ copy_regex line = Some (chunk_name, cols)
        /\ In line' lines /\ inherits_regex line' = Some parent_table
        /\ table_create_regex line' = None
        /\ parent_table <> []
        /\ l = L "COPY " ++ parent_table ++ L " (" ++ cols
               ++ L ") FROM stdin;" ++ [newline]).

(** What holds of the state of [process_dump] after any number of lines:
    the lines written are of the two kinds, and every parent table of the
    dictionary comes from an INHERITS line. *)
Definition dump_state_ok (table_create_regex inherits_regex : str -> option str)
    (copy_regex : str -> option (str * str)) (skip_regex : str -> bool)
    (lines : list str) (st : FixDump.state) : Prop :=
  Forall (written_line table_create_regex inherits_regex copy_regex
            skip_regex lines) (FixDump.fout st)
  /\ (forall k parent,
        In (k, parent) (FixDump.chunk_map st) ->
        exists line', In line' lines
                      /\ inherits_regex line' = Some parent
                      /\ table_create_regex line' = None).

(* ===================================================================== *)
(** * Part II. Properties                                                 *)
(* ===================================================================== *)

(** ** Characters *)

Ltac all_chars c :=
  destruct c as [[] [] [] [] [] [] [] []]; vm_compute; try reflexivity;
  try discriminate; auto.

Lemma upper_char_idem (c : ascii) : upper_char (upper_char c) = upper_char c.
Proof. all_chars c. Qed.

Lemma space_not_word (c : ascii) : is_space c = true -> is_word c = false.
Proof. all_chars c. Qed.

Lemma digit_is_word (c : ascii) : is_digit c = true -> is_word c = true.
Proof. all_chars c. Qed.

Lemma plain_not_special (c : ascii) :
  plain_char c = true -> SmartMatch.special_char c = false.
Proof. all_chars c. Qed.

Lemma plain_upper_fixed (c : ascii) : plain_char c = true -> upper_char c = c.
Proof. all_chars c. Qed.

Lemma plain_space (c : ascii) :
  plain_char c = true -> is_space c = true -> c = space.
Proof. all_chars c. Qed.

Lemma not_special_plain (c : ascii) :
  SmartMatch.special_char c = false -> is_space c = false ->
  plain_char c = true.
Proof. all_chars c. Qed.

Lemma space_is_space : is_space space = true.
Proof. reflexivity. Qed.

Lemma upper_space (c : ascii) : is_space (upper_char c) = is_space c.
Proof. all_chars c. Qed.

(** ** [strip] *)

Lemma lstrip_trim (s : str) :
  match lstrip s with c :: _ => is_space c = false | [] => True end.
Proof.
  induction s as [|c s IH]; simpl; auto.
  destruct (is_space c) eqn:E; auto.
Qed.

Lemma lstrip_suffix (s : str) : exists p, s = p ++ lstrip s /\ forallb is_space p = true.
Proof.
  induction s as [|c s [p [IH1 IH2]]]; simpl.
  - exists []. auto.
  - destruct (is_space c) eqn:E.
    + exists (c :: p). simpl. rewrite E, IH2. split; [f_equal; exact IH1 | reflexivity].
    + exists []. auto.
Qed.

Lemma lstrip_fixed (s : str) :
  match s with c :: _ => is_space c = false | [] => True end -> lstrip s = s.
Proof. destruct s as [|c s]; simpl; auto. intros ->. reflexivity. Qed.

Lemma lstrip_idem (s : str) : lstrip (lstrip s) = lstrip s.
Proof. apply lstrip_fixed, lstrip_trim. Qed.

Lemma lstrip_all_space (s : str) : forallb is_space s = true -> lstrip s = [].
Proof.
  induction s as [|a s IH]; simpl; auto.
  destruct (is_space a); simpl; auto. discriminate.
Qed.

(** [rstrip] keeps the first character of a text that does not start with
    white space. *)
Lemma rstrip_cons (c : ascii) (s : str) :
  is_space c = false -> rstrip (c :: s) = c :: rstrip s.
Proof.
  intros Hc. unfold rstrip. simpl.
  destruct (lstrip_suffix (rev s)) as [p [Hp Hsp]].
  destruct (lstrip (rev s)) as [|d u] eqn:E.
  - rewrite app_nil_r in Hp. rewrite Hp.
    assert (H : lstrip (p ++ [c]) = [c]).
    { clear Hp. induction p as [|a p IH]; simpl in *.
      - rewrite Hc. reflexivity.
      - apply andb_prop in Hsp. destruct Hsp as [-> Hsp]. auto. }
    rewrite H. reflexivity.
  - pose proof (lstrip_trim (rev s)) as Ht. rewrite E in Ht.
    rewrite Hp at 1. rewrite <- app_assoc. simpl.
    assert (H : lstrip (p ++ d :: u ++ [c]) = d :: u ++ [c]).
    { clear Hp E. induction p as [|a p IH]; simpl in *.
      - rewrite Ht. reflexivity.
      - apply andb_prop in Hsp. destruct Hsp as [-> Hsp]. auto. }
    rewrite H. simpl. rewrite rev_app_distr. reflexivity.
Qed.

Lemma rstrip_nil : rstrip [] = [].
Proof. reflexivity. Qed.

Lemma rstrip_last (s : str) (d : ascii) :
  rstrip s <> [] -> is_space (last (rstrip s) d) = false.
Proof.
  unfold rstrip. intros H.
  pose proof (lstrip_trim (rev s)) as Ht.
  destruct (lstrip (rev s)) as [|c u] eqn:E.
  - exfalso. apply H. reflexivity.
  - simpl. rewrite last_last. exact Ht.
Qed.

Lemma rstrip_idem (s : str) : rstrip (rstrip s) = rstrip s.
Proof.
  unfold rstrip. rewrite rev_involutive, lstrip_idem. reflexivity.
Qed.

Lemma rstrip_hd (s : str) :
  match s with c :: _ => is_space c = false | [] => True end ->
  match rstrip s with c :: _ => is_space c = false | [] => True end.
Proof.
  destruct s as [|c s]; simpl; auto.
  intros Hc. rewrite rstrip_cons by exact Hc. exact Hc.
Qed.

Lemma strip_trimmed (s : str) : trimmed (strip s) = true.
Proof.
  unfold strip, trimmed.
  pose proof (rstrip_hd _ (lstrip_trim s)) as Hh.
  pose proof (rstrip_last (lstrip s)) as Hl.
  destruct (rstrip (lstrip s)) as [|c u] eqn:E; auto.
  rewrite Hh. simpl negb at 1. rewrite Hl; [reflexivity | discriminate].
Qed.

Lemma rstrip_fixed (s : str) (d : ascii) :
  (s <> [] -> is_space (last s d) = false) -> rstrip s = s.
Proof.
  intros H. unfold rstrip.
  destruct s as [|c s] using rev_ind.
  - reflexivity.
  - clear IHs. rewrite rev_app_distr. simpl.
    rewrite last_last in H. rewrite H.
    + simpl. rewrite rev_involutive. reflexivity.
    + intros E. destruct s; discriminate.
Qed.

Lemma trimmed_strip (s : str) : trimmed s = true -> strip s = s.
Proof.
  unfold trimmed, strip. destruct s as [|c s]; auto.
  intros H. apply andb_prop in H. destruct H as [H1 H2].
  apply negb_true_iff in H1, H2.
  rewrite (lstrip_fixed (c :: s)) by exact H1.
  apply (rstrip_fixed _ c). intros _. exact H2.
Qed.

Lemma strip_idem (s : str) : strip (strip s) = strip s.
Proof. apply trimmed_strip, strip_trimmed. Qed.

(** [strip] keeps a part of the text. *)
Lemma lstrip_Forall (P : ascii -> Prop) (s : str) :
  Forall P s -> Forall P (lstrip s).
Proof.
  induction 1 as [|c s Hc Hs IH]; simpl; auto.
  destruct (is_space c); auto.
Qed.

Lemma rstrip_Forall (P : ascii -> Prop) (s : str) :
  Forall P s -> Forall P (rstrip s).
Proof.
  intros H. unfold rstrip. apply Forall_rev, lstrip_Forall, Forall_rev, H.
Qed.

Lemma strip_Forall (P : ascii -> Prop) (s : str) :
  Forall P s -> Forall P (strip s).
Proof. intros H. apply rstrip_Forall, lstrip_Forall, H. Qed.

(** ** The matcher *)

Lemma takeWhile_dropWhile {A} (p : A -> bool) (l : list A) :
  takeWhile p l ++ dropWhile p l = l.
Proof.
  induction l as [|x l IH]; simpl; auto.
  destruct (p x); simpl; [f_equal; exact IH | reflexivity].
Qed.

Lemma takeWhile_all {A} (p : A -> bool) (l : list A) :
  forallb p (takeWhile p l) = true.
Proof.
  induction l as [|x l IH]; simpl; auto.
  destruct (p x) eqn:E; simpl; auto. rewrite E. exact IH.
Qed.

Lemma dropWhile_hd {A} (p : A -> bool) (l : list A) :
  match dropWhile p l with x :: _ => p x = false | [] => True end.
Proof.
  induction l as [|x l IH]; simpl; auto.
  destruct (p x) eqn:E; auto.
Qed.

Lemma rmatch_seq (r1 r2 : regex) z caps (k : cont) :
  rmatch (RSeq r1 r2) z caps k
  = rmatch r1 z caps (fun z' caps' => rmatch r2 z' caps' k).
Proof. reflexivity. Qed.

Lemma rmatch_char (p : ascii -> bool) before ahead caps (k : cont) :
  rmatch (RChar p) (before, ahead) caps k
  = match ahead with
    | c :: rest => if p c then k (c :: before, rest) caps else None
    | [] => None
    end.
Proof. reflexivity. Qed.

Lemma rmatch_wordb z caps (k : cont) :
  rmatch RWordB z caps k = if at_word_boundary z then k z caps else None.
Proof. reflexivity. Qed.

Lemma star_loop_char (p : ascii -> bool) (k : cont) (n : nat) :
  forall before ahead caps,
    length ahead <= n ->
    star_loop (rmatch (RChar p)) k n (before, ahead) caps
    = star_spec p k before ahead caps.
Proof.
  induction n as [|n IH]; intros before ahead caps Hn.
  - destruct ahead; [reflexivity | simpl in Hn; lia].
  - destruct ahead as [|c ahead]; [reflexivity|].
    simpl. destruct (p c) eqn:E; [|reflexivity].
    simpl. replace (length ahead <? S (length ahead)) with true
      by (symmetry; apply Nat.ltb_lt; lia).
    rewrite IH by (simpl in Hn; lia). reflexivity.
Qed.

Lemma rmatch_star_char (p : ascii -> bool) (k : cont) before ahead caps :
  rmatch (RStar (RChar p)) (before, ahead) caps k
  = star_spec p k before ahead caps.
Proof. simpl. apply star_loop_char. lia. Qed.

(** When the rest of the pattern accepts the end of the longest run, the
    star takes the longest run. *)
Lemma star_spec_greedy (p : ascii -> bool) (k : cont) :
  forall ahead before caps m,
    k (rev (takeWhile p ahead) ++ before, dropWhile p ahead) caps = Some m ->
    star_spec p k before ahead caps = Some m.
Proof.
  induction ahead as [|c ahead IH]; intros before caps m H; simpl in *.
  - exact H.
  - destruct (p c); [|exact H].
    simpl in H. rewrite <- app_assoc in H. simpl in H.
    rewrite (IH _ _ _ H). reflexivity.
Qed.

(** A literal text, case sensitive. *)
Lemma eqb_comm (a b : ascii) : Ascii.eqb a b = Ascii.eqb b a.
Proof.
  destruct (Ascii.eqb a b) eqn:E.
  - apply Ascii.eqb_eq in E. subst. symmetry. apply Ascii.eqb_refl.
  - symmetry. apply Ascii.eqb_neq. apply Ascii.eqb_neq in E. congruence.
Qed.

Lemma rmatch_lit_list (w : str) (k : cont) :
  forall before ahead caps,
    rmatch (fold_right (fun a r => RSeq (chr false a) r) REps w)
      (before, ahead) caps k
    = if startswith ahead w
      then k (rev w ++ before, skipn (length w) ahead) caps
      else None.
Proof.
  induction w as [|a w IH]; intros before ahead caps; simpl.
  - reflexivity.
  - destruct ahead as [|c ahead]; [reflexivity|]. simpl.
    rewrite (eqb_comm a c). destruct (Ascii.eqb c a) eqn:E; [|reflexivity].
    apply Ascii.eqb_eq in E. subst c. simpl.
    rewrite IH. rewrite <- app_assoc. reflexivity.
Qed.

Lemma rmatch_lit (w : string) (k : cont) before ahead caps :
  rmatch (lit false w) (before, ahead) caps k
  = if startswith ahead (L w)
    then k (rev (L w) ++ before, skipn (length (L w)) ahead) caps
    else None.
Proof. apply rmatch_lit_list. Qed.

Lemma startswith_app (s w : str) :
  startswith s w = true -> s = w ++ skipn (length w) s.
Proof.
  revert s. induction w as [|a w IH]; intros s H; simpl in *.
  - reflexivity.
  - destruct s as [|c s]; [discriminate|].
    apply andb_prop in H. destruct H as [H1 H2].
    apply Ascii.eqb_eq in H1. subst. simpl. f_equal. apply IH, H2.
Qed.

Lemma startswith_app_true (w t : str) : startswith (w ++ t) w = true.
Proof.
  induction w as [|a w IH]; simpl; auto.
  rewrite Ascii.eqb_refl. exact IH.
Qed.

Lemma eqb_str_eq (a b : str) : eqb_str a b = true <-> a = b.
Proof.
  unfold eqb_str. destruct (list_eq_dec ascii_dec a b); split; congruence.
Qed.

Lemma eqb_str_refl (a : str) : eqb_str a a = true.
Proof. apply eqb_str_eq. reflexivity. Qed.

Lemma takeWhile_app_stop {A} (p : A -> bool) (w t : list A) :
  forallb p w = true ->
  match t with x :: _ => p x = false | [] => True end ->
  takeWhile p (w ++ t) = w /\ dropWhile p (w ++ t) = t.
Proof.
  intros Hw Ht. induction w as [|a w IH]; simpl in *.
  - destruct t as [|x t]; simpl; auto. rewrite Ht. auto.
  - apply andb_prop in Hw. destruct Hw as [-> Hw].
    destruct (IH Hw) as [-> ->]. auto.
Qed.

(** ** Patterns that match whole words

    The patterns [\bWORD\b] and [\bX\d+\b] match at a position exactly when
    a run of word characters starts there and the whole run is one of the
    words looked for. *)

Lemma boundary_after_word (w before rest : str) (a : ascii) :
  is_word (last w a) = true -> w <> [] ->
  at_word_boundary (rev w ++ before, rest)
  = match rest with c :: _ => negb (is_word c) | [] => true end.
Proof.
  intros Hl Hw. unfold at_word_boundary. simpl.
  destruct w as [|x w] using rev_ind; [congruence|].
  rewrite rev_app_distr. simpl. rewrite last_last in Hl. rewrite Hl.
  destruct rest; reflexivity.
Qed.

Lemma forallb_last (p : ascii -> bool) (w : str) (a : ascii) :
  forallb p w = true -> w <> [] -> p (last w a) = true.
Proof.
  intros H Hw. destruct w as [|x w] using rev_ind; [congruence|].
  rewrite last_last. rewrite forallb_app in H.
  apply andb_prop in H. destruct H as [_ H]. simpl in H.
  apply andb_prop in H. tauto.
Qed.

Lemma takeWhile_eq_split (w ahead : str) :
  w <> [] -> forallb is_word w = true ->
  (eqb_str (takeWhile is_word ahead) w
   = startswith ahead w
     && match skipn (length w) ahead with
        | c :: _ => negb (is_word c)
        | [] => true
        end).
Proof.
  intros Hne Hw.
  destruct (startswith ahead w) eqn:Es.
  - apply startswith_app in Es. simpl.
    destruct (skipn (length w) ahead) as [|c u] eqn:Et.
    + rewrite app_nil_r in Es. subst ahead.
      destruct (takeWhile_app_stop is_word w [] Hw I) as [H _].
      rewrite app_nil_r in H. rewrite H. apply eqb_str_refl.
    + destruct (is_word c) eqn:Ec; simpl.
      * apply not_true_iff_false. intros H. apply eqb_str_eq in H.
        pose proof (takeWhile_dropWhile is_word ahead) as Htd.
        pose proof (dropWhile_hd is_word ahead) as Hd.
        rewrite H in Htd. rewrite Es in Htd at 2.
        apply app_inv_head in Htd.
        rewrite Htd in Hd. congruence.
      * rewrite Es.
        destruct (takeWhile_app_stop is_word w (c :: u) Hw Ec) as [H _].
        rewrite H. apply eqb_str_refl.
  - simpl. apply not_true_iff_false. intros H. apply eqb_str_eq in H.
    pose proof (takeWhile_dropWhile is_word ahead) as Htd.
    rewrite H in Htd. rewrite <- Htd in Es.
    rewrite startswith_app_true in Es. discriminate.
Qed.

Lemma wstat_boundary (before ahead w : str) :
  w <> [] -> forallb is_word w = true -> startswith ahead w = true ->
  at_word_boundary (before, ahead) = negb (wstat before).
Proof.
  intros Hne Hw Hs. unfold at_word_boundary, wstat. simpl.
  destruct w as [|a w]; [congruence|].
  destruct ahead as [|c ahead]; [discriminate|]. simpl in *.
  apply andb_prop in Hs. destruct Hs as [Hs _].
  apply Ascii.eqb_eq in Hs. subst c.
  apply andb_prop in Hw. destruct Hw as [-> _].
  destruct before; simpl; [reflexivity|]. destruct (is_word a0); reflexivity.
Qed.

Lemma word_re_whole_word (w : string) :
  L w <> [] -> forallb is_word (L w) = true ->
  whole_word (SmartMatch.word_re w) (fun t => eqb_str t (L w)).
Proof.
  intros Hne Hw before ahead.
  unfold match_at, SmartMatch.word_re.
  rewrite (takeWhile_eq_split _ _ Hne Hw).
  cbn [rmatch]. rewrite rmatch_lit.
  destruct (startswith ahead (L w)) eqn:Es.
  - rewrite (wstat_boundary before ahead (L w) Hne Hw Es).
    destruct (wstat before); simpl; [reflexivity|].
    cbn [rmatch].
    rewrite (boundary_after_word (L w) before _ space
               (forallb_last _ _ _ Hw Hne) Hne).
    pose proof (startswith_app _ _ Es) as Happ.
    set (t := skipn (length (L w)) ahead) in *.
    assert (Ht : match t with c :: _ => negb (is_word c) | [] => true end = true
                 -> takeWhile is_word ahead = L w /\ dropWhile is_word ahead = t).
    { intros H. rewrite Happ. apply takeWhile_app_stop; [exact Hw|].
      destruct t; auto. apply negb_true_iff in H. exact H. }
    destruct (match t with c :: _ => negb (is_word c) | [] => true end) eqn:Eb.
    + destruct (Ht eq_refl) as [-> ->]. reflexivity.
    + reflexivity.
  - simpl. destruct (at_word_boundary (before, ahead));
      destruct (wstat before); reflexivity.
Qed.

(** ** [re.sub] in general *)

Lemma sub_from_skip (r : regex) (repl : str) :
  forall xs before ahead,
    sub_from r repl (length xs) before (xs ++ ahead)
    = sub_from r repl 0 (rev xs ++ before) ahead.
Proof.
  induction xs as [|x xs IH]; intros before ahead; simpl.
  - reflexivity.
  - rewrite IH. rewrite <- app_assoc. reflexivity.
Qed.

Lemma sub_from_Forall (P : ascii -> Prop) (r : regex) (repl : str) :
  Forall P repl ->
  forall ahead skip before,
    Forall P ahead -> Forall P (sub_from r repl skip before ahead).
Proof.
  intros Hr. induction ahead as [|c ahead IH]; intros skip before Ha.
  - destruct skip; simpl; auto.
    destruct (match_at r (before, [])) as [[z' caps]|]; auto.
    rewrite app_nil_r. exact Hr.
  - inversion Ha as [|? ? Hc Ha']; subst.
    destruct skip; simpl; auto.
    destruct (match_at r (before, c :: ahead)) as [[z' caps]|].
    + apply Forall_app. split; [exact Hr|].
      destruct (length (consumed (before, c :: ahead) z')); auto.
    + auto.
Qed.

Lemma re_sub_Forall (P : ascii -> Prop) (r : regex) (repl text : str) :
  Forall P repl -> Forall P text -> Forall P (re_sub r repl text).
Proof. intros. apply sub_from_Forall; assumption. Qed.

Lemma sub_from_length (r : regex) :
  forall ahead skip before,
    length (sub_from r [] skip before ahead) <= length ahead.
Proof.
  induction ahead as [|c ahead IH]; intros skip before.
  - destruct skip; simpl; auto.
    destruct (match_at r (before, [])) as [[z' caps]|]; simpl; auto.
  - destruct skip; simpl.
    + destruct (match_at r (before, c :: ahead)) as [[z' caps]|]; simpl.
      * destruct (length (consumed (before, c :: ahead) z')); simpl.
        -- apply le_n_S, IH.
        -- apply Nat.le_le_succ_r, IH.
      * apply le_n_S, IH.
    + apply Nat.le_le_succ_r, IH.
Qed.

(** Without a match nothing is replaced. *)
Lemma sub_from_no_match (r : regex) (repl : str) :
  forall ahead before,
    search_from r before ahead = None ->
    sub_from r repl 0 before ahead = ahead.
Proof.
  induction ahead as [|c ahead IH]; intros before H; simpl in *.
  - destruct (match_at r (before, [])) as [[z' caps]|]; [discriminate|].
    reflexivity.
  - destruct (match_at r (before, c :: ahead)) as [[z' caps]|];
      [discriminate|].
    f_equal. apply IH, H.
Qed.

Lemma re_sub_no_match (r : regex) (repl text : str) :
  search r text = None -> re_sub r repl text = text.
Proof. apply sub_from_no_match. Qed.

(** ** [str.replace] *)

Lemma replace_from_Forall (P : ascii -> Prop) (old new : str) :
  Forall P new ->
  forall s skip, Forall P s -> Forall P (replace_from old new skip s).
Proof.
  intros Hn. induction s as [|c s IH]; intros skip Hs.
  - destruct skip; simpl; auto.
  - inversion Hs; subst. destruct skip; simpl; auto.
    destruct (startswith (c :: s) old); auto.
    apply Forall_app. split; auto.
Qed.

Lemma replace_Forall (P : ascii -> Prop) (s old new : str) :
  Forall P new -> Forall P s -> Forall P (replace s old new).
Proof.
  intros Hn Hs. unfold replace. destruct old as [|a old].
  - apply Forall_app. split; [exact Hn|].
    induction Hs; simpl; auto. constructor; auto. apply Forall_app. auto.
  - apply replace_from_Forall; assumption.
Qed.

(** ** Single character classes and white-space runs *)

Lemma consumed_length (before ahead xs ys : list ascii) (b' : list ascii) :
  ahead = xs ++ ys -> length (consumed (before, ahead) (b', ys)) = length xs.
Proof.
  intros ->. unfold consumed. simpl. rewrite length_app.
  replace (length xs + length ys - length ys) with (length xs) by lia.
  rewrite firstn_app. replace (length xs - length xs) with 0 by lia.
  rewrite firstn_all. simpl. rewrite app_nil_r. reflexivity.
Qed.

Lemma sub_from_class (p : ascii -> bool) :
  forall ahead before,
    sub_from (RChar p) [] 0 before ahead = filter (fun c => negb (p c)) ahead.
Proof.
  induction ahead as [|c ahead IH]; intros before.
  - reflexivity.
  - cbn [sub_from filter]. unfold match_at. cbn [rmatch snd fst].
    destruct (p c); cbn [negb app].
    + rewrite (consumed_length before (c :: ahead) [c] ahead) by reflexivity.
      simpl length. apply IH.
    + f_equal. apply IH.
Qed.

Lemma re_sub_class (p : ascii -> bool) (text : str) :
  re_sub (RChar p) [] text = filter (fun c => negb (p c)) text.
Proof. apply sub_from_class. Qed.

Lemma match_at_plus (p : ascii -> bool) (before ahead : list ascii) :
  match_at (RPlus (RChar p)) (before, ahead)
  = match ahead with
    | c :: ahead' =>
        if p c
        then Some ((rev (takeWhile p ahead') ++ c :: before,
                    dropWhile p ahead'), [])
        else None
    | [] => None
    end.
Proof.
  unfold match_at, RPlus. rewrite rmatch_seq, rmatch_char.
  destruct ahead as [|c ahead]; [reflexivity|].
  destruct (p c); [|reflexivity].
  rewrite rmatch_star_char. apply star_spec_greedy. reflexivity.
Qed.

Lemma sub_from_spaces :
  forall ahead before,
    sub_from DrugParser.spaces1 [space] 0 before ahead = collapse false ahead
    /\ sub_from DrugParser.spaces1 [space]
         (length (takeWhile is_space ahead)) before ahead
       = collapse true ahead.
Proof.
  unfold DrugParser.spaces1.
  induction ahead as [|c ahead IH]; intros before.
  - split; reflexivity.
  - assert (H0 : sub_from (RPlus (RChar is_space)) [space] 0 before
                   (c :: ahead) = collapse false (c :: ahead)).
    { cbn [sub_from]. rewrite match_at_plus. simpl collapse.
      destruct (is_space c) eqn:E.
      - rewrite (consumed_length before (c :: ahead)
                   (c :: takeWhile is_space ahead) (dropWhile is_space ahead)).
        + simpl. f_equal. apply IH.
        + simpl. f_equal. symmetry. apply takeWhile_dropWhile.
      - f_equal. apply IH. }
    split; [exact H0|].
    simpl takeWhile. destruct (is_space c) eqn:E.
    + simpl. rewrite E. apply IH.
    + simpl length. rewrite H0. simpl. rewrite E. reflexivity.
Qed.

Lemma re_sub_spaces (text : str) :
  re_sub DrugParser.spaces1 [space] text = collapse false text.
Proof. apply sub_from_spaces. Qed.

(** What [collapse] gives. *)
Lemma collapse_single_spaced (s : str) :
  forall in_run,
    single_spaced (collapse in_run s) = true
    /\ (in_run = true ->
        match collapse in_run s with
        | c :: _ => is_space c = false
        | [] => True
        end).
Proof.
  induction s as [|c s IH]; intros in_run; simpl.
  - auto.
  - destruct (is_space c) eqn:E.
    + destruct in_run.
      * apply IH.
      * destruct (IH true) as [H1 H2]. split; [|discriminate].
        specialize (H2 eq_refl). simpl.
        destruct (collapse true s) as [|d u]; auto.
        rewrite H2. simpl. exact H1.
    + destruct (IH false) as [H1 _]. split; [|intros _; exact E].
      simpl. destruct (collapse false s) as [|d u]; auto.
      rewrite E. exact H1.
Qed.

Lemma collapse_Forall (P : ascii -> Prop) (s : str) :
  P space -> Forall (fun c => is_space c = false -> P c) s ->
  forall in_run, Forall P (collapse in_run s).
Proof.
  intros Hsp Hs. induction Hs as [|c s Hc Hs IH]; intros in_run; simpl; auto.
  destruct (is_space c) eqn:E.
  - destruct in_run; auto.
  - constructor; auto.
Qed.

Lemma collapse_fixed (s : str) :
  Forall (fun c => is_space c = true -> c = space) s ->
  single_spaced s = true ->
  collapse false s = s
  /\ (match s with c :: _ => is_space c = false | [] => True end ->
      collapse true s = s).
Proof.
  induction 1 as [|c s Hc Hs IH]; intros Hss.
  - auto.
  - assert (Hss' : single_spaced s = true).
    { simpl in Hss. destruct s; auto. apply andb_prop in Hss. tauto. }
    destruct (IH Hss') as [IH1 IH2]. simpl.
    destruct (is_space c) eqn:E.
    + split; [|discriminate]. rewrite <- (Hc eq_refl). f_equal. apply IH2.
      simpl in Hss. destruct s as [|d u]; auto.
      rewrite E in Hss. simpl in Hss. apply andb_prop in Hss.
      destruct Hss as [Hd _]. apply negb_true_iff in Hd. exact Hd.
    + split; intros; f_equal; exact IH1.
Qed.

Lemma single_spaced_tail (c : ascii) (s : str) :
  single_spaced (c :: s) = true -> single_spaced s = true.
Proof.
  simpl. destruct s; auto. intros H. apply andb_prop in H. tauto.
Qed.

Lemma single_spaced_lstrip (s : str) :
  single_spaced s = true -> single_spaced (lstrip s) = true.
Proof.
  induction s as [|c s IH]; auto.
  intros H. cbn [lstrip]. destruct (is_space c); auto.
  apply IH. apply (single_spaced_tail c). exact H.
Qed.

Lemma single_spaced_app (s t : str) :
  single_spaced (s ++ t) = true -> single_spaced s = true.
Proof.
  induction s as [|a s IH]; simpl; auto.
  destruct s as [|b s]; simpl in *; auto.
  intros H. apply andb_prop in H. destruct H as [H1 H2].
  rewrite H1. simpl. apply IH. exact H2.
Qed.

Lemma rstrip_prefix (s : str) : exists q, s = rstrip s ++ q.
Proof.
  unfold rstrip. destruct (lstrip_suffix (rev s)) as [p [Hp _]].
  exists (rev p). rewrite <- rev_app_distr, <- Hp, rev_involutive.
  reflexivity.
Qed.

Lemma single_spaced_strip (s : str) :
  single_spaced s = true -> single_spaced (strip s) = true.
Proof.
  intros H. unfold strip.
  apply single_spaced_lstrip in H.
  destruct (rstrip_prefix (lstrip s)) as [q Hq].
  rewrite Hq in H. apply single_spaced_app in H. exact H.
Qed.

Lemma upper_fixed (s : str) :
  Forall (fun c => upper_char c = c) s -> upper s = s.
Proof.
  induction 1 as [|c s Hc Hs IH]; simpl; auto. rewrite Hc. f_equal. exact IH.
Qed.

Lemma filter_all {A} (p : A -> bool) (l : list A) :
  Forall (fun x => p x = true) l -> filter p l = l.
Proof.
  induction 1 as [|x l Hx Hl IH]; simpl; auto. rewrite Hx. f_equal. exact IH.
Qed.

(** ** Deleting whole words *)

Section WholeWord.

Variable r : regex.
Variable is_tok : str -> bool.
Hypothesis Hr : whole_word r is_tok.
Hypothesis Hnil : is_tok [] = false.

Lemma keep_nil : keep is_tok [] = [].
Proof. unfold keep. destruct (is_tok []); reflexivity. Qed.

Lemma tok_starts_with_word (c : ascii) (s : str) :
  is_tok (takeWhile is_word (c :: s)) = true -> is_word c = true.
Proof.
  simpl. destruct (is_word c); auto. rewrite Hnil. discriminate.
Qed.

(** [re.sub] with the empty replacement, in its three states: at a
    position not preceded by a word character; inside a word that stays;
    inside a word that goes. *)
Lemma sub_from_remove :
  forall s,
    (forall before,
        wstat before = false ->
        sub_from r [] 0 before s = remove_acc is_tok [] s)
    /\ (forall before cur,
           wstat before = true ->
           is_tok (rev cur ++ takeWhile is_word s) = false ->
           rev cur ++ sub_from r [] 0 before s = remove_acc is_tok cur s)
    /\ (forall before cur,
           wstat before = true ->
           is_tok (rev cur ++ takeWhile is_word s) = true ->
           sub_from r [] (length (takeWhile is_word s)) before s
           = remove_acc is_tok cur s).
Proof.
  induction s as [|c s (IH1 & IH2 & IH3)].
  - repeat split; intros before; intros.
    + simpl. rewrite Hr, H. simpl. rewrite Hnil. symmetry. apply keep_nil.
    + simpl. rewrite Hr, H. simpl in H0. rewrite app_nil_r in *.
      unfold keep. rewrite H0. reflexivity.
    + simpl. rewrite Hr, H. simpl in H0. rewrite app_nil_r in *.
      unfold keep. rewrite H0. reflexivity.
  - assert (Hstay : forall before,
               wstat before = true \/
               is_tok (takeWhile is_word (c :: s)) = false ->
               sub_from r [] 0 before (c :: s)
               = c :: sub_from r [] 0 (c :: before) s).
    { intros before H. cbn [sub_from]. rewrite Hr.
      destruct (wstat before); [reflexivity|].
      destruct H as [H|H]; [discriminate|]. rewrite H. reflexivity. }
    repeat split; intros before; intros.
    + destruct (is_tok (takeWhile is_word (c :: s))) eqn:Et.
      * pose proof (tok_starts_with_word _ _ Et) as Hc.
        cbn [sub_from]. rewrite Hr, H, Et.
        rewrite (consumed_length before (c :: s)
                   (takeWhile is_word (c :: s)) (dropWhile is_word (c :: s)))
          by (symmetry; apply takeWhile_dropWhile).
        simpl in Et |- *. rewrite Hc in Et |- *. simpl.
        apply IH3; [simpl; exact Hc | exact Et].
      * rewrite Hstay by (right; reflexivity).
        simpl. simpl in Et. destruct (is_word c) eqn:Hc.
        -- apply (IH2 (c :: before) [c]); [simpl; exact Hc | exact Et].
        -- rewrite keep_nil. simpl. f_equal.
           apply IH1. simpl. exact Hc.
    + rewrite Hstay by (left; exact H).
      simpl. simpl in H0. destruct (is_word c) eqn:Hc.
      * rewrite <- (IH2 (c :: before) (c :: cur)).
        -- simpl. rewrite <- app_assoc. reflexivity.
        -- simpl. exact Hc.
        -- simpl. rewrite <- app_assoc. exact H0.
      * rewrite app_nil_r in H0. unfold keep. rewrite H0.
        f_equal. f_equal. apply IH1. simpl. exact Hc.
    + simpl. simpl in H0. destruct (is_word c) eqn:Hc.
      * simpl. apply IH3; [simpl; exact Hc|].
        simpl. rewrite <- app_assoc. exact H0.
      * simpl. rewrite Hr, H. rewrite app_nil_r in H0.
        unfold keep. rewrite H0. simpl. f_equal.
        apply IH1. simpl. exact Hc.
Qed.

Lemma re_sub_remove (text : str) :
  re_sub r [] text = remove_acc is_tok [] text.
Proof. apply sub_from_remove. reflexivity. Qed.

End WholeWord.

(** ** Word runs *)

Lemma emit_filter (p : str -> bool) (cur : str) :
  filter p (emit cur) = if p (rev cur) then emit cur else [].
Proof.
  destruct cur as [|c cur]; simpl.
  - destruct (p []); reflexivity.
  - destruct (p (rev cur ++ [c])); reflexivity.
Qed.

(** A text in which no run is selected stays as it is. *)
Lemma remove_acc_fixed (is_tok : str -> bool) :
  is_tok [] = false ->
  forall s cur,
    Forall (fun w => is_tok w = false) (word_runs_acc cur s) ->
    remove_acc is_tok cur s = rev cur ++ s.
Proof.
  intros Hnil.
  assert (Hk : forall cur, Forall (fun w => is_tok w = false) (emit cur) ->
                           keep is_tok (rev cur) = rev cur).
  { intros cur H. unfold keep. destruct cur as [|a cur]; simpl in *.
    - rewrite Hnil. reflexivity.
    - inversion H; subst. rewrite H2. reflexivity. }
  induction s as [|c s IH]; intros cur H; simpl in *.
  - rewrite app_nil_r. apply Hk, H.
  - destruct (is_word c).
    + rewrite IH by exact H. simpl. rewrite <- app_assoc. reflexivity.
    + apply Forall_app in H. destruct H as [H1 H2].
      rewrite (Hk _ H1). f_equal. f_equal. apply (IH [] H2).
Qed.

(** The runs of a text after the selected runs are deleted. *)
Lemma word_runs_acc_app_nonword (w : str) (c : ascii) (s : str) :
  forallb is_word w = true -> is_word c = false ->
  forall cur,
    word_runs_acc cur (w ++ c :: s) = emit (rev w ++ cur) ++ word_runs s.
Proof.
  intros Hw Hc. induction w as [|a w IH]; intros cur; simpl in *.
  - rewrite Hc. reflexivity.
  - apply andb_prop in Hw. destruct Hw as [Ha Hw]. rewrite Ha.
    rewrite (IH Hw). rewrite <- app_assoc. reflexivity.
Qed.

Lemma word_runs_acc_all_word (w : str) :
  forallb is_word w = true ->
  forall cur, word_runs_acc cur w = emit (rev w ++ cur).
Proof.
  induction w as [|a w IH]; intros Hw cur; simpl in *.
  - reflexivity.
  - apply andb_prop in Hw. destruct Hw as [Ha Hw]. rewrite Ha.
    rewrite (IH Hw). rewrite <- app_assoc. reflexivity.
Qed.

Lemma word_runs_remove (is_tok : str -> bool) :
  is_tok [] = false ->
  forall s cur,
    forallb is_word cur = true ->
    word_runs (remove_acc is_tok cur s)
    = filter (fun w => negb (is_tok w)) (word_runs_acc cur s).
Proof.
  intros Hnil.
  assert (Hrev : forall cur, forallb is_word cur = true ->
                             forallb is_word (rev cur) = true).
  { intros cur H. apply forallb_forall. intros x Hx.
    apply in_rev in Hx. revert x Hx. apply forallb_forall. exact H. }
  induction s as [|c s IH]; intros cur Hcur; simpl.
  - rewrite emit_filter. unfold keep.
    destruct (is_tok (rev cur)) eqn:E; simpl; [reflexivity|].
    unfold word_runs. rewrite word_runs_acc_all_word by (apply Hrev, Hcur).
    rewrite app_nil_r, rev_involutive. reflexivity.
  - destruct (is_word c) eqn:Hc.
    + apply IH. simpl. rewrite Hc. exact Hcur.
    + rewrite filter_app, emit_filter, <- (IH [] eq_refl).
      unfold keep. destruct (is_tok (rev cur)) eqn:E; simpl.
      * unfold word_runs at 1. simpl. rewrite Hc. reflexivity.
      * unfold word_runs at 1.
        rewrite word_runs_acc_app_nonword by (auto using Hrev).
        rewrite app_nil_r, rev_involutive. reflexivity.
Qed.

(** White space at either end, and the length of white-space runs, do not
    change the runs of word characters. *)
Lemma word_runs_acc_spaces (q : str) :
  forallb is_space q = true -> forall cur, word_runs_acc cur q = emit cur.
Proof.
  induction q as [|c q IH]; intros Hq cur; simpl in *.
  - reflexivity.
  - apply andb_prop in Hq. destruct Hq as [Hc Hq].
    rewrite (space_not_word _ Hc). rewrite (IH Hq). simpl.
    apply app_nil_r.
Qed.

Lemma word_runs_acc_app_spaces (s q : str) :
  forallb is_space q = true ->
  forall cur, word_runs_acc cur (s ++ q) = word_runs_acc cur s.
Proof.
  intros Hq. induction s as [|c s IH]; intros cur; simpl.
  - apply word_runs_acc_spaces, Hq.
  - rewrite !IH. reflexivity.
Qed.

Lemma word_runs_lstrip (s : str) : word_runs (lstrip s) = word_runs s.
Proof.
  unfold word_runs. induction s as [|c s IH]; simpl; auto.
  destruct (is_space c) eqn:E; [|reflexivity].
  rewrite (space_not_word _ E). exact IH.
Qed.

Lemma rstrip_prefix_spaces (s : str) :
  exists q, s = rstrip s ++ q /\ forallb is_space q = true.
Proof.
  unfold rstrip. destruct (lstrip_suffix (rev s)) as [p [Hp Hs]].
  exists (rev p). split.
  - rewrite <- rev_app_distr, <- Hp, rev_involutive. reflexivity.
  - apply forallb_forall. intros x Hx. apply in_rev in Hx.
    revert x Hx. apply forallb_forall. exact Hs.
Qed.

Lemma word_runs_strip (s : str) : word_runs (strip s) = word_runs s.
Proof.
  unfold strip. rewrite <- (word_runs_lstrip s).
  destruct (rstrip_prefix_spaces (lstrip s)) as [q [Hq Hs]].
  rewrite Hq at 2. unfold word_runs.
  rewrite word_runs_acc_app_spaces by exact Hs. reflexivity.
Qed.

Lemma word_runs_acc_collapse (s : str) :
  (forall cur, word_runs_acc cur (collapse false s) = word_runs_acc cur s)
  /\ word_runs_acc [] (collapse true s) = word_runs_acc [] s.
Proof.
  induction s as [|c s [IH1 IH2]]; simpl.
  - auto.
  - destruct (is_space c) eqn:E.
    + rewrite (space_not_word _ E). simpl. rewrite IH2. split; auto.
    + simpl. split; [intros cur|]; destruct (is_word c); rewrite ?IH1;
        reflexivity.
Qed.

Lemma word_runs_collapse (s : str) :
  word_runs (collapse false s) = word_runs s.
Proof. apply word_runs_acc_collapse. Qed.

(** ** The residue pattern [\bX\d+\b] *)

(** After a word character, [\d*\b] takes all the digits there are, and
    matches when no word character follows them. *)
Lemma star_spec_digits_boundary (k : cont) :
  forall ahead before caps,
    wstat before = true ->
    star_spec is_digit (fun z caps' => rmatch RWordB z caps' k)
      before ahead caps
    = match dropWhile is_digit ahead with
      | c :: _ =>
          if is_word c then None
          else k (rev (takeWhile is_digit ahead) ++ before,
                  dropWhile is_digit ahead) caps
      | [] => k (rev (takeWhile is_digit ahead) ++ before, []) caps
      end.
Proof.
  induction ahead as [|c ahead IH]; intros before caps Hb.
  - simpl. unfold at_word_boundary. simpl.
    unfold wstat in Hb. destruct before; [discriminate|]. rewrite Hb.
    reflexivity.
  - cbn [star_spec takeWhile dropWhile]. destruct (is_digit c) eqn:Ed.
    + rewrite IH by (simpl; apply digit_is_word, Ed).
      assert (Hfail : rmatch RWordB (before, c :: ahead) caps k = None).
      { simpl. unfold at_word_boundary. simpl.
        unfold wstat in Hb. destruct before; [discriminate|].
        rewrite Hb, (digit_is_word _ Ed). reflexivity. }
      rewrite Hfail. simpl. rewrite <- !app_assoc. simpl.
      destruct (dropWhile is_digit ahead) as [|d u].
      * destruct (k _ caps); reflexivity.
      * destruct (is_word d); [reflexivity|]. destruct (k _ caps); reflexivity.
    + simpl. unfold at_word_boundary. simpl.
      unfold wstat in Hb. destruct before; [discriminate|]. rewrite Hb.
      destruct (is_word c); reflexivity.
Qed.

Lemma takeWhile_word_digits (ds rest : str) :
  forallb is_digit ds = true ->
  takeWhile is_word (ds ++ rest) = ds ++ takeWhile is_word rest
  /\ dropWhile is_word (ds ++ rest) = dropWhile is_word rest.
Proof.
  induction ds as [|d ds IH]; intros H; simpl in *.
  - auto.
  - apply andb_prop in H. destruct H as [Hd H].
    rewrite (digit_is_word _ Hd). destruct (IH H) as [-> ->]. auto.
Qed.

Lemma forallb_digit_app (ds w : str) :
  forallb is_digit ds = true ->
  forallb is_digit (ds ++ w)
  = match w with c :: _ => is_digit c && forallb is_digit w | [] => true end.
Proof.
  intros H. rewrite forallb_app, H. simpl.
  destruct w as [|c w]; simpl; [reflexivity|].
  destruct (is_digit c); reflexivity.
Qed.

Lemma x_is_word : is_word "X"%char = true.
Proof. reflexivity. Qed.

Theorem x_residue_whole_word :
  whole_word DrugParser.REGEX_X_RESIDUE is_x_residue.
Proof.
  intros before ahead. unfold match_at, DrugParser.REGEX_X_RESIDUE.
  rewrite rmatch_seq, rmatch_wordb, rmatch_seq, rmatch_lit.
  change (L "X") with ["X"%char].
  destruct ahead as [|c ahead].
  - simpl. destruct (at_word_boundary (before, []));
      destruct (wstat before); reflexivity.
  - cbn [startswith]. rewrite andb_true_r.
    destruct (Ascii.eqb "X"%char c) eqn:Ex.
    + apply Ascii.eqb_eq in Ex. subst c.
      assert (Hb : at_word_boundary (before, "X"%char :: ahead)
                   = negb (wstat before)).
      { unfold at_word_boundary, wstat. simpl.
        destruct before as [|b bs]; [reflexivity|].
        destruct (is_word b); reflexivity. }
      rewrite Hb. destruct (wstat before); [reflexivity|].
      cbn [negb length skipn rev app].
      unfold DrugParser.digits, RPlus.
      rewrite !rmatch_seq, rmatch_char.
      cbn [takeWhile dropWhile]. rewrite x_is_word.
      destruct ahead as [|d ahead]; [reflexivity|].
      cbn [takeWhile dropWhile].
      destruct (is_digit d) eqn:Ed.
      * rewrite (digit_is_word _ Ed).
        rewrite rmatch_star_char.
        rewrite star_spec_digits_boundary by (simpl; apply digit_is_word, Ed).
        pose proof (takeWhile_dropWhile is_digit ahead) as Hsplit.
        pose proof (takeWhile_all is_digit ahead) as Hds.
        pose proof (dropWhile_hd is_digit ahead) as Hhd.
        destruct (takeWhile_word_digits (takeWhile is_digit ahead)
                    (dropWhile is_digit ahead) Hds) as [Htw Hdw].
        rewrite Hsplit in Htw, Hdw. rewrite Htw, Hdw.
        set (ds := takeWhile is_digit ahead) in *.
        destruct (dropWhile is_digit ahead) as [|e u] eqn:Er.
        -- simpl. rewrite !app_nil_r. rewrite Ed, Hds. simpl.
           rewrite <- !app_assoc. reflexivity.
        -- cbn [takeWhile dropWhile].
           destruct (is_word e) eqn:Ee.
           ++ cbn [is_x_residue].
              replace (Ascii.eqb "X" "X") with true by reflexivity.
              cbn [andb forallb]. rewrite Ed.
              rewrite forallb_digit_app by exact Hds.
              rewrite Hhd. reflexivity.
           ++ cbn [is_x_residue].
              replace (Ascii.eqb "X" "X") with true by reflexivity.
              cbn [andb forallb]. rewrite Ed.
              rewrite app_nil_r, Hds. cbn [andb].
              cbn [rev]. rewrite <- !app_assoc. reflexivity.
      * destruct (is_word d); simpl; rewrite ?Ed; reflexivity.
    + destruct (at_word_boundary (before, c :: ahead));
        destruct (wstat before); try reflexivity;
        cbn [takeWhile]; destruct (is_word c); try reflexivity;
        cbn [is_x_residue]; destruct (takeWhile is_word ahead);
        rewrite ?(eqb_comm c "X"), ?Ex; reflexivity.
Qed.

(** ** Lengths *)

(** No step of the clean-up makes a text longer. *)
Lemma lstrip_length (s : str) : length (lstrip s) <= length s.
Proof.
  induction s as [|c s IH]; simpl; auto. destruct (is_space c); simpl; lia.
Qed.

Lemma strip_length (s : str) : length (strip s) <= length s.
Proof.
  unfold strip, rstrip. rewrite length_rev.
  etransitivity; [apply lstrip_length|]. rewrite length_rev.
  apply lstrip_length.
Qed.

Lemma collapse_length (s : str) :
  forall in_run, length (collapse in_run s) <= length s.
Proof.
  induction s as [|c s IH]; intros in_run; simpl; auto.
  destruct (is_space c); [destruct in_run|]; simpl;
    try apply le_n_S; try apply Nat.le_le_succ_r; apply IH.
Qed.

Lemma upper_length (s : str) : length (upper s) = length s.
Proof. apply length_map. Qed.

Lemma re_sub_length (r : regex) (text : str) :
  length (re_sub r [] text) <= length text.
Proof. apply sub_from_length. Qed.

Lemma filter_length_le {A} (p : A -> bool) (l : list A) :
  length (filter p l) <= length l.
Proof.
  induction l as [|x l IH]; simpl; auto. destruct (p x); simpl; lia.
Qed.

(** ** Patterns that cannot match the empty text *)

Lemma advances_weaken (b : bool) (z z1 : zipper) :
  advances true z z1 -> advances b z z1.
Proof. destruct b; simpl; auto. unfold advances. lia. Qed.

Lemma advances_trans (b1 b2 : bool) (z z1 z2 : zipper) :
  advances (negb b1) z z1 -> advances (negb b2) z1 z2 ->
  advances (negb (b1 && b2)) z z2.
Proof. destruct b1, b2; unfold advances; simpl; lia. Qed.

Lemma star_loop_progress
    (body : zipper -> captures -> cont -> option (zipper * captures)) :
  (forall z caps k res,
      body z caps k = Some res ->
      exists z1 caps1, k z1 caps1 = Some res /\ advances false z z1) ->
  forall (k : cont) n z caps res,
    star_loop body k n z caps = Some res ->
    exists z1 caps1, k z1 caps1 = Some res /\ advances false z z1.
Proof.
  intros Hbody k. induction n as [|n IH]; intros z caps res H; simpl in H.
  - exists z, caps. split; [exact H | unfold advances; simpl; lia].
  - destruct (body z caps _) as [m|] eqn:E.
    + injection H as <-. apply Hbody in E.
      destruct E as (z1 & caps1 & E & Hadv).
      destruct (length (snd z1) <? length (snd z)); [|discriminate].
      apply IH in E. destruct E as (z2 & caps2 & E & Hadv2).
      exists z2, caps2. split; [exact E|]. unfold advances in *. simpl in *.
      lia.
    + exists z, caps. split; [exact H | unfold advances; simpl; lia].
Qed.

(** Whatever [rmatch] returns, the rest [k] of the pattern returned it, at
    a position not before the start, and after it when the pattern is not
    nullable. *)
Lemma rmatch_progress (r : regex) :
  forall z caps (k : cont) res,
    rmatch r z caps k = Some res ->
    exists z1 caps1,
      k z1 caps1 = Some res /\ advances (negb (nullable r)) z z1.
Proof.
  induction r as [|p|r1 IH1 r2 IH2|r1 IH1 r2 IH2|r1 IH1| | | |n r1 IH1];
    intros z caps k res H; simpl in H.
  - exists z, caps. split; [exact H | simpl; unfold advances; simpl; lia].
  - destruct z as [before ahead]. simpl in H.
    destruct ahead as [|c rest]; [discriminate|].
    destruct (p c); [|discriminate].
    eexists _, _. split; [exact H|]. simpl. unfold advances. simpl. lia.
  - apply IH1 in H. destruct H as (z1 & caps1 & H & Ha1).
    apply IH2 in H. destruct H as (z2 & caps2 & H & Ha2).
    exists z2, caps2. split; [exact H|]. simpl nullable.
    apply (advances_trans _ _ _ z1); assumption.
  - simpl nullable.
    destruct (rmatch r1 z caps k) as [m|] eqn:E.
    + injection H as <-. apply IH1 in E.
      destruct E as (z1 & caps1 & E & Ha). exists z1, caps1.
      split; [exact E|].
      destruct (nullable r1); simpl in *; [exact Ha|].
      destruct (nullable r2); simpl; [|exact Ha].
      unfold advances in *. lia.
    + apply IH2 in H. destruct H as (z1 & caps1 & H & Ha). exists z1, caps1.
      split; [exact H|].
      destruct (nullable r2); simpl in *.
      * rewrite orb_true_r. exact Ha.
      * rewrite orb_false_r. destruct (nullable r1); simpl; [|exact Ha].
        unfold advances in *. lia.
  - simpl nullable. simpl negb. eapply star_loop_progress; [|exact H].
    intros z0 caps0 k0 res0 H0. apply IH1 in H0.
    destruct H0 as (z1 & caps1 & H0 & Ha). exists z1, caps1.
    split; [exact H0|]. destruct (nullable r1); simpl in Ha; [exact Ha|].
    unfold advances in *. lia.
  - destruct (fst z); [|discriminate].
    exists z, caps. split; [exact H | simpl; unfold advances; lia].
  - destruct (at_end z); [|discriminate].
    exists z, caps. split; [exact H | simpl; unfold advances; lia].
  - destruct (at_word_boundary z); [|discriminate].
    exists z, caps. split; [exact H | simpl; unfold advances; lia].
  - apply IH1 in H. destruct H as (z1 & caps1 & H & Ha).
    eexists _, _. split; [exact H | exact Ha].
Qed.

(** The text a search matched is not empty when the pattern is not
    nullable, and it is a part of the text searched. *)
Lemma search_from_group0 (r : regex) :
  nullable r = false ->
  forall ahead before m,
    search_from r before ahead = Some m ->
    m_group0 m <> [] /\ contains ahead (m_group0 m) = true.
Proof.
  intros Hn. induction ahead as [|c ahead IH]; intros before m H;
    simpl in H.
  - destruct (match_at r (before, [])) as [[z' caps]|] eqn:E;
      [|discriminate].
    apply rmatch_progress in E. destruct E as (z1 & caps1 & E & Ha).
    rewrite Hn in Ha. simpl in Ha. unfold advances in Ha. simpl in Ha. exfalso. lia.
  - destruct (match_at r (before, c :: ahead)) as [[z' caps]|] eqn:E.
    + injection H as <-. simpl.
      apply rmatch_progress in E. destruct E as (z1 & caps1 & E & Ha).
      injection E as <- <-. rewrite Hn in Ha. unfold advances in Ha.
      simpl in Ha.
      unfold consumed. simpl snd.
      destruct (length (c :: ahead) - length (snd z1)) as [|n] eqn:En;
        [exfalso; simpl length in En; lia|].
      split; [simpl; discriminate|].
      cbn [contains]. apply orb_true_iff. left.
      rewrite <- (firstn_skipn (S n) (c :: ahead)) at 1.
      apply startswith_app_true.
    + apply IH in H. destruct H as [H1 H2]. split; [exact H1|].
      cbn [contains]. rewrite H2. apply orb_true_r.
Qed.

(** ** [str.replace] and lengths *)

Lemma startswith_length (s old : str) :
  startswith s old = true -> length old <= length s.
Proof.
  intros H. apply startswith_app in H.
  apply (f_equal (@length ascii)) in H. rewrite length_app in H. lia.
Qed.

Lemma replace_from_length (old new : str) :
  length new <= length old -> old <> [] ->
  forall s skip,
    length (replace_from old new skip s) + Nat.min skip (length s)
    <= length s.
Proof.
  intros Hlen Hne. induction s as [|c s IH]; intros skip.
  - destruct skip; simpl; lia.
  - destruct skip; cbn [replace_from].
    + destruct (startswith (c :: s) old) eqn:E.
      * apply startswith_length in E. rewrite length_app.
        specialize (IH (length old - 1)).
        destruct old as [|a old]; [congruence|]. simpl in *. lia.
      * specialize (IH 0). simpl in *. lia.
    + specialize (IH skip). simpl in *. lia.
Qed.

Lemma replace_length (s old new : str) :
  length new <= length old -> old <> [] ->
  length (replace s old new) <= length s.
Proof.
  intros Hlen Hne. unfold replace. destruct old as [|a old]; [congruence|].
  pose proof (replace_from_length (a :: old) new Hlen Hne s 0). lia.
Qed.

Lemma replace_from_shorter (old : str) :
  old <> [] ->
  forall s,
    contains s old = true ->
    length (replace_from old [] 0 s) < length s.
Proof.
  intros Hne. induction s as [|c s IH]; intros H.
  - simpl in H. destruct old; [congruence | discriminate].
  - cbn [contains] in H. cbn [replace_from].
    destruct (startswith (c :: s) old) eqn:E.
    + pose proof (replace_from_length old [] (Nat.le_0_l _) Hne s
                    (length old - 1)).
      simpl. lia.
    + simpl in H. apply IH in H. simpl. lia.
Qed.

Lemma replace_shorter (s old : str) :
  old <> [] -> contains s old = true ->
  length (replace s old []) < length s.
Proof.
  intros Hne H. unfold replace. destruct old as [|a old]; [congruence|].
  apply replace_from_shorter; assumption.
Qed.

(** A run of two spaces makes [collapse] drop a character. *)
Lemma collapse_shorter (s : str) :
  contains s [space; space] = true ->
  forall in_run, length (collapse in_run s) < length s.
Proof.
  induction s as [|a s IH]; intros H in_run.
  - discriminate.
  - cbn [contains] in H. apply orb_true_iff in H. destruct H as [H|H].
    + destruct s as [|b s]; [cbn [startswith] in H;
                             rewrite andb_false_r in H; discriminate|].
      cbn [startswith] in H. apply andb_prop in H. destruct H as [Ha H].
      apply andb_prop in H. destruct H as [Hb _].
      apply Ascii.eqb_eq in Ha, Hb. subst a b. simpl collapse.
      pose proof (collapse_length s true).
      destruct in_run; simpl; lia.
    + specialize (IH H). simpl.
      destruct (is_space a); [destruct in_run|]; simpl.
      * specialize (IH true). lia.
      * specialize (IH true). lia.
      * specialize (IH false). lia.
Qed.

(** ** The text normaliser *)

Module SmartMatchFacts.
Import SmartMatch.

Lemma normalize_text_str (x : str) :
  normalize_text (PyStr x)
  = strip (collapse false
             (filter (fun c => negb (special_char c))
                (remove_stop_words stop_words (upper x)))).
Proof.
  unfold normalize_text. simpl.
  rewrite re_sub_class.
  change (RPlus (RChar is_space)) with DrugParser.spaces1.
  rewrite re_sub_spaces. reflexivity.
Qed.

Lemma normalize_plain (x : str) :
  Forall (fun c => plain_char c = true) (normalize_text (PyStr x)).
Proof.
  rewrite normalize_text_str. apply strip_Forall.
  apply collapse_Forall; [reflexivity|].
  apply Forall_forall. intros c Hc Hs.
  apply filter_In in Hc. destruct Hc as [_ Hc].
  apply negb_true_iff in Hc. apply not_special_plain; assumption.
Qed.

Lemma normalize_single_spaced (x : str) :
  single_spaced (normalize_text (PyStr x)) = true.
Proof.
  rewrite normalize_text_str. apply single_spaced_strip.
  apply collapse_single_spaced.
Qed.

Lemma normalize_trimmed (x : str) :
  trimmed (normalize_text (PyStr x)) = true.
Proof. rewrite normalize_text_str. apply strip_trimmed. Qed.

Lemma single_spaced_no_double (s : str) :
  single_spaced s = true -> contains s [space; space] = false.
Proof.
  induction s as [|a s IH]; intros H.
  - reflexivity.
  - cbn [contains]. rewrite (IH (single_spaced_tail _ _ H)).
    rewrite orb_false_r.
    destruct s as [|b s]; cbn [startswith].
    + apply andb_false_r.
    + cbn [single_spaced] in H. apply andb_prop in H. destruct H as [H _].
      destruct (Ascii.eqb space a) eqn:Ea; [|reflexivity].
      destruct (Ascii.eqb space b) eqn:Eb; [|reflexivity].
      apply Ascii.eqb_eq in Ea, Eb. subst. discriminate.
Qed.

(** C10. For every input, [normalize_text] returns a text made only of the
    characters A-Z, 0-9 and the space, which neither starts nor ends with
    white space and has no two consecutive spaces; for an input that is not
    a string it returns the empty string. *)
Theorem normalize_text_shape (v : pyval) :
  forallb plain_char (normalize_text v) = true
  /\ trimmed (normalize_text v) = true
  /\ contains (normalize_text v) [space; space] = false
  /\ (isinstance_str v = false -> normalize_text v = []).
Proof.
  destruct v as [x| | | |]; try (repeat split; reflexivity).
  repeat split.
  - apply forallb_forall. apply Forall_forall. apply normalize_plain.
  - apply normalize_trimmed.
  - apply single_spaced_no_double, normalize_single_spaced.
  - discriminate.
Qed.

(** *** Idempotence *)

Lemma remove_stop_words_fixed (ws : list string) (y : str) :
  (forall w, In w ws -> search (word_re w) y = None) ->
  remove_stop_words ws y = y.
Proof.
  induction ws as [|w ws IH]; intros H; simpl.
  - reflexivity.
  - rewrite re_sub_no_match by (apply H; left; reflexivity).
    apply IH. intros w' Hw'. apply H. right. exact Hw'.
Qed.

(** A normalised text in which no stop word is left is a fixed point. *)
Lemma normalize_fixed (y : str) :
  Forall (fun c => plain_char c = true) y ->
  single_spaced y = true -> trimmed y = true ->
  (forall w, In w stop_words -> search (word_re w) y = None) ->
  normalize_text (PyStr y) = y.
Proof.
  intros Hp Hs Ht Hw. rewrite normalize_text_str.
  rewrite upper_fixed.
  2:{ eapply Forall_impl; [|exact Hp]. intros c. apply plain_upper_fixed. }
  rewrite remove_stop_words_fixed by exact Hw.
  rewrite filter_all.
  2:{ eapply Forall_impl; [|exact Hp]. intros c Hc.
      rewrite plain_not_special by exact Hc. reflexivity. }
  destruct (collapse_fixed y) as [-> _]; auto using trimmed_strip.
  eapply Forall_impl; [|exact Hp]. intros c. apply plain_space.
Qed.

(** Removing a word that occurs makes the text shorter. *)
Lemma remove_stop_words_length (ws : list string) :
  forall text, length (remove_stop_words ws text) <= length text.
Proof.
  induction ws as [|w ws IH]; intros text; simpl; auto.
  etransitivity; [apply IH | apply re_sub_length].
Qed.

Lemma sub_from_shorter (r : regex) (is_tok : str -> bool) :
  whole_word r is_tok -> is_tok [] = false ->
  forall ahead before,
    search_from r before ahead <> None ->
    length (sub_from r [] 0 before ahead) < length ahead.
Proof.
  intros Hr Hnil. induction ahead as [|c ahead IH]; intros before H.
  - exfalso. apply H. simpl. rewrite Hr. simpl. rewrite Hnil.
    destruct (wstat before); reflexivity.
  - cbn [search_from sub_from] in *. rewrite Hr in *.
    destruct (wstat before).
    + simpl. apply -> Nat.succ_lt_mono. apply IH, H.
    + destruct (is_tok (takeWhile is_word (c :: ahead))) eqn:Et.
      * rewrite (consumed_length before (c :: ahead)
                   (takeWhile is_word (c :: ahead))
                   (dropWhile is_word (c :: ahead)))
          by (symmetry; apply takeWhile_dropWhile).
        destruct (takeWhile is_word (c :: ahead)) as [|d u] eqn:Ew;
          [congruence|].
        simpl. apply Nat.lt_succ_r, sub_from_length.
      * simpl. apply -> Nat.succ_lt_mono. apply IH, H.
Qed.

Lemma stop_words_are_words :
  Forall (fun w => L w <> [] /\ forallb is_word (L w) = true) stop_words.
Proof. repeat constructor; discriminate. Qed.

Lemma remove_stop_words_shorter (ws : list string) :
  Forall (fun w => L w <> [] /\ forallb is_word (L w) = true) ws ->
  forall text,
    (exists w, In w ws /\ search (word_re w) text <> None) ->
    length (remove_stop_words ws text) < length text.
Proof.
  induction 1 as [|w ws [Hne Hw] Hws IH]; intros text [w' [Hin Hs]].
  - destruct Hin.
  - simpl. destruct (search (word_re w) text) eqn:E.
    + eapply Nat.le_lt_trans; [apply remove_stop_words_length|].
      apply (sub_from_shorter _ _ (word_re_whole_word w Hne Hw)).
      * destruct (L w); [congruence | reflexivity].
      * unfold search in E. rewrite E. discriminate.
    + rewrite re_sub_no_match by exact E.
      apply IH. exists w'. split; [|exact Hs].
      destruct Hin as [<-|Hin]; [congruence | exact Hin].
Qed.

Lemma search_dec (r : regex) (y : str) :
  {search r y = None} + {search r y <> None}.
Proof. destruct (search r y); [right; discriminate | left; reflexivity]. Qed.

Lemma stop_word_left_dec (ws : list string) (y : str) :
  (forall w, In w ws -> search (word_re w) y = None)
  \/ (exists w, In w ws /\ search (word_re w) y <> None).
Proof.
  induction ws as [|w ws [IH|[w' [Hin Hs]]]].
  - left. intros w [].
  - destruct (search_dec (word_re w) y) as [E|E].
    + left. intros w' [<-|Hin]; auto.
    + right. exists w. split; [left; reflexivity | exact E].
  - right. exists w'. split; [right; exact Hin | exact Hs].
Qed.

Lemma normalize_not_fixed (y : str) :
  Forall (fun c => plain_char c = true) y ->
  (exists w, In w stop_words /\ search (word_re w) y <> None) ->
  length (normalize_text (PyStr y)) < length y.
Proof.
  intros Hp Hw. rewrite normalize_text_str.
  rewrite upper_fixed.
  2:{ eapply Forall_impl; [|exact Hp]. intros c. apply plain_upper_fixed. }
  eapply Nat.le_lt_trans; [apply strip_length|].
  eapply Nat.le_lt_trans; [apply collapse_length|].
  eapply Nat.le_lt_trans; [apply filter_length_le|].
  apply remove_stop_words_shorter; [apply stop_words_are_words | exact Hw].
Qed.

(** [normalize_text] applied twice gives what it gives once exactly when no
    stop word is left as a whole word in what it gives once. *)
Lemma idempotent_iff_no_stop_word (x : str) :
  normalize_text (PyStr (normalize_text (PyStr x))) = normalize_text (PyStr x)
  <-> (forall w, In w stop_words ->
         search (word_re w) (normalize_text (PyStr x)) = None).
Proof.
  split.
  - intros Hfix.
    destruct (stop_word_left_dec stop_words (normalize_text (PyStr x)))
      as [H|H]; [exact H|].
    apply normalize_not_fixed in H; [|apply normalize_plain].
    rewrite Hfix in H. lia.
  - intros H. apply normalize_fixed; auto using normalize_plain,
      normalize_single_spaced, normalize_trimmed.
Qed.


(** *** The words of a normalised text *)

Lemma word_ok_nil (w : string) : word_ok w -> eqb_str [] (L w) = false.
Proof.
  intros [H _]. destruct (L w); [congruence | reflexivity].
Qed.

Lemma word_runs_re_sub (w : string) (t : str) :
  word_ok w ->
  word_runs (re_sub (word_re w) [] t)
  = filter (fun run => negb (eqb_str run (L w))) (word_runs t).
Proof.
  intros Hw. pose proof Hw as [Hne Hall].
  rewrite (re_sub_remove _ _ (word_re_whole_word w Hne Hall)
             (word_ok_nil w Hw)).
  apply (word_runs_remove (fun run => eqb_str run (L w)) (word_ok_nil w Hw)).
  reflexivity.
Qed.

Lemma no_run_re_sub_same (w : string) (t : str) :
  word_ok w -> no_run w (re_sub (word_re w) [] t).
Proof.
  intros Hw. unfold no_run. rewrite word_runs_re_sub by exact Hw.
  apply Forall_forall. intros run H. apply filter_In in H.
  destruct H as [_ H]. apply negb_true_iff in H. exact H.
Qed.

Lemma no_run_re_sub_other (w w' : string) (t : str) :
  word_ok w' -> no_run w t -> no_run w (re_sub (word_re w') [] t).
Proof.
  intros Hw' H. unfold no_run in *. rewrite word_runs_re_sub by exact Hw'.
  apply Forall_forall. intros run Hr. apply filter_In in Hr.
  destruct Hr as [Hr _]. revert run Hr. apply Forall_forall. exact H.
Qed.

Lemma no_run_remove_stop_words (ws : list string) :
  Forall word_ok ws ->
  forall t w, In w ws \/ no_run w t -> no_run w (remove_stop_words ws t).
Proof.
  induction 1 as [|w0 ws Hw0 Hws IH]; intros t w H; simpl.
  - destruct H as [[]|H]. exact H.
  - apply IH. destruct H as [[<-|H]|H].
    + right. apply no_run_re_sub_same, Hw0.
    + left. exact H.
    + right. apply no_run_re_sub_other; assumption.
Qed.

Lemma re_sub_no_run (w : string) (t : str) :
  word_ok w -> no_run w t -> re_sub (word_re w) [] t = t.
Proof.
  intros Hw H. pose proof Hw as [Hne Hall].
  rewrite (re_sub_remove _ _ (word_re_whole_word w Hne Hall)
             (word_ok_nil w Hw)).
  apply (remove_acc_fixed _ (word_ok_nil w Hw)). exact H.
Qed.

Lemma remove_stop_words_no_run (ws : list string) (t : str) :
  Forall word_ok ws -> (forall w, In w ws -> no_run w t) ->
  remove_stop_words ws t = t.
Proof.
  induction 1 as [|w0 ws Hw0 Hws IH]; intros H; simpl.
  - reflexivity.
  - rewrite re_sub_no_run; auto.
    + apply IH. intros w Hw. apply H. right. exact Hw.
    + apply H. left. reflexivity.
Qed.

Lemma text_char_upper (c : ascii) :
  text_char c = true -> special_char (upper_char c) = false.
Proof. all_chars c. Qed.

Lemma remove_stop_words_Forall (P : ascii -> Prop) (ws : list string) :
  forall t, Forall P t -> Forall P (remove_stop_words ws t).
Proof.
  induction ws as [|w ws IH]; intros t Ht; simpl; auto.
  apply IH, re_sub_Forall; [constructor | exact Ht].
Qed.

(** On a text of letters, digits and white space the removal of special
    characters removes nothing, so the words of the result are the words
    left by the removal of the stop words. *)
Lemma normalize_text_words (x : str) (w : string) :
  forallb text_char x = true -> In w stop_words ->
  no_run w (normalize_text (PyStr x)).
Proof.
  intros Hx Hw. rewrite normalize_text_str. unfold no_run.
  rewrite word_runs_strip, word_runs_collapse.
  rewrite filter_all.
  - apply no_run_remove_stop_words;
      [apply stop_words_are_words | left; exact Hw].
  - apply remove_stop_words_Forall.
    apply Forall_forall. intros c Hc. unfold upper in Hc.
    apply in_map_iff in Hc. destruct Hc as [a [<- Ha]].
    rewrite text_char_upper; [reflexivity|].
    revert a Ha. apply forallb_forall. exact Hx.
Qed.

(** A normalised text without stop words among its words is a fixed
    point. *)
Lemma normalize_fixed_words (y : str) :
  Forall (fun c => plain_char c = true) y ->
  single_spaced y = true -> trimmed y = true ->
  (forall w, In w stop_words -> no_run w y) ->
  normalize_text (PyStr y) = y.
Proof.
  intros Hp Hs Ht Hw. rewrite normalize_text_str.
  rewrite upper_fixed.
  2:{ eapply Forall_impl; [|exact Hp]. intros c. apply plain_upper_fixed. }
  rewrite remove_stop_words_no_run by (auto using stop_words_are_words).
  rewrite filter_all.
  2:{ eapply Forall_impl; [|exact Hp]. intros c Hc.
      rewrite plain_not_special by exact Hc. reflexivity. }
  destruct (collapse_fixed y) as [-> _]; auto using trimmed_strip.
  eapply Forall_impl; [|exact Hp]. intros c. apply plain_space.
Qed.

(** On letters, digits and white space the normaliser is idempotent. *)
Lemma idempotent_on_text (x : str) :
  forallb text_char x = true ->
  normalize_text (PyStr (normalize_text (PyStr x))) = normalize_text (PyStr x).
Proof.
  intros Hx. apply normalize_fixed_words;
    auto using normalize_plain, normalize_single_spaced, normalize_trimmed.
  intros w Hw. apply normalize_text_words; assumption.
Qed.

(** C4, as stated, fails: stripping the hyphen joins M and G into the stop
    word MG, which the second pass removes. *)
Lemma normalize_not_idempotent :
  normalize_text (PyStr (normalize_text (PyStr (L "M-G"))))
  <> normalize_text (PyStr (L "M-G")).
Proof. vm_compute. discriminate. Qed.

(** C4, amended. [normalize_text] applied twice gives what it gives once
    exactly when no stop word is left as a whole word in what it gives
    once; and this is so for every text made only of the letters [a-z] and
    [A-Z], the digits and ASCII white space. *)
Theorem normalize_idempotent (x : str) :
  (normalize_text (PyStr (normalize_text (PyStr x)))
   = normalize_text (PyStr x)
   <-> (forall w, In w stop_words ->
          search (word_re w) (normalize_text (PyStr x)) = None))
  /\ (forallb text_char x = true ->
      normalize_text (PyStr (normalize_text (PyStr x)))
      = normalize_text (PyStr x)).
Proof.
  split; [apply idempotent_iff_no_stop_word | apply idempotent_on_text].
Qed.

Lemma normalize_idempotent_witness :
  normalize_text (PyStr (normalize_text
     (PyStr (L "Paracetamol 500 mg x 20 comprimidos"))))
  = normalize_text (PyStr (L "Paracetamol 500 mg x 20 comprimidos")).
Proof.
  apply (normalize_idempotent (L "Paracetamol 500 mg x 20 comprimidos")).
  vm_compute. reflexivity.
Defined.

End SmartMatchFacts.

(** ** The field extractor *)

Module DrugParserFacts.
Import DrugParser.

(** [parse] of a string is [parse_str]: nothing raises on that path. *)
Lemma parse_string (s : str) : parse (PyStr s) = Ok (parse_str s).
Proof. reflexivity. Qed.

(** The four cases of [tests/test_parser.py]. *)
Example test_standard_case :
  exists res,
    parse (PyStr (L "ACICLOVIR 200 MG X25 COMP LAB CHILE.")) = Ok res
    /\ clean_name res = L "ACICLOVIR"
    /\ dose_val res = Some (L "200") /\ dose_unit res = Some (L "MG")
    /\ qty_val res = Some (L "25") /\ qty_unit res = Some (L "COMP")
    /\ lab res = L "CHILE.".
Proof. eexists. split; [reflexivity|]. vm_compute. repeat split. Qed.

Example test_mixed_case :
  exists res,
    parse (PyStr (L
      "AARTFENACIN FEXOFENADINA CLORHIDRATO 180MG 30 COMP. LAB PHARMARIS"))
    = Ok res
    /\ contains (clean_name res) (L "AARTFENACIN") = true
    /\ contains (clean_name res) (L "FEXOFENADINA") = true
    /\ dose_val res = Some (L "180") /\ qty_val res = Some (L "30")
    /\ lab res = L "PHARMARIS".
Proof. eexists. split; [reflexivity|]. vm_compute. repeat split. Qed.

Example test_ofteno_case :
  exists res,
    parse (PyStr (L "3-A OFTENO DICLOFENACO SODICO 10MG X5ML LAB SOPHIA"))
    = Ok res
    /\ dose_val res = Some (L "10") /\ dose_unit res = Some (L "MG")
    /\ qty_val res = Some (L "5") /\ qty_unit res = Some (L "ML")
    /\ contains (clean_name res) (L "OFTENO") = true
    /\ contains (clean_name res) (L "DICLOFENACO") = true.
Proof. eexists. split; [reflexivity|]. vm_compute. repeat split. Qed.

Example test_inhaler_case :
  exists res,
    parse (PyStr (L "AEROLIN SALBUTAMOL 100MCG 200DOSIS LAB. GSK")) = Ok res
    /\ dose_val res = Some (L "100") /\ dose_unit res = Some (L "MCG")
    /\ qty_val res = Some (L "200") /\ qty_unit res = Some (L "DOSIS").
Proof. eexists. split; [reflexivity|]. vm_compute. repeat split. Qed.

(** *** What [parse] raises *)

Lemma long_int_spec (v : pyval) :
  (long_int v = true
   <-> exists z, v = PyInt z /\ (10 ^ int_max_str_digits <= Z.abs z)%Z)
  /\ (long_int v = false
      <-> forall z, v = PyInt z -> (Z.abs z < 10 ^ int_max_str_digits)%Z).
Proof.
  unfold long_int. destruct v as [s| |z|b|r];
    try (split; split;
         [discriminate | intros (z & H & _); discriminate
         | intros _ z H; discriminate | reflexivity]).
  destruct (Z.leb_spec (10 ^ int_max_str_digits) (Z.abs z)) as [H|H].
  - split; split; [eauto | reflexivity | discriminate|].
    intros H1. specialize (H1 z eq_refl). lia.
  - split; split; [discriminate | | intros _ z0 E; congruence | reflexivity].
    intros (z0 & E & H1). injection E as <-. lia.
Qed.

Lemma str_of_cases (v : pyval) :
  (long_int v = true /\ str_of v = Raise ValueError)
  \/ (long_int v = false /\ str_of v = Ok (py_str v)).
Proof. unfold str_of. destruct (long_int v); auto. Qed.

Lemma parse_cases (v : pyval) :
  match parse v with
  | Raise e => e = ValueError /\ long_int v = true
  | Ok p => long_int v = false
  end.
Proof.
  unfold parse. destruct (isinstance_str v) eqn:Ei; cbn [negb].
  - destruct v; try discriminate Ei. reflexivity.
  - destruct (str_of_cases v) as [[Hl ->]|[Hl ->]]; cbn [bind]; auto.
Qed.

(** C5, as stated, fails: [str] refuses to write the [int] 10^4300, which
    has 4301 digits, and [parse] calls it on a value that is not a
    string. *)
Lemma parse_long_int_raises :
  parse (PyInt (10 ^ 4300)) = Raise ValueError.
Proof.
  unfold parse, str_of, long_int, int_max_str_digits.
  cbn [isinstance_str negb].
  rewrite Z.abs_eq by (apply Z.pow_nonneg; lia).
  rewrite Z.leb_refl. reflexivity.
Qed.

(** C5, amended.  [parse] raises only what [str] raises on a value that
    is not a string: a ValueError, exactly for an [int] of more than 4300
    digits.  For every other value it returns a record; for a value that is
    not a string the name in it is the text of the value, and for such a
    value and for the empty string the dose and the quantity of the record
    are [None] and its laboratory is the text NO IDENTIFICADO. *)
Theorem parse_defaults (v : pyval) :
  match parse v with
  | Raise e =>
      e = ValueError
      /\ exists z, v = PyInt z /\ (10 ^ int_max_str_digits <= Z.abs z)%Z
  | Ok p =>
      (forall z, v = PyInt z -> (Z.abs z < 10 ^ int_max_str_digits)%Z)
      /\ (isinstance_str v = false ->
          original p = py_str v /\ clean_name p = py_str v)
      /\ (isinstance_str v = false \/ v = PyStr [] ->
          dose_val p = None /\ dose_unit p = None
          /\ qty_val p = None /\ qty_unit p = None
          /\ lab p = L "NO IDENTIFICADO")
  end.
Proof.
  destruct (long_int_spec v) as [Ht Hf].
  unfold parse. destruct (isinstance_str v) eqn:Ei; cbn [negb].
  - destruct v as [s| | | |]; try discriminate Ei.
    split; [intros z H; discriminate|]. split; [discriminate|].
    intros [H|H]; [discriminate|]. injection H as ->.
    vm_compute. repeat split.
  - destruct (str_of_cases v) as [[Hl ->]|[Hl ->]]; cbn [bind].
    + split; [reflexivity | apply Ht, Hl].
    + split; [apply Hf, Hl|]. split; [intros _; split; reflexivity|].
      intros _. repeat split.
Qed.

(** *** Parsing a clean name again *)

(** C3, as stated, fails: only the first dose is taken, so a second one
    stays in the clean name and is taken when the clean name is parsed. *)
Lemma reparse_second_dose : ~ reparse_fixed_point (L "A 500 MG 200 MG").
Proof.
  unfold reparse_fixed_point. vm_compute. intros [H _]. discriminate H.
Qed.

(** Deleting a residue in the middle leaves two spaces, which the next
    parse collapses. *)
Example reparse_residue_gap :
  clean_name (parse_str (L "A X20 B")) = L "A  B"
  /\ clean_name (parse_str (L "A  B")) = L "A B".
Proof. vm_compute. split; reflexivity. Qed.

Lemma upper_upper_closed (s : str) : upper_closed (upper s).
Proof.
  unfold upper_closed, upper. apply Forall_forall. intros c Hc.
  apply in_map_iff in Hc. destruct Hc as [a [<- _]]. apply upper_char_idem.
Qed.

Lemma replace_space_upper_closed (s old : str) :
  upper_closed s -> upper_closed (replace s old [space]).
Proof.
  apply replace_Forall. constructor; [reflexivity | constructor].
Qed.

Lemma replace_nil_upper_closed (s old : str) :
  upper_closed s -> upper_closed (replace s old []).
Proof. apply replace_Forall. constructor. Qed.

(** The clean name is what the clean-up step makes of some text in capital
    letters. *)
Lemma clean_name_shape (s : str) :
  exists t,
    upper_closed t
    /\ clean_name (parse_str s)
       = strip (re_sub REGEX_X_RESIDUE []
                  (strip (re_sub spaces1 [space] t))).
Proof.
  unfold parse_str. cbn [negb py_str clean_name].
  eexists. split; [|reflexivity].
  pose proof (strip_Forall _ _ (upper_upper_closed s)) as H0.
  fold (upper_closed (strip (upper s))) in H0.
  set (t0 := strip (upper s)) in *. clearbody t0.
  set (t1 := match search REGEX_LAB t0 with
             | Some m => replace t0 (group m 0) []
             | None => t0
             end).
  assert (H1 : upper_closed t1).
  { unfold t1. destruct (search REGEX_LAB t0);
      auto using replace_nil_upper_closed. }
  clearbody t1.
  set (t2 := match search REGEX_DOSIS t1 with
             | Some m => replace t1 (group m 0) [space]
             | None => t1
             end).
  assert (H2 : upper_closed t2).
  { unfold t2. destruct (search REGEX_DOSIS t1);
      auto using replace_space_upper_closed. }
  clearbody t2.
  destruct (search REGEX_CANTIDAD t2);
    auto using replace_space_upper_closed.
Qed.

Lemma is_x_residue_nil : is_x_residue [] = false.
Proof. reflexivity. Qed.

Lemma clean_name_upper_closed (s : str) :
  upper_closed (clean_name (parse_str s)).
Proof.
  destruct (clean_name_shape s) as [t [Ht ->]].
  apply strip_Forall, re_sub_Forall; [constructor|].
  apply strip_Forall, re_sub_Forall; [|exact Ht].
  constructor; [reflexivity | constructor].
Qed.

Lemma clean_name_trimmed (s : str) :
  trimmed (clean_name (parse_str s)) = true.
Proof.
  destruct (clean_name_shape s) as [t [_ ->]]. apply strip_trimmed.
Qed.

Lemma clean_name_spaces (s : str) :
  Forall (fun c => is_space c = true -> c = space)
    (clean_name (parse_str s)).
Proof.
  destruct (clean_name_shape s) as [t [_ ->]].
  apply strip_Forall, re_sub_Forall; [constructor|].
  apply strip_Forall. rewrite re_sub_spaces.
  apply collapse_Forall; [reflexivity|].
  apply Forall_forall. intros c _ H1 H2. congruence.
Qed.

(** No residue is left in a clean name. *)
Lemma clean_name_no_residue (s : str) :
  Forall (fun w => is_x_residue w = false)
    (word_runs (clean_name (parse_str s))).
Proof.
  destruct (clean_name_shape s) as [t [_ ->]].
  rewrite word_runs_strip.
  rewrite (re_sub_remove _ _ x_residue_whole_word is_x_residue_nil).
  rewrite (word_runs_remove _ is_x_residue_nil) by reflexivity.
  apply Forall_forall. intros w Hw. apply filter_In in Hw.
  destruct Hw as [_ Hw]. apply negb_true_iff in Hw. exact Hw.
Qed.

Lemma no_double_single_spaced (s : str) :
  Forall (fun c => is_space c = true -> c = space) s ->
  contains s [space; space] = false -> single_spaced s = true.
Proof.
  induction 1 as [|a s Ha Hs IH]; intros H.
  - reflexivity.
  - cbn [contains] in H. apply orb_false_elim in H. destruct H as [H1 H2].
    specialize (IH H2). destruct s as [|b s]; [reflexivity|].
    change (negb (is_space a && is_space b) && single_spaced (b :: s) = true).
    rewrite IH, andb_true_r.
    inversion Hs as [|? ? Hb _]; subst.
    destruct (is_space a) eqn:Ea; [|reflexivity].
    destruct (is_space b) eqn:Eb; [|reflexivity].
    rewrite (Ha eq_refl), (Hb eq_refl) in H1. discriminate H1.
Qed.

(** A text in capital letters, trimmed and single spaced, in which the
    three patterns find nothing and no residue is left, is parsed to
    itself. *)
Lemma parse_fixed (c : str) :
  upper_closed c -> trimmed c = true ->
  Forall (fun a => is_space a = true -> a = space) c ->
  single_spaced c = true ->
  Forall (fun w => is_x_residue w = false) (word_runs c) ->
  search REGEX_LAB c = None ->
  search REGEX_DOSIS c = None ->
  search REGEX_CANTIDAD c = None ->
  parse_str c = nothing_extracted c.
Proof.
  intros Hup Htr Hsp Hss Hres Hlab Hdos Hcan.
  unfold parse_str. cbn [negb py_str].
  rewrite (upper_fixed c Hup).
  rewrite (trimmed_strip c Htr).
  rewrite Hlab, Hdos, Hcan. cbn [option_map].
  rewrite re_sub_spaces.
  destruct (collapse_fixed c Hsp Hss) as [-> _].
  rewrite (trimmed_strip c Htr).
  rewrite (re_sub_remove _ _ x_residue_whole_word is_x_residue_nil).
  rewrite (remove_acc_fixed _ is_x_residue_nil) by exact Hres.
  simpl rev. cbn [app].
  rewrite (trimmed_strip c Htr). reflexivity.
Qed.


(** Taking a match out of the text and putting a space does not make the
    text longer. *)
Lemma take_out_length (r : regex) (t : str) :
  nullable r = false ->
  length (match search r t with
          | Some m => replace t (group m 0) [space]
          | None => t
          end) <= length t.
Proof.
  intros Hn. destruct (search r t) as [m|] eqn:E; [|lia].
  apply (search_from_group0 r Hn) in E. destruct E as [Hne _].
  apply replace_length; [|exact Hne].
  simpl. destruct (m_group0 m); [congruence | simpl; lia].
Qed.

Lemma clean_up_length (t : str) :
  length (strip (re_sub REGEX_X_RESIDUE []
                   (strip (re_sub spaces1 [space] t)))) <= length t.
Proof.
  etransitivity; [apply strip_length|].
  etransitivity; [apply sub_from_length|].
  etransitivity; [apply strip_length|].
  rewrite re_sub_spaces. apply collapse_length.
Qed.

Lemma nullable_patterns :
  nullable REGEX_LAB = false /\ nullable REGEX_DOSIS = false
  /\ nullable REGEX_CANTIDAD = false.
Proof. repeat split; reflexivity. Qed.

(** What [parse] computes on a text in capital letters that is trimmed. *)
Lemma parse_trimmed_upper (c : str) :
  upper_closed c -> trimmed c = true ->
  let t1 := match search REGEX_LAB c with
            | Some m => replace c (group m 0) []
            | None => c
            end in
  let t2 := match search REGEX_DOSIS t1 with
            | Some m => replace t1 (group m 0) [space]
            | None => t1
            end in
  let t3 := match search REGEX_CANTIDAD t2 with
            | Some m => replace t2 (group m 0) [space]
            | None => t2
            end in
  clean_name (parse_str c)
  = strip (re_sub REGEX_X_RESIDUE [] (strip (re_sub spaces1 [space] t3)))
  /\ dose_val (parse_str c)
     = option_map (fun m => group m 1) (search REGEX_DOSIS t1)
  /\ qty_val (parse_str c)
     = option_map (fun m => group m 1) (search REGEX_CANTIDAD t2).
Proof.
  intros Hup Htr. unfold parse_str. cbn [negb py_str].
  rewrite (upper_fixed c Hup), (trimmed_strip c Htr).
  repeat split.
Qed.

(** If parsing the clean name again changes nothing, then nothing was left
    to extract and no two spaces were left to collapse. *)
Lemma reparse_fixed_nothing_left (s : str) :
  let c := clean_name (parse_str s) in
  reparse_fixed_point s ->
  search REGEX_LAB c = None /\ search REGEX_DOSIS c = None
  /\ search REGEX_CANTIDAD c = None /\ contains c [space; space] = false.
Proof.
  intros c (Hclean & Hdose & _ & Hqty & _ & _). fold c in Hclean, Hdose, Hqty.
  destruct (parse_trimmed_upper c (clean_name_upper_closed s)
              (clean_name_trimmed s)) as (Ec & Ed & Eq).
  destruct nullable_patterns as (Nl & Nd & Nc).
  assert (Hlab : search REGEX_LAB c = None).
  { destruct (search REGEX_LAB c) as [m|] eqn:E; [exfalso|reflexivity].
    apply (search_from_group0 _ Nl) in E. destruct E as [Hne Hin].
    pose proof (replace_shorter c (group m 0) Hne Hin) as Hlt.
    set (t1 := replace c (group m 0) []) in *.
    pose proof (take_out_length REGEX_DOSIS t1 Nd) as H3.
    set (t2 := match search REGEX_DOSIS t1 with
               | Some m0 => replace t1 (group m0 0) [space]
               | None => t1
               end) in *.
    pose proof (take_out_length REGEX_CANTIDAD t2 Nc) as H2.
    set (t3 := match search REGEX_CANTIDAD t2 with
               | Some m0 => replace t2 (group m0 0) [space]
               | None => t2
               end) in *.
    pose proof (clean_up_length t3) as H1.
    rewrite <- Ec, Hclean in H1. lia. }
  rewrite Hlab in Ec, Ed, Eq.
  assert (Hdos : search REGEX_DOSIS c = None).
  { rewrite Hdose in Ed. destruct (search REGEX_DOSIS c); [discriminate|].
    reflexivity. }
  rewrite Hdos in Ec, Eq.
  assert (Hcan : search REGEX_CANTIDAD c = None).
  { rewrite Hqty in Eq. destruct (search REGEX_CANTIDAD c); [discriminate|].
    reflexivity. }
  rewrite Hcan in Ec.
  repeat split; auto.
  destruct (contains c [space; space]) eqn:E; [exfalso|reflexivity].
  pose proof (collapse_shorter c E false) as Hlt.
  assert (H1 : length (clean_name (parse_str c))
               <= length (collapse false c)).
  { rewrite Ec, re_sub_spaces.
    etransitivity; [apply strip_length|].
    etransitivity; [apply sub_from_length|]. apply strip_length. }
  rewrite Hclean in H1. lia.
Qed.

(** C3, amended.  Parsing the clean name produced from [s] again gives the
    same clean name and extracts nothing (dose and quantity [None],
    laboratory NO IDENTIFICADO) if and only if none of the three extraction
    patterns matches the clean name and the clean name has no two
    consecutive spaces. *)
Theorem reparse_clean_name (s : str) :
  let c := clean_name (parse_str s) in
  reparse_fixed_point s
  <-> (search REGEX_LAB c = None
       /\ search REGEX_DOSIS c = None
       /\ search REGEX_CANTIDAD c = None
       /\ contains c [space; space] = false).
Proof.
  intros c. split; [apply reparse_fixed_nothing_left|].
  intros (Hlab & Hdos & Hcan & Hdbl). unfold reparse_fixed_point. fold c.
  rewrite (parse_fixed c); unfold c.
  - repeat split.
  - apply clean_name_upper_closed.
  - apply clean_name_trimmed.
  - apply clean_name_spaces.
  - apply no_double_single_spaced; [apply clean_name_spaces | exact Hdbl].
  - apply clean_name_no_residue.
  - exact Hlab.
  - exact Hdos.
  - exact Hcan.
Qed.

Lemma reparse_clean_name_witness :
  reparse_fixed_point (L "ACICLOVIR 200 MG X25 COMP LAB CHILE.").
Proof.
  apply (reparse_clean_name (L "ACICLOVIR 200 MG X25 COMP LAB CHILE.")).
  vm_compute. repeat split.
Defined.

End DrugParserFacts.

(** ** The ranking engine *)

Module MotorBusquedaFacts.
Import MotorBusqueda.

Lemma key_leb_le (a b : ranked) : key_leb a b = true <-> key_le a b.
Proof.
  unfold key_leb, key_le. rewrite orb_true_iff, andb_true_iff.
  rewrite Z.ltb_lt, Z.eqb_eq, Z.leb_le. reflexivity.
Qed.

Lemma key_le_total (a b : ranked) : key_leb a b = false -> key_le b a.
Proof.
  unfold key_leb, key_le. intros H. apply orb_false_elim in H.
  destruct H as [H1 H2]. apply Z.ltb_ge in H1.
  apply andb_false_iff in H2. destruct H2 as [H2|H2].
  - apply Z.eqb_neq in H2. lia.
  - apply Z.leb_gt in H2. lia.
Qed.

Lemma key_le_trans (a b c : ranked) : key_le a b -> key_le b c -> key_le a c.
Proof. unfold key_le. lia. Qed.

Lemma insert_by_perm (x : ranked) (l : list ranked) :
  Permutation (insert_by x l) (x :: l).
Proof.
  induction l as [|y l IH]; simpl.
  - apply Permutation_refl.
  - destruct (key_leb x y).
    + apply Permutation_refl.
    + rewrite IH. apply perm_swap.
Qed.

Lemma sort_values_perm (l : list ranked) : Permutation (sort_values l) l.
Proof.
  induction l as [|x l IH]; simpl.
  - constructor.
  - rewrite insert_by_perm. constructor. exact IH.
Qed.

Lemma insert_by_sorted (x : ranked) (l : list ranked) :
  StronglySorted key_le l -> StronglySorted key_le (insert_by x l).
Proof.
  induction 1 as [|y l Hl IH Hy]; simpl.
  - repeat constructor.
  - destruct (key_leb x y) eqn:E.
    + apply key_leb_le in E. constructor.
      * constructor; assumption.
      * constructor; [exact E|].
        eapply Forall_impl; [|exact Hy].
        intros z Hz. eapply key_le_trans; eassumption.
    + apply key_le_total in E. constructor; [exact IH|].
      apply (Permutation_Forall (Permutation_sym (insert_by_perm x l))).
      constructor; assumption.
Qed.

Lemma sort_values_sorted (l : list ranked) :
  StronglySorted key_le (sort_values l).
Proof.
  induction l as [|x l IH]; simpl.
  - constructor.
  - apply insert_by_sorted, IH.
Qed.

Lemma calculate_rank_rule (query : str) (row : product) :
  rank_rule query {| item := row; Rank := calculate_rank query row |}.
Proof.
  unfold rank_rule, calculate_rank. simpl.
  destruct (Is_Generic row), (Is_Bioequivalent row),
    (contains (clean_name row) query); simpl;
    repeat split; intros [H1 H2]; congruence.
Qed.

Lemma StronglySorted_nth {A} (R : A -> A -> Prop) (l : list A) :
  StronglySorted R l ->
  forall i j a b,
    i < j -> nth_error l i = Some a -> nth_error l j = Some b -> R a b.
Proof.
  induction 1 as [|x l Hl IH Hx]; intros i j a b Hij Hi Hj.
  - destruct i; discriminate.
  - destruct j as [|j]; [lia|]. simpl in Hj.
    destruct i as [|i]; simpl in Hi.
    + injection Hi as <-. apply nth_error_In in Hj.
      revert b Hj. apply Forall_forall. exact Hx.
    + apply (IH i j); [lia | assumption | assumption].
Qed.

(** C1. Every candidate gets its rank by the first rule that applies, and
    the list returned holds the candidates sorted by rank and, within a
    rank, by price; so a row never comes before a row of smaller rank,
    whatever the prices. *)
Theorem rank_and_sort_ordered (query : str) (candidates : list product) :
  let out := rank_and_sort query candidates in
  Permutation (map item out) candidates
  /\ Forall (rank_rule query) out
  /\ StronglySorted key_le out
  /\ (forall i j a b,
         i < j -> nth_error out i = Some a -> nth_error out j = Some b ->
         (Rank a <= Rank b)%Z).
Proof.
  unfold rank_and_sort.
  set (ranked_rows := map (fun row => {| item := row;
                                         Rank := calculate_rank query row |})
                        candidates).
  assert (Hperm : Permutation (sort_values ranked_rows) ranked_rows)
    by apply sort_values_perm.
  repeat split.
  - rewrite (Permutation_map item Hperm). unfold ranked_rows.
    rewrite map_map. simpl. rewrite map_id. apply Permutation_refl.
  - apply (Permutation_Forall (Permutation_sym Hperm)).
    unfold ranked_rows. apply Forall_forall. intros r Hr.
    apply in_map_iff in Hr. destruct Hr as [row [<- _]].
    apply calculate_rank_rule.
  - apply sort_values_sorted.
  - intros i j a b Hij Hi Hj.
    pose proof (StronglySorted_nth _ _ (sort_values_sorted ranked_rows)
                  i j a b Hij Hi Hj) as H.
    unfold key_le in H. lia.
Qed.

(** The scenario of the specification: the generic comes first, then the
    brand, then the product asked for, though it is the cheapest. *)
Example ranking_scenario :
  let A := {| clean_name := L "PARACETAMOL"; Active_Ingredient := L "X";
              Stock := 1; Is_Generic := true; Is_Bioequivalent := true;
              Precio_Venta := 1000 |} in
  let B := {| clean_name := L "PANADOL"; Active_Ingredient := L "X";
              Stock := 1; Is_Generic := false; Is_Bioequivalent := true;
              Precio_Venta := 900 |} in
  let C := {| clean_name := L "TAPSIN"; Active_Ingredient := L "X";
              Stock := 1; Is_Generic := false; Is_Bioequivalent := false;
              Precio_Venta := 500 |} in
  map item (rank_and_sort (L "TAPSIN") [C; B; A]) = [A; B; C].
Proof. reflexivity. Qed.

(** *** The reference price and the savings *)

Lemma compile_literal (ignorecase : bool) (query : str) :
  literal_query query = true ->
  Pandas.compile_query ignorecase query
  = Some (fold_right (fun a r => RSeq (chr ignorecase a) r) REps query).
Proof.
  induction query as [|c query IH]; intros H; simpl in *.
  - reflexivity.
  - apply andb_prop in H. destruct H as [Hc H]. rewrite (IH H).
    apply negb_true_iff, orb_false_elim in Hc. destruct Hc as [-> ->].
    reflexivity.
Qed.

Lemma search_from_literal (query : str) :
  forall value before,
    search_from (fold_right (fun a r => RSeq (chr false a) r) REps query)
      before value = None
    <-> contains value query = false.
Proof.
  induction value as [|c value IH]; intros before; simpl;
    unfold match_at; rewrite rmatch_lit_list.
  - destruct (startswith [] query); simpl; split; auto; discriminate.
  - destruct (startswith (c :: value) query); simpl.
    + split; discriminate.
    + apply IH.
Qed.

(** For a query without special characters, [str.contains] is the
    substring test. *)
Lemma str_contains_literal (query value : str) (pat : regex) :
  literal_query query = true ->
  Pandas.compile_query false query = Some pat ->
  Pandas.str_contains pat value = contains value query.
Proof.
  intros Hl Hc. rewrite (compile_literal false query Hl) in Hc.
  injection Hc as <-. unfold Pandas.str_contains, search.
  pose proof (search_from_literal query value []) as H.
  destruct (search_from _ [] value); destruct (contains value query);
    try reflexivity.
  - destruct H as [_ H]. discriminate (H eq_refl).
  - destruct H as [H _]. discriminate (H eq_refl).
Qed.

Lemma render_row_savings (ref_price : Z) (row : ranked) :
  (Rank row <> 1%Z -> l_ahorro (render_row ref_price row) = None)
  /\ (forall d, l_ahorro (render_row ref_price row) = Some d ->
        Rank row = 1%Z /\ d = spec_savings ref_price row /\ (0 < d)%Z)
  /\ (Rank row = 1%Z -> l_ahorro (render_row ref_price row) = None ->
      spec_savings ref_price row = 0%Z).
Proof.
  unfold render_row, spec_savings.
  destruct (Rank row =? 1)%Z eqn:E1.
  - apply Z.eqb_eq in E1. simpl.
    destruct (ref_price >? price row)%Z eqn:Eg.
    + apply Z.gtb_lt in Eg. repeat split; try congruence; try lia.
      * injection H as <-. lia.
      * injection H as <-. lia.
    + rewrite Z.gtb_ltb in Eg. apply Z.ltb_ge in Eg.
      repeat split; try congruence; try lia; discriminate.
  - apply Z.eqb_neq in E1.
    destruct (Rank row =? 2)%Z; [|destruct (Rank row =? 3)%Z]; simpl;
      repeat split; try congruence; try discriminate.
Qed.

(** For a query without special characters and a list that is not empty,
    [_render_results] takes the reference price of the specification and
    shows, for the rows of rank 1 that are cheaper, the difference. *)
Lemma render_literal_query (results : list ranked) (query : str) :
  literal_query query = true -> results <> [] ->
  exists ref_price,
    spec_reference_price query results = Some ref_price
    /\ _render_results results query
       = Some (Ok (ref_price, map (render_row ref_price) results)).
Proof.
  intros Hl Hne. unfold _render_results, reference_price,
    spec_reference_price.
  rewrite (compile_literal false query Hl).
  set (pat := fold_right (fun a r => RSeq (chr false a) r) REps query).
  rewrite (filter_ext (fun r => Pandas.str_contains pat (clean_name (item r)))
             (fun r => contains (clean_name (item r)) query)).
  2:{ intros r. apply str_contains_literal; [exact Hl|].
      apply compile_literal, Hl. }
  destruct (filter _ results) as [|r0 rs].
  - destruct results as [|r rs]; [congruence|]. simpl. eauto.
  - simpl. eauto.
Qed.

(** C2 at a query with a dot.  The query [3.a ofteno] finds the eye drop
    because the dot stands for the hyphen; no clean name contains the text
    [3.A OFTENO], so by the specification the reference price is the price
    of the first row of the sorted list, 4000, and the saving of the generic
    is 0.  The program takes the price of the eye drop, 9000, as reference
    and shows a saving of 5000. *)
Theorem reference_price_pattern_query :
  let results := rank_and_sort (L "3.A OFTENO") [ofteno; diclofenaco] in
  buscar [ofteno; diclofenaco] (L "3.a ofteno")
  = Some (Ok (Rendered (L "DICLOFENACO") 9000
                [ {| l_tipo := BIO_GENERICO;
                     l_row := {| item := diclofenaco; Rank := 1 |};
                     l_ahorro := Some 5000%Z |};
                  {| l_tipo := OTROS;
                     l_row := {| item := ofteno; Rank := 4 |};
                     l_ahorro := None |} ]))
  /\ spec_reference_price (L "3.A OFTENO") results = Some 4000%Z
  /\ map (spec_savings 4000) results = [0%Z; 0%Z].
Proof. vm_compute. repeat split. Qed.

(** *** The empty query *)

Lemma search_eps (value : str) : Pandas.str_contains REps value = true.
Proof. unfold Pandas.str_contains, search. destruct value; reflexivity. Qed.

Lemma filter_true {A} (p : A -> bool) (l : list A) :
  (forall x, p x = true) -> filter p l = l.
Proof.
  intros H. induction l as [|x l IH]; simpl; auto. rewrite H. f_equal.
  exact IH.
Qed.

(** C9, as stated, fails for [buscar]: with one product in the inventory
    the empty query does not report that nothing was found. *)
Lemma one_product_empty_query :
  buscar [diclofenaco] [] <> Some (Ok (NoMatch [])).
Proof. vm_compute. discriminate. Qed.

(** On a frame with a row, [buscar] is the search itself. *)
Lemma buscar_rows (df : list product) (query : str) :
  df <> [] ->
  buscar df query
  = let query := strip (upper query) in
    match Pandas.compile_query true query with
    | None => None
    | Some pat =>
        let matches :=
          filter (fun row => Pandas.str_contains pat (clean_name row)) df in
        match matches with
        | [] => Some (Ok (NoMatch query))
        | target_product :: _ =>
            let active_ing := Active_Ingredient target_product in
            let alternatives :=
              if negb (eqb_str active_ing DataManager.DESCONOCIDO)
              then filter (fun row =>
                             eqb_str (Active_Ingredient row) active_ing
                             && (Stock row >? 0)%Z) df
              else matches in
            let sorted_results := rank_and_sort query alternatives in
            match _render_results sorted_results query with
            | None => None
            | Some (Ok (ref_price, lines)) =>
                Some (Ok (Rendered active_ing ref_price lines))
            | Some (Raise e) => Some (Raise e)
            end
        end
    end.
Proof. destruct df; [congruence | reflexivity]. Qed.

Lemma rank_and_sort_nil (query : str) (alternatives : list product) :
  rank_and_sort query alternatives = [] <-> alternatives = [].
Proof.
  unfold rank_and_sort. split; intros H.
  - apply (f_equal (@length _)) in H.
    rewrite (Permutation_length (sort_values_perm _)) in H.
    rewrite length_map in H. destruct alternatives; [reflexivity|].
    discriminate.
  - rewrite H. reflexivity.
Qed.

(** What [_render_results] does for the empty query: every clean name
    contains it, so the reference is the first row. *)
Lemma render_empty_query (results : list ranked) :
  _render_results results []
  = Some (match results with
          | [] => Raise IndexError
          | r :: _ => Ok (price r, map (render_row (price r)) results)
          end).
Proof.
  unfold _render_results. cbn [Pandas.compile_query]. unfold reference_price.
  rewrite (filter_true _ results) by (intros row; apply search_eps).
  destruct results; reflexivity.
Qed.

(** C9, amended.  The empty query is contained in every clean name, so
    [buscar] never reports that nothing was found.  On an inventory with a
    product the search goes on with the active ingredient of the first
    product: it lists, by rank and price, the products in stock with that
    ingredient, or every product when the ingredient is DESCONOCIDO, under
    the name of that ingredient and with the first row of the list as the
    reference; when there is nothing to list it raises IndexError.  On the
    frame of a file without rows it raises KeyError.  The HTTP search
    rejects the empty query with the validation error, whatever the
    database holds. *)
Theorem empty_query_outcome (df : list product)
    (run_query : str -> list Api.db_row) :
  buscar df [] <> Some (Ok (NoMatch []))
  /\ (df = [] -> buscar df [] = Some (Raise KeyError))
  /\ (forall target rest,
        df = target :: rest ->
        let active_ing := Active_Ingredient target in
        let alternatives :=
          if negb (eqb_str active_ing DataManager.DESCONOCIDO)
          then filter (fun row => eqb_str (Active_Ingredient row) active_ing
                                  && (Stock row >? 0)%Z) df
          else df in
        match rank_and_sort [] alternatives with
        | [] => alternatives = []
                /\ buscar df [] = Some (Raise IndexError)
        | r :: rs =>
            buscar df []
            = Some (Ok (Rendered active_ing (price r)
                          (map (render_row (price r)) (r :: rs))))
        end)
  /\ Api.search_products run_query [] = Api.Http422.
Proof.
  assert (Hgo : forall target rest,
             df = target :: rest ->
             buscar df []
             = match _render_results
                       (rank_and_sort []
                          (if negb (eqb_str (Active_Ingredient target)
                                      DataManager.DESCONOCIDO)
                           then filter (fun row =>
                                          eqb_str (Active_Ingredient row)
                                            (Active_Ingredient target)
                                          && (Stock row >? 0)%Z) df
                           else df)) [] with
               | None => None
               | Some (Ok (ref_price, lines)) =>
                   Some (Ok (Rendered (Active_Ingredient target) ref_price
                               lines))
               | Some (Raise e) => Some (Raise e)
               end).
  { intros target rest E. rewrite buscar_rows by (rewrite E; discriminate).
    cbv zeta. change (strip (upper [])) with (@nil ascii).
    cbn [Pandas.compile_query].
    rewrite (filter_true _ df) by (intros row; apply search_eps).
    rewrite E at 1. reflexivity. }
  split; [|split; [|split]].
  - destruct df as [|target rest]; [discriminate|].
    rewrite (Hgo target rest eq_refl), render_empty_query.
    destruct (rank_and_sort _ _); discriminate.
  - intros ->. reflexivity.
  - intros target rest E. cbv zeta.
    rewrite (Hgo target rest E), render_empty_query.
    destruct (rank_and_sort _ _) as [|r rs] eqn:Er; [|reflexivity].
    split; [apply (rank_and_sort_nil []), Er | reflexivity].
  - reflexivity.
Qed.

End MotorBusquedaFacts.

(** ** The builtins *)

Module BuiltinsFacts.
Import Builtins.

(** What the interpreter answers: 0.1 is 7205759403792794 / 2^56; the
    underscores between digits are dropped; a number too large is an
    infinity; [inf], [infinity] and [nan] are read in any case; and a text
    with a decimal comma, among others, is refused. *)
Example float_of_str_answers :
  float_of_str (L "0.1") = Some (S754_finite false 7205759403792794 (-56))
  /\ float_of_str (L " 1_0.5e1 ") = float_of_str (L "105")
  /\ float_of_str (L "-0") = Some (S754_zero true)
  /\ float_of_str (L "1e400") = Some (S754_infinity false)
  /\ float_of_str (L "-Infinity") = Some (S754_infinity true)
  /\ float_of_str (L "NaN") = Some S754_nan
  /\ float_of_str (L "2490,5") = None
  /\ float_of_str (L "1__0") = None
  /\ float_of_str (L "1e") = None
  /\ float_of_str (L "0x10") = None
  /\ float_of_str [] = None.
Proof. vm_compute. repeat split. Qed.

(** [round] goes through the exact value of the float: 2.675 is below the
    middle and gives 2.67, the exact middles 0.125 and 0.375 go to the even
    digit, the sign of a zero is kept, and NaN stays NaN. *)
Example round2_answers :
  option_map round2 (float_of_str (L "2.675")) = float_of_str (L "2.67")
  /\ option_map round2 (float_of_str (L "0.125")) = float_of_str (L "0.12")
  /\ option_map round2 (float_of_str (L "0.375")) = float_of_str (L "0.38")
  /\ option_map round2 (float_of_str (L "-0.001")) = Some (S754_zero true)
  /\ option_map round2 (float_of_str (L "1e300")) = float_of_str (L "1e300")
  /\ round2 S754_nan = S754_nan
  /\ round2 (S754_infinity false) = S754_infinity false.
Proof. vm_compute. repeat split. Qed.

(** On the digits of a whole number, [float] is the reading the catalogue
    script makes of them. *)
Example float_of_str_digits :
  map float_of_str [L "0"; L "15000"; L "-42"; L "9007199254740993"]
  = map ProcesarDatos.float_of_digits
      [L "0"; L "15000"; L "-42"; L "9007199254740993"].
Proof. vm_compute. reflexivity. Qed.

End BuiltinsFacts.

(** ** The bioequivalence classifier *)

Module DataManagerFacts.
Import DataManager.

Lemma brand_check_branded (clean_name : str) (brand_list : list str) :
  brand_check clean_name brand_list (false, true) = (false, true).
Proof.
  unfold brand_check. induction brand_list as [|b l IH]; simpl;
    [reflexivity|]. destruct (contains clean_name b); exact IH.
Qed.

Lemma brand_check_spec (clean_name : str) (brand_list : list str) :
  forall flags,
    brand_check clean_name brand_list flags
    = if existsb (fun brand => contains clean_name brand) brand_list
      then (false, true) else flags.
Proof.
  induction brand_list as [|b l IH]; intros flags; [reflexivity|].
  unfold brand_check in *. simpl.
  destruct (contains clean_name b); simpl.
  - apply (brand_check_branded clean_name l).
  - apply IH.
Qed.

Lemma getitem_In (db : isp_db) (key : str) (data : isp_entry) :
  getitem db key = Ok data -> In (key, data) db.
Proof.
  induction db as [|[k d] db IH]; simpl; [discriminate|].
  destruct (eqb_str k key) eqn:E.
  - apply eqb_str_eq in E. intros H. injection H as <-. subst. auto.
  - auto.
Qed.

Section WithLibraries.

Variable FUZZY_AVAILABLE : bool.
Variable token_set_ratio : str -> str -> Q.
Variable fuzz_ratio : str -> str -> Q.
Variable float_of_str : str -> option float.
Variable round2 : float -> float.

(** *** The price per unit *)

Lemma float_gt_zero_div (price qty : float) :
  float_gt qty float_zero = true ->
  float_div price qty = Ok (SFdiv 53 1024 price qty).
Proof.
  unfold float_gt, float_zero, float_div.
  destruct qty as [s| | |]; try reflexivity.
  destruct s; discriminate.
Qed.

Lemma calculate_ppum_ok (r : row) :
  _calculate_ppum float_of_str round2 r = Ok (spec_ppum float_of_str round2 r).
Proof.
  unfold _calculate_ppum, ppum_try, spec_ppum, py_float, bind.
  destruct (float_of_str (replace (py_str (Precio_Venta r)) (L ",") (L ".")))
    as [price|]; [|destruct (DrugParser.qty_val (parsed r)); reflexivity].
  destruct (DrugParser.qty_val (parsed r)) as [qty_text|]; [|reflexivity].
  destruct (float_of_str qty_text) as [qty|]; [|reflexivity].
  destruct (float_gt qty float_zero) eqn:E; [|reflexivity].
  rewrite (float_gt_zero_div price qty E). reflexivity.
Qed.

(** [_calculate_ppum] raises for no row, whatever [float] and [round] do.
    When [float] takes the text of the price and the quantity and the
    quantity is above zero it returns the quotient rounded to two places;
    in every other case, a quantity not above zero, no quantity, or a text
    [float] refuses, it returns 0. *)
Lemma calculate_ppum_total (r : row) :
  exists v,
    _calculate_ppum float_of_str round2 r = Ok v
    /\ v = match float_of_str (replace (py_str (Precio_Venta r))
                                (L ",") (L ".")),
                 option_map float_of_str (DrugParser.qty_val (parsed r)) with
           | Some price, Some (Some qty) =>
               if float_gt qty float_zero
               then NFloat (round2 (SFdiv 53 1024 price qty))
               else NInt 0
           | _, _ => NInt 0
           end.
Proof.
  eexists. split; [apply calculate_ppum_ok|]. unfold spec_ppum.
  destruct (float_of_str (replace (py_str (Precio_Venta r)) (L ",") (L ".")));
    destruct (DrugParser.qty_val (parsed r)) as [qty_text|]; simpl;
    try reflexivity; destruct (float_of_str qty_text); reflexivity.
Qed.

(** *** The flags *)

Lemma generic_check_ok (clean_name ingredient : str) :
  flags_ok (generic_check FUZZY_AVAILABLE fuzz_ratio clean_name ingredient).
Proof.
  unfold generic_check, flags_ok.
  destruct (contains clean_name ingredient
            && negb (contains clean_name (L "COMPUESTO"))); simpl; auto.
  destruct (Qgt_bool _ 60); simpl; auto.
Qed.

Lemma brand_check_ok (clean_name : str) (brand_list : list str) :
  forall flags, flags_ok flags ->
                flags_ok (brand_check clean_name brand_list flags).
Proof.
  unfold brand_check.
  induction brand_list as [|brand l IH]; intros flags H; simpl.
  - exact H.
  - apply IH. destruct (contains clean_name brand); [|exact H].
    unfold flags_ok. simpl. auto.
Qed.

(** *** The lookup never fails *)

Lemma getitem_in (db : isp_db) (key : str) :
  In key (keys db) -> exists data, getitem db key = Ok data.
Proof.
  induction db as [|[k d] db IH]; simpl.
  - intros [].
  - intros H. destruct (eqb_str k key) eqn:E; [eauto|].
    destruct H as [H|H]; [|auto].
    subst. rewrite eqb_str_refl in E. discriminate.
Qed.

Lemma extractOne_from_in (scorer : str -> str -> Q) (query : str) :
  forall choices best r,
    extractOne_from scorer query choices best = Some r ->
    In (fst r) choices \/ (exists b, best = Some b /\ fst b = fst r).
Proof.
  induction choices as [|c choices IH]; intros best r H; simpl in H.
  - right. eauto.
  - apply IH in H. destruct H as [H|[b [Hb Hr]]]; [left; right; exact H|].
    destruct best as [[c0 s0]|].
    + destruct (Qle_bool (scorer query c) s0).
      * right. eauto.
      * injection Hb as <-. left. left. exact Hr.
    + injection Hb as <-. left. left. exact Hr.
Qed.

Lemma extractOne_in (scorer : str -> str -> Q) (query : str)
    (choices : list str) (choice : str) (score : Q) :
  extractOne scorer query choices = Some (choice, score) -> In choice choices.
Proof.
  intros H. apply extractOne_from_in in H.
  destruct H as [H|[b [Hb _]]]; [exact H | discriminate].
Qed.

Lemma first_brand_key_in (db : isp_db) (clean_name : str) :
  forall best key,
    first_brand_key db clean_name best = Some key ->
    In key (keys db) \/ best = Some key.
Proof.
  induction db as [|[k d] db IH]; intros best key H; simpl in H.
  - right. exact H.
  - destruct (existsb (fun brand => contains clean_name brand) (brands d)).
    + destruct k as [|c k]; simpl in H.
      * apply IH in H. destruct H as [H|H]; [left; right; exact H|].
        injection H as <-. left. left. reflexivity.
      * injection H as <-. left. left. reflexivity.
    + destruct (truthy best) eqn:E.
      * right. exact H.
      * apply IH in H. destruct H as [H|H]; [left; right; exact H|].
        right. exact H.
Qed.

Lemma find_best_match_in (db : isp_db) (clean_name : str) (key : str) :
  find_best_match FUZZY_AVAILABLE token_set_ratio db clean_name = Some key ->
  In key (keys db).
Proof.
  unfold find_best_match. destruct FUZZY_AVAILABLE.
  - destruct (extractOne token_set_ratio clean_name (keys db))
      as [[choice score]|] eqn:E; [|discriminate].
    destruct (Qgt_bool score 85); [|discriminate].
    intros H. injection H as <-. eapply extractOne_in, E.
  - unfold first_key_in.
    destruct (find (fun key => contains clean_name key) (keys db))
      as [k|] eqn:E.
    + apply find_some in E. destruct E as [E _].
      destruct (truthy (Some k)); simpl.
      * intros H. injection H as <-. exact E.
      * intros H. apply first_brand_key_in in H.
        destruct H as [H|H]; [exact H|]. injection H as <-. exact E.
    + simpl. intros H. apply first_brand_key_in in H.
      destruct H as [H|H]; [exact H | discriminate].
Qed.

(** The two ways [_enrich_compliance] goes: nothing found, or the entry of
    the key found. *)
Lemma enrich_cases (self : manager) (r : row) :
  let name := working_name r in
  let db := isp_db_mock self in
  let best_match := find_best_match FUZZY_AVAILABLE token_set_ratio db name in
  (truthy best_match = false
   /\ _enrich_compliance FUZZY_AVAILABLE token_set_ratio fuzz_ratio
        float_of_str round2 self r
      = Ok {| base := r; Active_Ingredient := DESCONOCIDO;
              Is_Bioequivalent := false; Is_Generic := false;
              Calculated_PPUM := spec_ppum float_of_str round2 r |})
  \/ (exists key data,
        best_match = Some key /\ key <> []
        /\ getitem db key = Ok data
        /\ let flags := brand_check name (brands data)
                          (generic_check FUZZY_AVAILABLE fuzz_ratio name
                             (active_ingredient data)) in
           _enrich_compliance FUZZY_AVAILABLE token_set_ratio fuzz_ratio
             float_of_str round2 self r
           = Ok {| base := r; Active_Ingredient := active_ingredient data;
                   Is_Bioequivalent := snd flags; Is_Generic := fst flags;
                   Calculated_PPUM := spec_ppum float_of_str round2 r |}).
Proof.
  cbv zeta. unfold _enrich_compliance.
  rewrite calculate_ppum_ok.
  destruct (find_best_match FUZZY_AVAILABLE token_set_ratio
              (isp_db_mock self) (working_name r)) as [key|] eqn:E.
  - destruct key as [|c key].
    + left. split; reflexivity.
    + right.
      destruct (getitem_in _ _
                  (find_best_match_in _ _ _ E))
        as [data Hd].
      exists (c :: key), data. repeat split; try congruence.
      simpl truthy. cbv iota. rewrite Hd. reflexivity.
  - left. split; reflexivity.
Qed.



(** *** The reverse lookup *)

Lemma first_brand_key_first (clean_name : str) :
  forall db,
    Forall (fun e => fst e <> []) db ->
    (exists e, In e db /\ has_brand_in clean_name e = true) ->
    exists pre key data post,
      db = pre ++ (key, data) :: post
      /\ Forall (fun e => has_brand_in clean_name e = false) pre
      /\ has_brand_in clean_name (key, data) = true
      /\ first_brand_key db clean_name None = Some key.
Proof.
  induction 1 as [|[k d] db Hk Hdb IH]; intros [e [Hin He]].
  - destruct Hin.
  - simpl in Hk. destruct (has_brand_in clean_name (k, d)) eqn:E.
    + exists [], k, d, db. repeat split; auto.
      unfold has_brand_in in E. simpl in *. rewrite E.
      destruct k; [congruence | reflexivity].
    + destruct IH as (pre & key & data & post & -> & Hpre & Hb & Hf).
      * destruct Hin as [<-|Hin]; [congruence | eauto].
      * exists ((k, d) :: pre), key, data, post. repeat split; auto.
        unfold has_brand_in in E. simpl in *. rewrite E. simpl. exact Hf.
Qed.

Lemma getitem_middle (pre post : isp_db) (key : str) (data : isp_entry) :
  ~ In key (keys pre) -> getitem (pre ++ (key, data) :: post) key = Ok data.
Proof.
  induction pre as [|[k d] pre IH]; simpl; intros H.
  - rewrite eqb_str_refl. reflexivity.
  - destruct (eqb_str k key) eqn:E.
    + apply eqb_str_eq in E. tauto.
    + apply IH. tauto.
Qed.

(** The reverse lookup is made on the path without [rapidfuzz]: when the
    registry is well formed, no key of the registry is in the name and some
    brand of the registry is, the ingredient is resolved.  It is the
    ingredient of the first entry of the registry one of whose brands is in
    the name, and so it is not DESCONOCIDO. *)
Lemma reverse_lookup_fallback (self : manager) (r : row) :
  well_formed (isp_db_mock self) ->
  first_key_in (isp_db_mock self) (working_name r) = None ->
  (exists key data brand,
      In (key, data) (isp_db_mock self)
      /\ In brand (brands data)
      /\ contains (working_name r) brand = true) ->
  exists e pre key data post,
    _enrich_compliance false token_set_ratio fuzz_ratio float_of_str round2
      self r = Ok e
    /\ isp_db_mock self = pre ++ (key, data) :: post
    /\ Forall (fun e => has_brand_in (working_name r) e = false) pre
    /\ has_brand_in (working_name r) (key, data) = true
    /\ Active_Ingredient e = active_ingredient data
    /\ Active_Ingredient e <> DESCONOCIDO.
Proof.
  intros [Hnd Hwf] Hkey (key0 & data0 & brand & Hin & Hb & Hc).
  destruct (first_brand_key_first (working_name r) (isp_db_mock self))
    as (pre & key & data & post & Hdb & Hpre & Hhas & Hfirst).
  { eapply Forall_impl; [|exact Hwf]. intros e [He _]. exact He. }
  { exists (key0, data0). split; [exact Hin|].
    unfold has_brand_in. apply existsb_exists. eauto. }
  assert (Hkd : fst (key, data) <> []
                /\ active_ingredient (snd (key, data)) <> DESCONOCIDO).
  { revert Hwf. rewrite Hdb, Forall_app. intros [_ H].
    inversion H; subst. assumption. }
  destruct Hkd as [Hk Hd]. simpl in Hk, Hd.
  assert (Hget : getitem (isp_db_mock self) key = Ok data).
  { rewrite Hdb. apply getitem_middle.
    rewrite Hdb in Hnd. unfold keys in Hnd. rewrite map_app in Hnd.
    simpl in Hnd. apply NoDup_remove_2 in Hnd.
    intros H. apply Hnd. apply in_or_app. left. exact H. }
  unfold _enrich_compliance, find_best_match.
  rewrite Hkey. simpl negb. cbv iota. rewrite Hfirst.
  assert (Ht : truthy (Some key) = true) by (destruct key; [congruence | reflexivity]).
  rewrite Ht, Hget, calculate_ppum_ok. simpl.
  eexists _, pre, key, data, post. repeat split; auto.
Qed.

End WithLibraries.

(** A generic of the registry gets both flags; a brand gets the second
    only.  The second example is the scenario of the specification: the
    clean name PARACETAMOL 500 MG against the ingredient of that key. *)
Example classify_generic :
  exists e,
    _enrich_compliance true RapidFuzz.token_set_ratio RapidFuzz.ratio
      Builtins.float_of_str Builtins.round2 (__init__ [])
      (from_csv (L "PARACETAMOL 500 MG X 20 COMP") (PyInt 1990))
    = Ok e
    /\ Active_Ingredient e = L "PARACETAMOL"
    /\ Is_Generic e = true /\ Is_Bioequivalent e = true.
Proof. vm_compute. eexists. repeat split. Qed.

Example classify_scenario :
  let r := {| Producto := PyStr (L "PARACETAMOL 500 MG");
              Precio_Venta := PyInt 1990;
              parsed := nothing_extracted (L "PARACETAMOL 500 MG") |} in
  exists e,
    _enrich_compliance false RapidFuzz.token_set_ratio RapidFuzz.ratio
      Builtins.float_of_str Builtins.round2 (__init__ []) r = Ok e
    /\ Active_Ingredient e = L "PARACETAMOL"
    /\ Is_Generic e = true /\ Is_Bioequivalent e = true.
Proof. vm_compute. eexists. repeat split. Qed.

Example classify_brand :
  exists e,
    _enrich_compliance false RapidFuzz.token_set_ratio RapidFuzz.ratio
      Builtins.float_of_str Builtins.round2 (__init__ [])
      (from_csv (L "KITADOL 500 MG X 24 COMP") (PyInt 3290)) = Ok e
    /\ Active_Ingredient e = L "PARACETAMOL"
    /\ Is_Generic e = false /\ Is_Bioequivalent e = true.
Proof. vm_compute. eexists. repeat split. Qed.

(** The registry of the repository is well formed. *)
Lemma mock_well_formed (path : str) : well_formed (isp_db_mock (__init__ path)).
Proof.
  split.
  - simpl. repeat constructor; simpl; intuition discriminate.
  - simpl. repeat constructor; simpl; discriminate.
Qed.

Lemma reverse_lookup_fallback_witness :
  exists e,
    _enrich_compliance false RapidFuzz.token_set_ratio RapidFuzz.ratio
      Builtins.float_of_str Builtins.round2 (__init__ [])
      (from_csv (L "PANADOL 500 MG X 16 COMP") (PyInt 2490)) = Ok e
    /\ Active_Ingredient e = L "PARACETAMOL".
Proof.
  destruct (reverse_lookup_fallback RapidFuzz.token_set_ratio RapidFuzz.ratio
              Builtins.float_of_str Builtins.round2 (__init__ [])
              (from_csv (L "PANADOL 500 MG X 16 COMP") (PyInt 2490)))
    as (e & pre & key & data & post & He & _).
  - apply mock_well_formed.
  - vm_compute. reflexivity.
  - exists (L "PARACETAMOL 500 MG"),
      {| generics := [L "PARACETAMOL 500 MG"];
         brands := [L "PANADOL"; L "KITADOL"];
         active_ingredient := L "PARACETAMOL" |}, (L "PANADOL").
    vm_compute. intuition.
  - exists e. split; [exact He|].
    vm_compute in He. injection He as <-. reflexivity.
Defined.

(** With [rapidfuzz] the reverse lookup of the specification fails for
    this row: the name PANADOL scores 40 against the key of its ingredient,
    no key passes 85, and the brands are not looked at. *)
Lemma reverse_lookup_missing_with_rapidfuzz :
  ~ reverse_lookup_resolves true RapidFuzz.token_set_ratio RapidFuzz.ratio
      Builtins.float_of_str Builtins.round2 (__init__ [])
      (from_csv (L "PANADOL 500 MG X 16 COMP") (PyInt 2490)).
Proof.
  unfold reverse_lookup_resolves. intros H.
  destruct H as (e & He & Hne).
  - vm_compute. reflexivity.
  - exists (L "PARACETAMOL 500 MG"),
      {| generics := [L "PARACETAMOL 500 MG"];
         brands := [L "PANADOL"; L "KITADOL"];
         active_ingredient := L "PARACETAMOL" |}, (L "PANADOL").
    vm_compute. intuition.
  - vm_compute in He. injection He as <-. apply Hne. reflexivity.
Qed.

(** C6 at a brand of the registry.  No key of the registry is in the name
    PANADOL 500 MG X 16 COMP cleaned, and PANADOL, a brand of the entry of
    paracetamol, is.  Without [rapidfuzz] the reverse lookup finds the
    entry: the ingredient is PARACETAMOL and the row is a bioequivalent
    brand.  With [rapidfuzz] the brands are not looked at: the row stays
    DESCONOCIDO and is not flagged bioequivalent. *)
Theorem reverse_lookup_only_without_rapidfuzz :
  let self := __init__ [] in
  let r := from_csv (L "PANADOL 500 MG X 16 COMP") (PyInt 2490) in
  first_key_in (isp_db_mock self) (working_name r) = None
  /\ (exists data,
        getitem (isp_db_mock self) (L "PARACETAMOL 500 MG") = Ok data
        /\ In (L "PANADOL") (brands data)
        /\ contains (working_name r) (L "PANADOL") = true)
  /\ (exists e,
        _enrich_compliance true RapidFuzz.token_set_ratio RapidFuzz.ratio
          Builtins.float_of_str Builtins.round2 self r = Ok e
        /\ Active_Ingredient e = DESCONOCIDO
        /\ Is_Bioequivalent e = false /\ Is_Generic e = false)
  /\ (exists e,
        _enrich_compliance false RapidFuzz.token_set_ratio RapidFuzz.ratio
          Builtins.float_of_str Builtins.round2 self r = Ok e
        /\ Active_Ingredient e = L "PARACETAMOL"
        /\ Is_Bioequivalent e = true /\ Is_Generic e = false).
Proof.
  cbv zeta. split; [vm_compute; reflexivity|]. split; [|split].
  - eexists. split; [reflexivity|]. split; [left; reflexivity|].
    vm_compute. reflexivity.
  - vm_compute. eexists. split; [reflexivity|]. repeat split.
  - vm_compute. eexists. split; [reflexivity|]. repeat split.
Qed.

(** C8 at a row without a price.  The cell of a line of the file that has
    no price is NaN, and its text, [nan], is a number for [float]: nothing
    is raised, the quantity 20 is above zero, and [_calculate_ppum] returns
    the quotient rounded, which is NaN, where the specification wants 0.
    For a price that [float] refuses, and for a row without a quantity, it
    does return 0; for the price 1990 it returns 99.5. *)
Theorem calculate_ppum_missing_price :
  let ppum := _calculate_ppum Builtins.float_of_str Builtins.round2 in
  let name := L "PARACETAMOL 500 MG X 20 COMP" in
  DrugParser.qty_val (parsed (from_csv name (PyFloat (L "nan"))))
  = Some (L "20")
  /\ ppum (from_csv name (PyFloat (L "nan"))) = Ok (NFloat S754_nan)
  /\ ppum (from_csv name (PyFloat (L "nan"))) <> Ok (NInt 0)
  /\ ppum (from_csv name (PyStr (L "sin precio"))) = Ok (NInt 0)
  /\ ppum (from_csv (L "PARACETAMOL 500 MG") (PyFloat (L "nan")))
     = Ok (NInt 0)
  /\ Some (ppum (from_csv name (PyInt 1990)))
     = option_map (fun x => Ok (NFloat x)) (Builtins.float_of_str (L "99.5")).
Proof. vm_compute. repeat split. discriminate. Qed.

End DataManagerFacts.

(** ** What the matcher consumed *)

Lemma consumed_app (before before' x after : list ascii) :
  consumed (before, x ++ after) (before', after) = x.
Proof.
  unfold consumed. simpl. rewrite length_app.
  replace (length x + length after - length after) with (length x) by lia.
  rewrite firstn_app, Nat.sub_diag, firstn_all. simpl.
  apply app_nil_r.
Qed.

Lemma star_loop_sound (r : regex) :
  (forall before ahead caps (k : cont) res,
      rmatch r (before, ahead) caps k = Some res ->
      exists x after caps1,
        ahead = x ++ after /\ matches r before x after caps caps1
        /\ k (rev x ++ before, after) caps1 = Some res) ->
  forall (k : cont) n before ahead caps res,
    star_loop (rmatch r) k n (before, ahead) caps = Some res ->
    exists x after caps1,
      ahead = x ++ after /\ matches (RStar r) before x after caps caps1
      /\ k (rev x ++ before, after) caps1 = Some res.
Proof.
  intros Hbody k n.
  induction n as [|n IH]; intros before ahead caps res H; simpl in H.
  - exists [], ahead, caps. repeat split; [constructor | exact H].
  - destruct (rmatch r (before, ahead) caps _) as [m|] eqn:E.
    + injection H as ->. apply Hbody in E.
      destruct E as (x & after & caps1 & -> & Hm & Hk).
      cbn [snd] in Hk.
      destruct (length after <? length (x ++ after)); [|discriminate].
      apply IH in Hk.
      destruct Hk as (y & after' & caps2 & -> & Hs & Hk).
      exists (x ++ y), after', caps2. split; [apply app_assoc|].
      split; [econstructor; eassumption|].
      rewrite rev_app_distr, <- app_assoc. exact Hk.
    + exists [], ahead, caps. repeat split; [constructor | exact H].
Qed.

(** Whatever the matcher accepts is a match: the continuation was called
    after a text the pattern matches. *)
Lemma rmatch_sound (r : regex) :
  forall before ahead caps (k : cont) res,
    rmatch r (before, ahead) caps k = Some res ->
    exists x after caps1,
      ahead = x ++ after /\ matches r before x after caps caps1
      /\ k (rev x ++ before, after) caps1 = Some res.
Proof.
  induction r as [|p|r1 IH1 r2 IH2|r1 IH1 r2 IH2|r1 IH1| | | |n r1 IH1];
    intros before ahead caps k res H.
  - exists [], ahead, caps. repeat split; [constructor | exact H].
  - rewrite rmatch_char in H. destruct ahead as [|c rest]; [discriminate|].
    destruct (p c) eqn:Ep; [|discriminate].
    exists [c], rest, caps. repeat split; [constructor; exact Ep | exact H].
  - rewrite rmatch_seq in H. apply IH1 in H.
    destruct H as (x & after & caps1 & -> & Hm & Hk).
    apply IH2 in Hk. destruct Hk as (y & after' & caps2 & -> & Hm2 & Hk).
    exists (x ++ y), after', caps2. split; [apply app_assoc|].
    split; [econstructor; eassumption|].
    rewrite rev_app_distr, <- app_assoc. exact Hk.
  - simpl in H. destruct (rmatch r1 (before, ahead) caps k) as [m|] eqn:E.
    + injection H as ->. apply IH1 in E.
      destruct E as (x & after & caps1 & -> & Hm & Hk).
      exists x, after, caps1. repeat split; [apply M_alt_l; exact Hm | exact Hk].
    + apply IH2 in H. destruct H as (x & after & caps1 & -> & Hm & Hk).
      exists x, after, caps1. repeat split; [apply M_alt_r; exact Hm | exact Hk].
  - simpl in H. eapply star_loop_sound; eassumption.
  - simpl in H. destruct before; [|discriminate].
    exists [], ahead, caps. repeat split; [constructor | exact H].
  - simpl in H. destruct (at_end (before, ahead)) eqn:E; [|discriminate].
    exists [], ahead, caps. repeat split; [constructor; exact E | exact H].
  - rewrite rmatch_wordb in H.
    destruct (at_word_boundary (before, ahead)) eqn:E; [|discriminate].
    exists [], ahead, caps. repeat split; [constructor; exact E | exact H].
  - simpl in H. apply IH1 in H.
    destruct H as (x & after & caps1 & -> & Hm & Hk).
    rewrite consumed_app in Hk.
    exists x, after, ((n, x) :: caps1).
    repeat split; [constructor; exact Hm | exact Hk].
Qed.

Lemma matches_group_free (r : regex) before x after caps caps1 :
  matches r before x after caps caps1 -> group_free r = true -> caps1 = caps.
Proof.
  induction 1; simpl; intros Hg; try reflexivity;
    try (apply andb_true_iff in Hg; destruct Hg as [Hg1 Hg2]);
    try discriminate; auto.
  - rewrite IHmatches2, IHmatches1; auto.
  - rewrite IHmatches2, IHmatches1; auto.
Qed.

Lemma matches_star_class (p : ascii -> bool) before x after caps caps1 :
  matches (RStar (RChar p)) before x after caps caps1 ->
  forallb p x = true.
Proof.
  intros H. remember (RStar (RChar p)) as r eqn:Er.
  induction H; try discriminate; [reflexivity|].
  injection Er as ->. inversion H; subst. simpl.
  match goal with Hp : p _ = true |- _ => rewrite Hp end.
  simpl. apply IHmatches2. reflexivity.
Qed.

Lemma matches_digits before x after caps caps1 :
  matches DrugParser.digits before x after caps caps1 -> is_number x.
Proof.
  unfold DrugParser.digits, RPlus. intros H. inversion H; subst.
  match goal with
  | Hc : matches (RChar _) _ _ _ _ _, Hs : matches (RStar _) _ _ _ _ _ |- _ =>
      inversion Hc; subst; apply matches_star_class in Hs;
      split; [discriminate|]; simpl;
      match goal with Hp : is_digit _ = true |- _ => rewrite Hp end;
      exact Hs
  end.
Qed.

Lemma search_from_sound (r : regex) :
  forall ahead before m,
    search_from r before ahead = Some m ->
    exists pre x post,
      ahead = pre ++ x ++ post
      /\ matches r (rev pre ++ before) x post [] (m_caps m)
      /\ m_group0 m = x.
Proof.
  induction ahead as [|c ahead IH]; intros before m H; simpl in H.
  - destruct (match_at r (before, [])) as [[z' caps]|] eqn:E; [|discriminate].
    injection H as <-. unfold match_at in E. apply rmatch_sound in E.
    destruct E as (x & after & caps1 & Ha & Hm & Hk).
    injection Hk as <- <-. exists [], x, after. simpl.
    repeat split; try assumption. rewrite Ha. apply consumed_app.
  - destruct (match_at r (before, c :: ahead)) as [[z' caps]|] eqn:E.
    + injection H as <-. unfold match_at in E. apply rmatch_sound in E.
      destruct E as (x & after & caps1 & Ha & Hm & Hk).
      injection Hk as <- <-. exists [], x, after. simpl.
      repeat split; try assumption. rewrite Ha. apply consumed_app.
    + apply IH in H. destruct H as (pre & x & post & -> & Hm & Hg).
      exists (c :: pre), x, post. simpl. rewrite <- app_assoc.
      repeat split; assumption.
Qed.

(** A literal under IGNORECASE, and the first of several literals. *)
Lemma rmatch_lit_ci (w : str) (k : cont) :
  forall before ahead caps,
    rmatch (fold_right (fun a r => RSeq (chr true a) r) REps w)
      (before, ahead) caps k
    = if startswith_ci ahead w
      then k (rev (firstn (length w) ahead) ++ before,
              skipn (length w) ahead) caps
      else None.
Proof.
  induction w as [|a w IH]; intros before ahead caps.
  - reflexivity.
  - cbn [fold_right]. rewrite rmatch_seq. unfold chr at 1.
    rewrite rmatch_char. destruct ahead as [|c rest]; [reflexivity|].
    cbn [startswith_ci length firstn skipn].
    destruct (Ascii.eqb (upper_char c) (upper_char a)); [|reflexivity].
    rewrite IH. simpl. rewrite <- app_assoc. reflexivity.
Qed.

Lemma rmatch_first_literal (ws : list string) (k : cont) :
  (forall z caps, k z caps <> None) ->
  forall before ahead caps,
    rmatch (alts (map (lit true) ws)) (before, ahead) caps k
    = match find (fun w => startswith_ci ahead (L w)) ws with
      | Some w => k (rev (firstn (length (L w)) ahead) ++ before,
                     skipn (length (L w)) ahead) caps
      | None => None
      end.
Proof.
  intros Hk before ahead caps.
  induction ws as [|w ws IH]; [destruct ahead; reflexivity|].
  cbn [map find].
  assert (Hw : rmatch (lit true w) (before, ahead) caps k
               = if startswith_ci ahead (L w)
                 then k (rev (firstn (length (L w)) ahead) ++ before,
                         skipn (length (L w)) ahead) caps
                 else None) by apply rmatch_lit_ci.
  destruct ws as [|w' ws].
  - cbn [map alts find]. rewrite Hw.
    destruct (startswith_ci ahead (L w)); reflexivity.
  - change (alts (lit true w :: map (lit true) (w' :: ws)))
      with (RAlt (lit true w) (alts (map (lit true) (w' :: ws)))).
    cbn [rmatch]. rewrite Hw, IH.
    destruct (startswith_ci ahead (L w)); [|reflexivity].
    destruct (k _ caps) eqn:E; [reflexivity|]. apply Hk in E. destruct E.
Qed.

Lemma startswith_ci_upper_closed (w : str) :
  upper_closed w ->
  forall s, upper_closed s -> startswith_ci s w = true ->
            firstn (length w) s = w.
Proof.
  induction 1 as [|a w Ha _ IH]; intros s Hs H; [reflexivity|].
  destruct s as [|c s]; [discriminate|]. simpl in H.
  apply andb_true_iff in H. destruct H as [Hc H].
  inversion Hs as [|? ? Hcc Hs']; subst.
  apply Ascii.eqb_eq in Hc. rewrite Hcc, Ha in Hc. subst.
  simpl. f_equal. apply IH; assumption.
Qed.

Lemma startswith_ci_length (w s : str) :
  startswith_ci s w = true -> length w <= length s.
Proof.
  revert s. induction w as [|a w IH]; intros s H; simpl; [lia|].
  destruct s as [|c s]; [discriminate|]. simpl in H.
  apply andb_true_iff in H. destruct H as [_ H]. apply IH in H.
  simpl. lia.
Qed.

Lemma consumed_firstn (before before' ahead : list ascii) (n : nat) :
  n <= length ahead ->
  consumed (before, ahead) (before', skipn n ahead) = firstn n ahead.
Proof.
  intros Hn. rewrite <- (firstn_skipn n ahead) at 1.
  rewrite consumed_app. reflexivity.
Qed.

(** The tail the two field patterns share: a value in group 1, white
    space, one of several literal units in group 2. *)
Lemma value_unit_sound (V : regex) (ws : list string) :
  group_free V = true ->
  forall before ahead caps res,
    rmatch (RSeq (RGroup 1 V)
              (RSeq DrugParser.spaces0
                 (RGroup 2 (alts (map (lit true) ws)))))
      (before, ahead) caps (fun z' caps' => Some (z', caps')) = Some res ->
    exists v sp rest w,
      ahead = v ++ sp ++ rest
      /\ matches V before v (sp ++ rest) caps caps
      /\ find (fun w => startswith_ci rest (L w)) ws = Some w
      /\ snd res = (2, firstn (length (L w)) rest) :: (1, v) :: caps.
Proof.
  intros Hg before ahead caps res H.
  rewrite rmatch_seq in H. apply rmatch_sound in H.
  destruct H as (v & after & caps1 & -> & Hv & H).
  inversion Hv as [| | | | | | | | | |n r b x a c c1 Hv']; subst.
  pose proof (matches_group_free _ _ _ _ _ _ Hv' Hg) as ->.
  rewrite rmatch_seq in H. apply rmatch_sound in H.
  destruct H as (sp & rest & caps2 & -> & Hsp & H).
  apply matches_group_free in Hsp; [|reflexivity]. subst caps2.
  cbn [rmatch] in H.
  rewrite rmatch_first_literal in H by discriminate.
  destruct (find (fun w => startswith_ci rest (L w)) ws) as [w|] eqn:Ef;
    [|discriminate].
  injection H as <-. cbn [snd].
  exists v, sp, rest, w. repeat split; try assumption.
  apply find_some in Ef. destruct Ef as [_ Ef].
  apply startswith_ci_length in Ef.
  rewrite consumed_firstn by exact Ef. reflexivity.
Qed.

(** ** More on the field extractor *)

Module DrugParserShape.
Import DrugParser.

Lemma upper_fixed_not_lower (c : ascii) : upper_char c = c -> is_lower c = false.
Proof. all_chars c. Qed.

Lemma search_residue_none (c : str) :
  Forall (fun w => is_x_residue w = false) (word_runs c) ->
  search REGEX_X_RESIDUE c = None.
Proof.
  intros H. destruct (SmartMatchFacts.search_dec REGEX_X_RESIDUE c) as [E|E];
    [exact E | exfalso].
  pose proof (SmartMatchFacts.sub_from_shorter _ _ x_residue_whole_word
                DrugParserFacts.is_x_residue_nil c [] E) as Hlt.
  fold (re_sub REGEX_X_RESIDUE [] c) in Hlt.
  rewrite (re_sub_remove _ _ x_residue_whole_word
             DrugParserFacts.is_x_residue_nil) in Hlt.
  rewrite (remove_acc_fixed _ DrugParserFacts.is_x_residue_nil c [] H) in Hlt.
  simpl in Hlt. lia.
Qed.

(** X1. For every string, the clean name [parse] returns has none of the
    letters [a-z], neither starts nor ends with white space, has no white
    space other than the space character, and has no word of the form [X]
    followed by digits; the laboratory is trimmed too. *)
Theorem parse_clean_name_invariant (s : str) :
  let p := parse_str s in
  Forall (fun a => is_lower a = false) (clean_name p)
  /\ trimmed (clean_name p) = true
  /\ Forall (fun a => is_space a = true -> a = space) (clean_name p)
  /\ search REGEX_X_RESIDUE (clean_name p) = None
  /\ trimmed (lab p) = true.
Proof.
  cbv zeta. repeat split.
  - eapply Forall_impl; [|apply DrugParserFacts.clean_name_upper_closed].
    intros a. apply upper_fixed_not_lower.
  - apply DrugParserFacts.clean_name_trimmed.
  - apply DrugParserFacts.clean_name_spaces.
  - apply search_residue_none, DrugParserFacts.clean_name_no_residue.
  - unfold parse_str. cbn [negb py_str lab].
    destruct (search REGEX_LAB (strip (upper s)));
      [apply strip_trimmed | reflexivity].
Qed.

(** X2. [parse] only takes text away: the clean name is never longer than
    the field [original], which is the input in capitals without the white
    space around it; and for an ASCII input, whose capitals are as many
    characters, [original] is never longer than the input. *)
Theorem parse_only_removes (s : str) :
  let p := parse_str s in
  original p = strip (upper s)
  /\ length (clean_name p) <= length (original p)
  /\ (forallb is_ascii s = true -> length (original p) <= length s).
Proof.
  cbv zeta. unfold parse_str.
  cbn [negb py_str clean_name original].
  split; [reflexivity|]. split.
  - set (t0 := strip (upper s)).
    set (t1 := match search REGEX_LAB t0 with
               | Some m => replace t0 (group m 0) []
               | None => t0
               end).
    assert (H1 : length t1 <= length t0).
    { unfold t1. destruct (search REGEX_LAB t0) as [m|] eqn:E; [|lia].
      apply (search_from_group0 REGEX_LAB eq_refl) in E.
      destruct E as [Hne _].
      apply replace_length; [simpl; lia | exact Hne]. }
    clearbody t1.
    pose proof (DrugParserFacts.take_out_length REGEX_DOSIS t1 eq_refl) as H2.
    set (t2 := match search REGEX_DOSIS t1 with
               | Some m => replace t1 (group m 0) [space]
               | None => t1
               end) in *.
    clearbody t2.
    pose proof (DrugParserFacts.take_out_length REGEX_CANTIDAD t2 eq_refl)
      as H3.
    set (t3 := match search REGEX_CANTIDAD t2 with
               | Some m => replace t2 (group m 0) [space]
               | None => t2
               end) in *.
    clearbody t3.
    pose proof (DrugParserFacts.clean_up_length t3). lia.
  - intros _. etransitivity; [apply strip_length|].
    rewrite upper_length. lia.
Qed.

End DrugParserShape.

(** ** The fields of the extractor *)

Module DrugParserFields.
Import DrugParser.

Lemma search_from_match_at (r : regex) :
  forall ahead before m,
    search_from r before ahead = Some m ->
    exists pre rest res,
      ahead = pre ++ rest
      /\ match_at r (rev pre ++ before, rest) = Some res
      /\ m_caps m = snd res.
Proof.
  induction ahead as [|c ahead IH]; intros before m H; simpl in H.
  - destruct (match_at r (before, [])) as [[z' caps]|] eqn:E; [|discriminate].
    injection H as <-. exists [], [], (z', caps). auto.
  - destruct (match_at r (before, c :: ahead)) as [[z' caps]|] eqn:E.
    + injection H as <-. exists [], (c :: ahead), (z', caps). auto.
    + apply IH in H. destruct H as (pre & rest & res & -> & Hm & Hc).
      exists (c :: pre), rest, res. simpl. rewrite <- app_assoc. auto.
Qed.

Lemma startswith_ci_app (s p q : str) :
  startswith_ci s (p ++ q) = true -> startswith_ci s p = true.
Proof.
  revert s. induction p as [|a p IH]; intros s H; [reflexivity|].
  destruct s as [|c s]; [discriminate|]. simpl in *.
  apply andb_true_iff in H. destruct H as [-> H]. simpl. eauto.
Qed.

Lemma upper_closed_app (s t : str) :
  upper_closed (s ++ t) -> upper_closed s /\ upper_closed t.
Proof. apply Forall_app. Qed.

(** What the dose pattern leaves in its two groups. *)
Lemma dosis_groups (t : str) (m : match_obj) :
  upper_closed t -> search REGEX_DOSIS t = Some m ->
  (exists ds frac,
      group m 1 = ds ++ frac /\ is_number ds
      /\ (frac = []
          \/ exists sep fs,
               frac = sep :: fs
               /\ (sep = "."%char \/ sep = ","%char) /\ is_number fs))
  /\ In (group m 2) dose_units.
Proof.
  intros Ht H. apply search_from_match_at in H.
  destruct H as (pre & rest & res & -> & H & Hc).
  apply upper_closed_app in Ht. destruct Ht as [_ Ht].
  unfold match_at, REGEX_DOSIS in H. apply value_unit_sound in H;
    [|reflexivity].
  destruct H as (v & sp & rest' & w & -> & Hv & Hf & Hres).
  apply upper_closed_app in Ht. destruct Ht as [_ Ht].
  apply upper_closed_app in Ht. destruct Ht as [_ Ht].
  unfold group. rewrite Hc, Hres. cbn [find fst snd Nat.eqb]. split.
  - inversion Hv; subst; clear Hv.
    match goal with
    | Hd : matches digits _ ?ds _ _ _, Hy : matches (ROpt _) _ ?y _ _ _ |- _ =>
        exists ds, y; split; [reflexivity|];
        split; [eapply matches_digits; exact Hd|];
        unfold ROpt in Hy; inversion Hy; subst; clear Hy
    end.
    + right.
      match goal with
      | Hl : matches (RSeq _ _) _ _ _ _ _ |- _ =>
          inversion Hl; subst; clear Hl
      end.
      match goal with
      | Hs : matches (RChar _) _ _ _ _ _, Hfs : matches digits _ ?fs _ _ _
        |- _ =>
          inversion Hs; subst; clear Hs;
          match goal with
          | Hp : (_ || _) = true |- _ =>
              eexists _, fs; split; [reflexivity|]; split;
              [apply orb_true_iff in Hp;
               destruct Hp as [Hp|Hp]; apply Ascii.eqb_eq in Hp; auto
              |eapply matches_digits; exact Hfs]
          end
      end.
    + left.
      match goal with
      | Hr : matches REps _ _ _ _ _ |- _ => inversion Hr; reflexivity
      end.
  - assert (Hw : forall u, w = u -> upper_closed (L u) ->
                           firstn (length (L w)) rest' = L u).
    { intros u -> Hu. apply startswith_ci_upper_closed; auto.
      apply find_some in Hf. tauto. }
    assert (Hup : forall u, In u ["MG"; "G"; "MCG"; "ML"; "%"; "UI"]%string ->
                            upper_closed (L u)).
    { intros u Hu. simpl in Hu.
      repeat (destruct Hu as [<-|Hu];
              [repeat constructor|]). destruct Hu. }
    cbn [find] in Hf.
    destruct (startswith_ci rest' (L "MG")) eqn:E1;
      [injection Hf as <-; rewrite (Hw "MG"%string eq_refl);
       [simpl; auto | apply Hup; simpl; auto]|].
    destruct (startswith_ci rest' (L "G")) eqn:E2;
      [injection Hf as <-; rewrite (Hw "G"%string eq_refl);
       [simpl; auto | apply Hup; simpl; auto]|].
    destruct (startswith_ci rest' (L "GR")) eqn:E3.
    { apply (startswith_ci_app rest' (L "G") (L "R")) in E3. congruence. }
    destruct (startswith_ci rest' (L "MCG")) eqn:E4;
      [injection Hf as <-; rewrite (Hw "MCG"%string eq_refl);
       [simpl; auto | apply Hup; simpl; auto]|].
    destruct (startswith_ci rest' (L "ML")) eqn:E5;
      [injection Hf as <-; rewrite (Hw "ML"%string eq_refl);
       [simpl; auto 6 | apply Hup; simpl; auto 6]|].
    destruct (startswith_ci rest' (L "%")) eqn:E6;
      [injection Hf as <-; rewrite (Hw "%"%string eq_refl);
       [simpl; auto 7 | apply Hup; simpl; auto 7]|].
    destruct (startswith_ci rest' (L "UI")) eqn:E7;
      [injection Hf as <-; rewrite (Hw "UI"%string eq_refl);
       [simpl; auto 8 | apply Hup; simpl; auto 8]|].
    destruct (startswith_ci rest' (L "GRS")) eqn:E8; [|discriminate].
    apply (startswith_ci_app rest' (L "G") (L "RS")) in E8. congruence.
Qed.

(** What the quantity pattern leaves in its two groups. *)
Lemma cantidad_groups (t : str) (m : match_obj) :
  upper_closed t -> search REGEX_CANTIDAD t = Some m ->
  is_number (group m 1) /\ In (group m 2) quantity_units.
Proof.
  intros Ht H. apply search_from_match_at in H.
  destruct H as (pre & rest & res & -> & H & Hc).
  apply upper_closed_app in Ht. destruct Ht as [_ Ht].
  unfold match_at, REGEX_CANTIDAD in H.
  rewrite rmatch_seq in H. apply rmatch_sound in H.
  destruct H as (x & after & caps1 & -> & Hx & H).
  apply matches_group_free in Hx; [|reflexivity]. subst caps1.
  apply upper_closed_app in Ht. destruct Ht as [_ Ht].
  apply value_unit_sound in H; [|reflexivity].
  destruct H as (v & sp & rest' & w & -> & Hv & Hf & Hres).
  apply upper_closed_app in Ht. destruct Ht as [_ Ht].
  apply upper_closed_app in Ht. destruct Ht as [_ Ht].
  unfold group. rewrite Hc, Hres. cbn [find fst snd Nat.eqb]. split.
  - eapply matches_digits; exact Hv.
  - pose proof (find_some _ _ Hf) as [Hin Hs].
    assert (Hu : upper_closed (L w)).
    { simpl in Hin.
      repeat (destruct Hin as [<-|Hin]; [repeat constructor|]).
      destruct Hin. }
    rewrite (startswith_ci_upper_closed (L w) Hu rest' Ht Hs).
    unfold quantity_units. apply in_map. exact Hin.
Qed.

Lemma parse_texts (s : str) :
  exists t1 t2,
    upper_closed t1 /\ upper_closed t2
    /\ dose_val (parse_str s)
       = option_map (fun m => group m 1) (search REGEX_DOSIS t1)
    /\ dose_unit (parse_str s)
       = option_map (fun m => group m 2) (search REGEX_DOSIS t1)
    /\ qty_val (parse_str s)
       = option_map (fun m => group m 1) (search REGEX_CANTIDAD t2)
    /\ qty_unit (parse_str s)
       = option_map (fun m => group m 2) (search REGEX_CANTIDAD t2).
Proof.
  unfold parse_str.
  cbn [negb py_str dose_val dose_unit qty_val qty_unit].
  pose proof (strip_Forall _ _ (DrugParserFacts.upper_upper_closed s)) as H0.
  fold (upper_closed (strip (upper s))) in H0.
  set (t0 := strip (upper s)) in *. clearbody t0.
  set (t1 := match search REGEX_LAB t0 with
             | Some m => replace t0 (group m 0) []
             | None => t0
             end).
  assert (H1 : upper_closed t1).
  { unfold t1. destruct (search REGEX_LAB t0);
      auto using DrugParserFacts.replace_nil_upper_closed. }
  clearbody t1.
  set (t2 := match search REGEX_DOSIS t1 with
             | Some m => replace t1 (group m 0) [space]
             | None => t1
             end).
  assert (H2 : upper_closed t2).
  { unfold t2. destruct (search REGEX_DOSIS t1);
      auto using DrugParserFacts.replace_space_upper_closed. }
  exists t1, t2. repeat split; assumption.
Qed.

(** X3. The fields [parse] extracts from an ASCII text are well formed.
    A dose value is a number, or two numbers around a point or a comma; a
    quantity value is a number (one decimal digit or more).  The units are
    in capitals and come from a fixed list: MG, G, MCG, ML, % and UI for
    the dose, so that GR and GRS, which the pattern names after G, are never
    returned; the ten units of the pattern for the quantity.  (Outside
    ASCII, IGNORECASE lets a few other characters stand for a letter of a
    unit.) *)
Theorem parse_fields_shape (s : str) :
  forallb is_ascii s = true ->
  let p := parse_str s in
  (forall d, dose_val p = Some d ->
     exists ds frac,
       d = ds ++ frac /\ is_number ds
       /\ (frac = []
           \/ exists sep fs,
                frac = sep :: fs
                /\ (sep = "."%char \/ sep = ","%char) /\ is_number fs))
  /\ (forall u, dose_unit p = Some u -> In u dose_units)
  /\ (forall q, qty_val p = Some q -> is_number q)
  /\ (forall u, qty_unit p = Some u -> In u quantity_units).
Proof.
  intros _. cbv zeta.
  destruct (parse_texts s) as (t1 & t2 & H1 & H2 & -> & -> & -> & ->).
  split; [|split; [|split]].
  - intros d H. destruct (search REGEX_DOSIS t1) as [m|] eqn:E;
      [|discriminate]. injection H as <-.
    apply (dosis_groups t1 m H1 E).
  - intros u H. destruct (search REGEX_DOSIS t1) as [m|] eqn:E;
      [|discriminate]. injection H as <-.
    apply (dosis_groups t1 m H1 E).
  - intros q H. destruct (search REGEX_CANTIDAD t2) as [m|] eqn:E;
      [|discriminate]. injection H as <-.
    apply (cantidad_groups t2 m H2 E).
  - intros u H. destruct (search REGEX_CANTIDAD t2) as [m|] eqn:E;
      [|discriminate]. injection H as <-.
    apply (cantidad_groups t2 m H2 E).
Qed.

Lemma parse_fields_shape_witness :
  forallb is_ascii (L "SULFATO 5 GRS") = true
  /\ In (L "G") dose_units.
Proof.
  split; [reflexivity|].
  destruct (parse_fields_shape (L "SULFATO 5 GRS") eq_refl) as (_ & H & _).
  apply (H (L "G")). reflexivity.
Defined.

(** The unit GRS is read as G, and the letters left stay in the name. *)
Example grs_is_g :
  let p := parse_str (L "SULFATO 5 GRS") in
  dose_val p = Some (L "5") /\ dose_unit p = Some (L "G")
  /\ clean_name p = L "SULFATO RS".
Proof. vm_compute. repeat split. Qed.

End DrugParserFields.

(** ** More on the normaliser *)

Module NormalizerFacts.
Import SmartMatch.

Lemma plain_not_word (c : ascii) :
  plain_char c = true -> is_word c = false -> c = space.
Proof. all_chars c. Qed.

Lemma text_char_word (c : ascii) :
  text_char c = true -> is_word (upper_char c) = negb (is_space (upper_char c)).
Proof. all_chars c. Qed.

Lemma filter_filter {A} (p q : A -> bool) (l : list A) :
  filter p (filter q l) = filter (fun x => q x && p x) l.
Proof.
  induction l as [|x l IH]; simpl; [reflexivity|].
  destruct (q x); simpl; [destruct (p x)|]; rewrite IH; reflexivity.
Qed.

Lemma word_runs_remove_stop_words (ws : list string) :
  Forall word_ok ws ->
  forall t,
    word_runs (remove_stop_words ws t)
    = filter (fun run => negb (existsb (fun w => eqb_str run (L w)) ws))
        (word_runs t).
Proof.
  induction 1 as [|w ws Hw _ IH]; intros t.
  - simpl. symmetry. apply filter_all. apply Forall_forall. reflexivity.
  - unfold remove_stop_words in *. simpl. rewrite IH.
    rewrite (SmartMatchFacts.word_runs_re_sub w t Hw), filter_filter.
    apply filter_ext. intros run.
    destruct (eqb_str run (L w)); reflexivity.
Qed.

Lemma word_runs_acc_split (s : str) :
  Forall (fun c => is_word c = negb (is_space c)) s ->
  forall cur, word_runs_acc cur s = RapidFuzz.split_from cur s.
Proof.
  induction 1 as [|c s Hc _ IH]; intros cur; simpl.
  - destruct cur; reflexivity.
  - rewrite Hc. destruct (is_space c); simpl.
    + rewrite IH. destruct cur; reflexivity.
    + apply IH.
Qed.

Lemma join_emit (cur : str) : RapidFuzz.join (emit cur) = rev cur.
Proof. destruct cur; reflexivity. Qed.

Lemma join_word_runs_acc (s : str) :
  Forall (fun c => plain_char c = true) s ->
  single_spaced s = true ->
  (s <> [] -> is_space (last s space) = false) ->
  forall cur,
    (cur = [] -> match s with c :: _ => is_space c = false | [] => True end) ->
    RapidFuzz.join (word_runs_acc cur s) = rev cur ++ s.
Proof.
  induction 1 as [|c s Hc Hs IH]; intros Hss Hlast cur Hcur.
  - simpl. rewrite join_emit, app_nil_r. reflexivity.
  - assert (Hlast' : s <> [] -> is_space (last s space) = false).
    { intros Hne. specialize (Hlast ltac:(discriminate)).
      destruct s; [congruence | exact Hlast]. }
    simpl. destruct (is_word c) eqn:Ew.
    + rewrite IH.
      * simpl. rewrite <- app_assoc. reflexivity.
      * eapply single_spaced_tail, Hss.
      * exact Hlast'.
      * discriminate.
    + pose proof (plain_not_word c Hc Ew) as ->.
      destruct cur as [|a cur]; [specialize (Hcur eq_refl); discriminate|].
      destruct s as [|d s].
      { specialize (Hlast ltac:(discriminate)). discriminate. }
      assert (Hd : is_space d = false).
      { destruct (is_space d) eqn:Ed; [exfalso | reflexivity].
        cbn [single_spaced] in Hss.
        change (is_space space) with true in Hss.
        rewrite Ed in Hss. discriminate. }
      specialize (IH (single_spaced_tail _ _ Hss) Hlast' []
                    (fun _ => Hd)).
      simpl rev in IH. simpl app in IH.
      unfold emit. cbn [app].
      destruct (word_runs_acc [] (d :: s)) as [|w0 W]; [discriminate|].
      change (RapidFuzz.join (rev (a :: cur) :: w0 :: W))
        with (rev (a :: cur) ++ space :: RapidFuzz.join (w0 :: W)).
      rewrite IH. reflexivity.
Qed.

Lemma last_default {A} (l : list A) (d d' : A) :
  l <> [] -> last l d = last l d'.
Proof.
  induction l as [|x l IH]; intros H; [congruence|].
  destruct l as [|y l]; [reflexivity|]. apply IH. discriminate.
Qed.

Lemma join_word_runs (y : str) :
  Forall (fun c => plain_char c = true) y ->
  single_spaced y = true -> trimmed y = true ->
  RapidFuzz.join (word_runs y) = y.
Proof.
  intros Hp Hs Ht. unfold word_runs.
  rewrite join_word_runs_acc; auto.
  - intros Hne. destruct y as [|c y]; [congruence|].
    simpl in Ht. apply andb_true_iff in Ht. destruct Ht as [_ Ht].
    destruct y as [|d y].
    + simpl in *. destruct (is_space c); [discriminate | reflexivity].
    + change (last (c :: d :: y) space) with (last (d :: y) space).
      change (last (c :: d :: y) c) with (last (d :: y) c) in Ht.
      rewrite (last_default (d :: y) space c); [|discriminate].
      destruct (is_space (last (d :: y) c)); [discriminate | reflexivity].
  - intros _. destruct y as [|c y]; [exact I|].
    simpl in Ht. destruct (is_space c); [discriminate | reflexivity].
Qed.

(** X4. On a text of the letters [a-z] and [A-Z], the digits and ASCII
    white space, [normalize_text] is the text in capitals, split at white
    space, without the words that are stop words, joined again by single
    spaces. *)
Theorem normalize_text_joined (x : str) :
  forallb text_char x = true ->
  normalize_text (PyStr x)
  = RapidFuzz.join
      (filter (fun t => negb (existsb (fun w => eqb_str t (L w)) stop_words))
         (RapidFuzz.split (upper x))).
Proof.
  intros Hx.
  rewrite <- (join_word_runs (normalize_text (PyStr x)))
    by auto using SmartMatchFacts.normalize_plain,
         SmartMatchFacts.normalize_single_spaced,
         SmartMatchFacts.normalize_trimmed.
  f_equal. rewrite SmartMatchFacts.normalize_text_str.
  rewrite word_runs_strip, word_runs_collapse.
  assert (Hup : Forall (fun c => text_char c = true) x).
  { apply Forall_forall. apply forallb_forall. exact Hx. }
  rewrite filter_all.
  - rewrite word_runs_remove_stop_words
      by apply SmartMatchFacts.stop_words_are_words.
    unfold word_runs, RapidFuzz.split. rewrite word_runs_acc_split;
      [reflexivity|].
    unfold upper. apply Forall_map.
    eapply Forall_impl; [|exact Hup]. intros c. apply text_char_word.
  - apply SmartMatchFacts.remove_stop_words_Forall.
    unfold upper. apply Forall_map.
    eapply Forall_impl; [|exact Hup]. intros c Hc.
    rewrite SmartMatchFacts.text_char_upper; [reflexivity | exact Hc].
Qed.

Lemma normalize_text_joined_witness :
  normalize_text (PyStr (L "Jarabe  AL 5 mg x 120 ML"))
  = RapidFuzz.join [L "5"; L "120"; L "ML"].
Proof.
  rewrite (normalize_text_joined (L "Jarabe  AL 5 mg x 120 ML"));
    reflexivity.
Defined.

End NormalizerFacts.

(** ** More on the classifier *)

Module ClassifierFacts.
Import DataManager.

Lemma extractOne_from_max (scorer : str -> str -> Q) (query : str) :
  forall choices best c s,
    (forall b, best = Some b -> snd b == scorer query (fst b))%Q ->
    extractOne_from scorer query choices best = Some (c, s) ->
    (s == scorer query c)%Q
    /\ (forall k, In k choices -> (scorer query k <= s)%Q)
    /\ (forall b, best = Some b -> (snd b <= s)%Q).
Proof.
  induction choices as [|c0 choices IH]; intros best c s Hb H; simpl in H.
  - subst best. split; [apply (Hb _ eq_refl)|]. split; [intros k []|].
    intros b Eb. injection Eb as <-. simpl. apply Qle_refl.
  - apply IH in H.
    + destruct H as (Hs & Hall & Hbest). split; [exact Hs|]. split.
      * intros k [<-|Hk]; [|auto].
        destruct best as [[c1 s1]|].
        -- destruct (Qle_bool (scorer query c0) s1) eqn:E.
           ++ apply Qle_bool_iff in E.
              eapply Qle_trans; [exact E|]. apply (Hbest _ eq_refl).
           ++ apply (Hbest _ eq_refl).
        -- apply (Hbest _ eq_refl).
      * intros [c1 s1] Eb. subst best. simpl.
        destruct (Qle_bool (scorer query c0) s1) eqn:E.
        -- apply (Hbest _ eq_refl).
        -- specialize (Hbest _ eq_refl). simpl in Hbest.
           eapply Qle_trans; [|exact Hbest].
           apply Qlt_le_weak, Qnot_le_lt. intros Hle.
           apply Qle_bool_iff in Hle. congruence.
    + intros b Eb. destruct best as [[c1 s1]|].
      * destruct (Qle_bool (scorer query c0) s1).
        -- apply Hb, Eb.
        -- injection Eb as <-. simpl. apply Qeq_refl.
      * injection Eb as <-. simpl. apply Qeq_refl.
Qed.

Section WithLibraries.

Variable FUZZY_AVAILABLE : bool.
Variable token_set_ratio : str -> str -> Q.
Variable fuzz_ratio : str -> str -> Q.
Variable float_of_str : str -> option float.
Variable round2 : float -> float.

Lemma generic_check_true (name ingredient : str) :
  fst (generic_check FUZZY_AVAILABLE fuzz_ratio name ingredient) = true
  \/ snd (generic_check FUZZY_AVAILABLE fuzz_ratio name ingredient) = true ->
  contains name ingredient = true /\ contains name (L "COMPUESTO") = false.
Proof.
  unfold generic_check.
  destruct (contains name ingredient);
    destruct (contains name (L "COMPUESTO")); cbn [andb negb fst snd];
    try (intros [H|H]; discriminate). auto.
Qed.

(** X5. [_enrich_compliance] returns a row for every input, and the flags
    mean what they say.  Either nothing was found: the ingredient is
    DESCONOCIDO and both flags are false.  Or the ingredient is the one of
    an entry of the registry, and then: a brand of that entry in the name
    makes the row bioequivalent and not generic, whatever the generic test
    said; a row flagged generic has the ingredient in its name, not the
    word COMPUESTO, and no brand of the entry; a row flagged bioequivalent
    has a brand of the entry or the ingredient in its name. *)
Theorem enrich_flags_meaning (self : manager) (r : row) :
  let name := working_name r in
  exists e,
    _enrich_compliance FUZZY_AVAILABLE token_set_ratio fuzz_ratio
      float_of_str round2 self r = Ok e
    /\ base e = r
    /\ ((Active_Ingredient e = DESCONOCIDO
         /\ Is_Generic e = false /\ Is_Bioequivalent e = false)
        \/ exists key data,
             In (key, data) (isp_db_mock self)
             /\ Active_Ingredient e = active_ingredient data
             /\ (existsb (fun brand => contains name brand) (brands data)
                 = true ->
                 Is_Generic e = false /\ Is_Bioequivalent e = true)
             /\ (Is_Generic e = true ->
                 contains name (Active_Ingredient e) = true
                 /\ contains name (L "COMPUESTO") = false
                 /\ existsb (fun brand => contains name brand) (brands data)
                    = false)
             /\ (Is_Bioequivalent e = true ->
                 existsb (fun brand => contains name brand) (brands data)
                 = true
                 \/ contains name (Active_Ingredient e) = true)).
Proof.
  cbv zeta. destruct (DataManagerFacts.enrich_cases FUZZY_AVAILABLE token_set_ratio
              fuzz_ratio float_of_str round2 self r) as [[_ ->]|H].
  - eexists. split; [reflexivity|]. split; [reflexivity|]. left.
    repeat split.
  - destruct H as (key & data & _ & _ & Hget & ->).
    eexists. split; [reflexivity|]. split; [reflexivity|]. right.
    exists key, data. split; [apply DataManagerFacts.getitem_In, Hget|].
    split; [reflexivity|]. cbn [Is_Generic Is_Bioequivalent Active_Ingredient].
    rewrite DataManagerFacts.brand_check_spec.
    destruct (existsb (fun brand => contains (working_name r) brand)
                (brands data)); simpl.
    + repeat split; auto; discriminate.
    + split; [discriminate|]. split.
      * intros H. destruct (generic_check_true (working_name r)
                              (active_ingredient data)) as [H1 H2];
          auto.
      * intros H. right. apply (generic_check_true (working_name r)
                                  (active_ingredient data)). auto.
Qed.

(** X6. With [rapidfuzz], the ingredient is decided by the scores of the
    registry keys alone: when no key scores above 85 the row stays
    DESCONOCIDO with both flags false; when some key does, the ingredient is
    the one of a key with the highest score, and that score is above 85. *)
Theorem fuzzy_threshold (self : manager) (r : row) :
  let name := working_name r in
  let db := isp_db_mock self in
  ~ In [] (keys db) ->
  exists e,
    _enrich_compliance true token_set_ratio fuzz_ratio float_of_str round2
      self r = Ok e
    /\ ((forall k, In k (keys db) -> (token_set_ratio name k <= 85)%Q) ->
        Active_Ingredient e = DESCONOCIDO
        /\ Is_Generic e = false /\ Is_Bioequivalent e = false)
    /\ ((exists k, In k (keys db) /\ (85 < token_set_ratio name k)%Q) ->
        exists key data,
          In (key, data) db
          /\ Active_Ingredient e = active_ingredient data
          /\ (85 < token_set_ratio name key)%Q
          /\ forall k, In k (keys db) ->
                       (token_set_ratio name k <= token_set_ratio name key)%Q).
Proof.
  cbv zeta. intros Hne.
  unfold _enrich_compliance. rewrite DataManagerFacts.calculate_ppum_ok.
  unfold find_best_match.
  destruct (extractOne token_set_ratio (working_name r)
              (keys (isp_db_mock self))) as [[c s]|] eqn:E.
  - pose proof (DataManagerFacts.extractOne_in _ _ _ _ _ E) as Hin.
    unfold extractOne in E. apply extractOne_from_max in E;
      [|discriminate].
    destruct E as (Hs & Hmax & _).
    unfold Qgt_bool. destruct (Qle_bool s 85) eqn:E85; simpl.
    + eexists. split; [reflexivity|]. simpl. split; [auto|].
      intros (k & Hk & Hlt). exfalso.
      apply Qle_bool_iff in E85. specialize (Hmax k Hk).
      apply (Qlt_irrefl 85). eapply Qlt_le_trans; [exact Hlt|].
      eapply Qle_trans; eassumption.
    + assert (Hlt : (85 < token_set_ratio (working_name r) c)%Q).
      { rewrite <- Hs. apply Qnot_le_lt. intros Hle.
        apply Qle_bool_iff in Hle. congruence. }
      destruct c as [|a c]; [tauto|]. simpl truthy. cbv iota.
      destruct (DataManagerFacts.getitem_in _ _ Hin) as [data Hd].
      rewrite Hd. simpl. eexists. split; [reflexivity|]. simpl. split.
      * intros Hall. exfalso. specialize (Hall _ Hin).
        apply (Qlt_irrefl 85). eapply Qlt_le_trans; eassumption.
      * intros _. exists (a :: c), data.
        split; [apply DataManagerFacts.getitem_In, Hd|]. split; [reflexivity|].
        split; [exact Hlt|]. intros k Hk. rewrite <- Hs. auto.
  - simpl. eexists. split; [reflexivity|]. simpl. split; [auto|].
    intros (k & Hk & _). exfalso.
    unfold extractOne in E. destruct (keys (isp_db_mock self)) as [|k0 ks];
      [destruct Hk|]. simpl in E.
    assert (H : forall choices b,
               extractOne_from token_set_ratio (working_name r) choices
                 (Some b) <> None).
    { induction choices as [|c0 choices IH]; intros [c1 s1]; simpl;
        [discriminate|].
      destruct (Qle_bool _ s1); apply IH. }
    apply (H _ _ E).
Qed.

(** X7. Without [rapidfuzz], a registry key found in the name decides: the
    ingredient is the one of the first key, in the order of the registry,
    that is a substring of the name, and the brands are not consulted for
    it. *)
Theorem key_in_name_first (self : manager) (r : row) (key : str) :
  first_key_in (isp_db_mock self) (working_name r) = Some key ->
  key <> [] ->
  exists e data,
    _enrich_compliance false token_set_ratio fuzz_ratio float_of_str round2
      self r = Ok e
    /\ getitem (isp_db_mock self) key = Ok data
    /\ contains (working_name r) key = true
    /\ Active_Ingredient e = active_ingredient data.
Proof.
  intros Hk Hne.
  assert (Hc : contains (working_name r) key = true
               /\ In key (keys (isp_db_mock self))).
  { unfold first_key_in in Hk. apply find_some in Hk. tauto. }
  destruct Hc as [Hc Hin].
  destruct (DataManagerFacts.getitem_in _ _ Hin) as [data Hd].
  unfold _enrich_compliance, find_best_match.
  rewrite Hk, DataManagerFacts.calculate_ppum_ok.
  destruct key as [|a key]; [congruence|]. simpl truthy. simpl negb.
  cbv iota. rewrite Hd. simpl. eexists _, data. repeat split; auto.
Qed.

End WithLibraries.

Lemma fuzzy_threshold_witness :
  exists e,
    _enrich_compliance true RapidFuzz.token_set_ratio RapidFuzz.ratio
      Builtins.float_of_str Builtins.round2 (__init__ [])
      (from_csv (L "PANADOL 500 MG X 16 COMP") (PyInt 2490)) = Ok e
    /\ Active_Ingredient e = DESCONOCIDO.
Proof.
  destruct (fuzzy_threshold RapidFuzz.token_set_ratio RapidFuzz.ratio
              Builtins.float_of_str Builtins.round2 (__init__ [])
              (from_csv (L "PANADOL 500 MG X 16 COMP") (PyInt 2490)))
    as (e & He & Hlow & _).
  - vm_compute. intuition discriminate.
  - exists e. split; [exact He|]. apply Hlow.
    intros k Hk. vm_compute in Hk.
    repeat (destruct Hk as [<-|Hk]; [vm_compute; discriminate|]).
    destruct Hk.
Defined.

Lemma key_in_name_first_witness :
  exists e,
    _enrich_compliance false RapidFuzz.token_set_ratio RapidFuzz.ratio
      Builtins.float_of_str Builtins.round2 (__init__ [])
      (from_csv (L "1 G PARACETAMOL 500 MG") (PyInt 2490)) = Ok e
    /\ Active_Ingredient e = L "PARACETAMOL".
Proof.
  destruct (key_in_name_first RapidFuzz.token_set_ratio RapidFuzz.ratio
              Builtins.float_of_str Builtins.round2 (__init__ [])
              (from_csv (L "1 G PARACETAMOL 500 MG") (PyInt 2490))
              (L "PARACETAMOL 500 MG"))
    as (e & data & He & Hd & _ & Hai).
  - vm_compute. reflexivity.
  - discriminate.
  - exists e. split; [exact He|]. rewrite Hai.
    vm_compute in Hd. injection Hd as <-. reflexivity.
Defined.

End ClassifierFacts.

(** ** Loading the inventory *)

Module LoaderFacts.
Import Loader.

Section WithLibraries.

Variable FUZZY_AVAILABLE : bool.
Variable token_set_ratio : str -> str -> Q.
Variable fuzz_ratio : str -> str -> Q.
Variable float_of_str : str -> option DataManager.float.
Variable round2 : DataManager.float -> DataManager.float.

Lemma apply_enrich_ok (self : DataManager.manager) :
  forall rows,
    exists inventory_df,
      apply_enrich FUZZY_AVAILABLE token_set_ratio fuzz_ratio float_of_str
        round2 self rows = Ok inventory_df
      /\ map DataManager.base inventory_df = rows
      /\ Forall (fun e =>
                   DataManager._enrich_compliance FUZZY_AVAILABLE
                     token_set_ratio fuzz_ratio float_of_str round2 self
                     (DataManager.base e) = Ok e) inventory_df.
Proof.
  induction rows as [|r rows IH]; cbn [apply_enrich].
  - exists []. repeat split. constructor.
  - destruct IH as (es & -> & Hb & Hall).
    destruct (DataManagerFacts.enrich_cases FUZZY_AVAILABLE token_set_ratio
                fuzz_ratio float_of_str round2 self r) as [[_ He]|He].
    + rewrite He. cbn [bind]. eexists. split; [reflexivity|].
      split; [simpl; rewrite Hb; reflexivity|].
      constructor; [exact He | exact Hall].
    + destruct He as (key & data & _ & _ & _ & He). cbv zeta in He.
      rewrite He. cbn [bind]. eexists. split; [reflexivity|].
      split; [simpl; rewrite Hb; reflexivity|].
      constructor; [exact He | exact Hall].
Qed.

(** [process_dataframe] fails only on a product that [str] cannot write;
    else it gives the rows of the frame, each with what [parse] returns for
    its product. *)
Lemma process_dataframe_cases (df : list (pyval * pyval)) :
  match process_dataframe df with
  | Raise e =>
      e = ValueError /\ Exists (fun cells => long_int (fst cells) = true) df
  | Ok rows =>
      Forall (fun cells => long_int (fst cells) = false) df
      /\ map (fun r => (DataManager.Producto r, DataManager.Precio_Venta r))
           rows = df
      /\ Forall (fun r => DrugParser.parse (DataManager.Producto r)
                          = Ok (DataManager.parsed r)) rows
  end.
Proof.
  induction df as [|[producto precio] df IH]; cbn [process_dataframe].
  - repeat split; constructor.
  - pose proof (DrugParserFacts.parse_cases producto) as Hp.
    destruct (DrugParser.parse producto) as [p|e] eqn:Ep; cbn [bind].
    + destruct (process_dataframe df) as [rows|e]; cbn [bind].
      * destruct IH as (H1 & H2 & H3). split; [constructor; assumption|].
        split; [simpl; rewrite H2; reflexivity|].
        constructor; [exact Ep | exact H3].
      * destruct IH as [-> H]. split; [reflexivity|].
        apply Exists_cons_tl, H.
    + destruct Hp as [-> Hl]. split; [reflexivity|].
      apply Exists_cons_hd, Hl.
Qed.

(** X8. [load_data] raises FileNotFoundError exactly when there is no
    file; when [pd.read_csv] raises on the file, that exception passes.
    Of the frame [pd.read_csv] returns, [load_data] returns one row per row,
    in the order of the frame: the row with what [parse] returns for its
    product and with the columns [_enrich_compliance] adds.  On a frame it
    raises only where [str] does, for a product cell that is an [int] of
    more than 4300 digits, which no frame read from a file holds. *)
Theorem load_data_total (self : DataManager.manager) (file : csv_file) :
  match load_data FUZZY_AVAILABLE token_set_ratio fuzz_ratio float_of_str
          round2 self file with
  | FileNotFoundError => file = Missing
  | ReadCsvError => file = Unreadable
  | Raised e =>
      e = ValueError
      /\ exists df,
           file = Frame df
           /\ Exists (fun cells => long_int (fst cells) = true) df
  | Loaded inventory_df =>
      exists df,
        file = Frame df
        /\ Forall (fun cells => long_int (fst cells) = false) df
        /\ map (fun e => (DataManager.Producto (DataManager.base e),
                          DataManager.Precio_Venta (DataManager.base e)))
             inventory_df = df
        /\ Forall (fun e =>
                     DrugParser.parse (DataManager.Producto (DataManager.base e))
                     = Ok (DataManager.parsed (DataManager.base e))
                     /\ DataManager._enrich_compliance FUZZY_AVAILABLE
                          token_set_ratio fuzz_ratio float_of_str round2 self
                          (DataManager.base e) = Ok e) inventory_df
  end.
Proof.
  unfold load_data. destruct file as [| |df]; try reflexivity.
  pose proof (process_dataframe_cases df) as Hp.
  destruct (process_dataframe df) as [rows|e]; cbn [bind].
  - destruct Hp as (H1 & H2 & H3).
    destruct (apply_enrich_ok self rows) as (es & -> & Hb & Hall).
    exists df. split; [reflexivity|]. split; [exact H1|]. split.
    + rewrite <- H2, <- Hb, map_map. reflexivity.
    + rewrite <- Hb in H3. rewrite Forall_map in H3.
      apply Forall_forall. intros e He. split.
      * exact (proj1 (Forall_forall _ _) H3 e He).
      * exact (proj1 (Forall_forall _ _) Hall e He).
  - destruct Hp as [-> H]. split; [reflexivity|]. eauto.
Qed.

End WithLibraries.

(** A file of two lines, read with the builtins of the interpreter: the
    price with a decimal comma is read, and 3290.5 / 24 is rounded to
    137.1. *)
Example load_data_two_rows :
  exists e1 e2,
    load_data true RapidFuzz.token_set_ratio RapidFuzz.ratio
      Builtins.float_of_str Builtins.round2 (DataManager.__init__ [])
      (Frame [(PyStr (L "PARACETAMOL 500 MG X 20 COMP"), PyInt 1990);
              (PyStr (L "KITADOL 500 MG X 24 COMP"), PyStr (L "3290,5"))])
    = Loaded [e1; e2]
    /\ DataManager.Active_Ingredient e1 = L "PARACETAMOL"
    /\ DataManager.Is_Generic e1 = true
    /\ Some (DataManager.Calculated_PPUM e2)
       = option_map DataManager.NFloat (Builtins.float_of_str (L "137.1")).
Proof.
  vm_compute. eexists _, _. split; [reflexivity|]. repeat split.
Qed.

End LoaderFacts.

(** ** More on the search engine *)

Module BuscarFacts.
Import MotorBusqueda.

Lemma compile_any_case (query : str) (pat : regex) :
  Pandas.compile_query true query = Some pat ->
  exists pat', Pandas.compile_query false query = Some pat'.
Proof.
  revert pat. induction query as [|c query IH]; simpl; intros pat H.
  - eauto.
  - destruct (Pandas.compile_query true query) as [r|]; [|discriminate].
    destruct (IH r eq_refl) as [r' ->].
    destruct (Ascii.eqb c "."%char); [eauto|].
    destruct (Pandas.special c); [discriminate | eauto].
Qed.

Lemma filter_head_In {A} (p : A -> bool) (l : list A) (x : A) (rest : list A) :
  filter p l = x :: rest -> In x l /\ p x = true.
Proof.
  intros H. apply filter_In. rewrite H. left. reflexivity.
Qed.

Lemma render_row_l_row (ref_price : Z) (row : ranked) :
  l_row (render_row ref_price row) = row.
Proof.
  unfold render_row.
  destruct (Rank row =? 1)%Z, (Rank row =? 2)%Z, (Rank row =? 3)%Z;
    reflexivity.
Qed.

Lemma render_rows (ref_price : Z) (results : list ranked) :
  map l_row (map (render_row ref_price) results) = results.
Proof.
  rewrite map_map. rewrite (map_ext _ (fun r => r)); [apply map_id|].
  intros r. apply render_row_l_row.
Qed.

Lemma render_results_cases (results : list ranked) (query : str) :
  match _render_results results query with
  | None => Pandas.compile_query false query = None
  | Some (Raise e) => results = [] /\ e = IndexError
  | Some (Ok (ref_price, lines)) =>
      (exists r, In r results /\ price r = ref_price)
      /\ map l_row lines = results
      /\ Forall (fun ln =>
                   match l_ahorro ln with
                   | Some d =>
                       Rank (l_row ln) = 1%Z
                       /\ d = (ref_price - price (l_row ln))%Z /\ (0 < d)%Z
                   | None =>
                       Rank (l_row ln) <> 1%Z
                       \/ (ref_price <= price (l_row ln))%Z
                   end) lines
  end.
Proof.
  unfold _render_results.
  destruct (Pandas.compile_query false query) as [pat|]; [|reflexivity].
  assert (Hlines : forall ref_price,
             Forall (fun ln =>
                   match l_ahorro ln with
                   | Some d =>
                       Rank (l_row ln) = 1%Z
                       /\ d = (ref_price - price (l_row ln))%Z /\ (0 < d)%Z
                   | None =>
                       Rank (l_row ln) <> 1%Z
                       \/ (ref_price <= price (l_row ln))%Z
                   end) (map (render_row ref_price) results)).
  { intros ref_price. apply Forall_forall. intros ln Hin.
    apply in_map_iff in Hin. destruct Hin as (row & <- & _).
    unfold render_row.
    destruct (Rank row =? 1)%Z eqn:E1.
    - simpl. apply Z.eqb_eq in E1.
      destruct (ref_price >? price row)%Z eqn:Eg; simpl.
      + apply Z.gtb_lt in Eg. repeat split; [exact E1 | lia].
      + right. pose proof (Zgt_cases ref_price (price row)) as H.
        rewrite Eg in H. exact H.
    - apply Z.eqb_neq in E1.
      destruct (Rank row =? 2)%Z, (Rank row =? 3)%Z; simpl; auto. }
  unfold reference_price.
  destruct (filter _ results) as [|r0 rs] eqn:Ef.
  - destruct results as [|r rs]; simpl.
    + auto.
    + split; [exists r; simpl; auto|]. split; [|apply (Hlines (price r))].
      apply (render_rows (price r) (r :: rs)).
  - simpl. apply filter_head_In in Ef. destruct Ef as [Hin _].
    split; [eauto|]. split; [apply render_rows | apply Hlines].
Qed.

(** X9. What [_render_results] prints for a result list whose prices are
    whole numbers and a query of ordinary characters and dots (for another
    query the embedding gives [None]).  It fails, with IndexError, only for
    an empty result list.  Otherwise there is one line per row, in the
    order of the list; the reference price is the price of one of the rows;
    and a saving is printed only on a line of rank 1 whose price is below
    the reference, where it is the difference, a positive amount. *)
Theorem render_results_outcome (results : list ranked) (query : str) :
  match _render_results results query with
  | None => Pandas.compile_query false query = None
  | Some (Raise e) => results = [] /\ e = IndexError
  | Some (Ok (ref_price, lines)) =>
      (exists r, In r results /\ price r = ref_price)
      /\ map l_row lines = results
      /\ Forall (fun ln =>
                   match l_ahorro ln with
                   | Some d =>
                       Rank (l_row ln) = 1%Z
                       /\ d = (ref_price - price (l_row ln))%Z /\ (0 < d)%Z
                   | None =>
                       Rank (l_row ln) <> 1%Z
                       \/ (ref_price <= price (l_row ln))%Z
                   end) lines
  end.
Proof. exact (render_results_cases results query). Qed.

(** X10. What [buscar] shows.  The ingredient announced is the one of the
    first product, in the order of the inventory, whose clean name matches
    the query.  When it is known, the products listed are exactly the
    products of the inventory with that ingredient and a stock above zero,
    so that a product out of stock is never listed, the product asked for
    included; when it is DESCONOCIDO, they are exactly the products whose
    name matches, whatever their stock.  Each is listed once, with the rank
    [calculate_rank] gives it, by rank and by price within a rank. *)
Theorem buscar_shows (df : list product) (query : str)
    (ing : str) (ref_price : Z) (lines : list line) :
  buscar df query = Some (Ok (Rendered ing ref_price lines)) ->
  let shown := map (fun ln => item (l_row ln)) lines in
  exists pat target others,
    Pandas.compile_query true (strip (upper query)) = Some pat
    /\ filter (fun row => Pandas.str_contains pat (clean_name row)) df
       = target :: others
    /\ ing = Active_Ingredient target
    /\ (ing <> DataManager.DESCONOCIDO ->
        Permutation shown
          (filter (fun row => eqb_str (Active_Ingredient row) ing
                              && (Stock row >? 0)%Z) df)
        /\ Forall (fun row => (Stock row > 0)%Z) shown)
    /\ (ing = DataManager.DESCONOCIDO ->
        Permutation shown (target :: others))
    /\ Forall (fun ln => Rank (l_row ln)
                         = calculate_rank (strip (upper query))
                             (item (l_row ln))) lines
    /\ StronglySorted key_le (map l_row lines).
Proof.
  destruct df as [|p0 df0] eqn:Edf; [discriminate|]. rewrite <- Edf.
  rewrite MotorBusquedaFacts.buscar_rows by (rewrite Edf; discriminate).
  clear Edf. cbv zeta.
  destruct (Pandas.compile_query true (strip (upper query))) as [pat|] eqn:Ec;
    [|discriminate].
  destruct (filter _ df) as [|target others] eqn:Em; [discriminate|].
  set (q := strip (upper query)) in *.
  set (alternatives :=
         if negb (eqb_str (Active_Ingredient target) DataManager.DESCONOCIDO)
         then filter (fun row => eqb_str (Active_Ingredient row)
                                   (Active_Ingredient target)
                                 && (Stock row >? 0)%Z) df
         else target :: others).
  pose proof (render_results_cases (rank_and_sort q alternatives) q) as Hr.
  destruct (_render_results (rank_and_sort q alternatives) q)
    as [[[ref lns]|e]|]; try discriminate.
  intros H. injection H as <- <- <-. cbv zeta.
  destruct Hr as (_ & Hrows & _).
  exists pat, target, others. split; [reflexivity|]. split; [exact Em|].
  split; [reflexivity|].
  assert (Hperm : Permutation (map (fun ln => item (l_row ln)) lns)
                    alternatives).
  { rewrite <- (map_map l_row item), Hrows. unfold rank_and_sort.
    eapply Permutation_trans;
      [apply Permutation_map, MotorBusquedaFacts.sort_values_perm|].
    rewrite map_map. simpl. rewrite map_id. apply Permutation_refl. }
  split; [|split; [|split]].
  - intros Hne. unfold alternatives in Hperm.
    destruct (eqb_str (Active_Ingredient target) DataManager.DESCONOCIDO)
      eqn:E; [apply eqb_str_eq in E; contradiction|].
    simpl in Hperm. split; [exact Hperm|].
    apply Forall_forall. intros row Hin.
    eapply Permutation_in in Hin; [|exact Hperm].
    apply filter_In in Hin. destruct Hin as [_ Hin].
    apply andb_true_iff in Hin. destruct Hin as [_ Hin].
    apply Z.gtb_lt in Hin. lia.
  - intros He. unfold alternatives in Hperm. rewrite He in Hperm.
    rewrite eqb_str_refl in Hperm. exact Hperm.
  - apply Forall_forall. intros ln Hin.
    assert (Hin' : In (l_row ln) (rank_and_sort q alternatives)).
    { rewrite <- Hrows. apply in_map, Hin. }
    unfold rank_and_sort in Hin'.
    eapply Permutation_in in Hin';
      [|apply MotorBusquedaFacts.sort_values_perm].
    apply in_map_iff in Hin'. destruct Hin' as (row & <- & _). reflexivity.
  - rewrite Hrows. apply MotorBusquedaFacts.sort_values_sorted.
Qed.

Lemma buscar_shows_witness :
  exists lines,
    buscar [ofteno; diclofenaco] (L "ofteno")
    = Some (Ok (Rendered (L "DICLOFENACO") 9000 lines))
    /\ Forall (fun row => (Stock row > 0)%Z)
         (map (fun ln => item (l_row ln)) lines).
Proof.
  eexists. split; [vm_compute; reflexivity|].
  destruct (buscar_shows [ofteno; diclofenaco] (L "ofteno")
              (L "DICLOFENACO") 9000 _ eq_refl)
    as (pat & target & others & _ & _ & _ & H & _).
  apply H. discriminate.
Defined.

(** On a frame with a row, [buscar] raises exactly when the first product
    matching the query has a known ingredient and nothing in stock. *)
Lemma buscar_raises_rows (df : list product) (query : str) (e : exn) :
  df <> [] ->
  (buscar df query = Some (Raise e)
   <-> e = IndexError
       /\ exists pat target others,
            Pandas.compile_query true (strip (upper query)) = Some pat
            /\ filter (fun row => Pandas.str_contains pat (clean_name row)) df
               = target :: others
            /\ Active_Ingredient target <> DataManager.DESCONOCIDO
            /\ forall row, In row df ->
                           Active_Ingredient row = Active_Ingredient target ->
                           (Stock row <= 0)%Z).
Proof.
  intros Hrows. rewrite (MotorBusquedaFacts.buscar_rows df query Hrows).
  cbv zeta.
  destruct (Pandas.compile_query true (strip (upper query))) as [pat|] eqn:Ec.
  2:{ split; [discriminate|]. intros (_ & p & t & o & H & _). discriminate. }
  set (q := strip (upper query)) in *.
  destruct (filter _ df) as [|target others] eqn:Em.
  { split; [discriminate|]. intros (_ & p & t & o & H & H' & _).
    injection H as <-. congruence. }
  set (alternatives :=
         if negb (eqb_str (Active_Ingredient target) DataManager.DESCONOCIDO)
         then filter (fun row => eqb_str (Active_Ingredient row)
                                   (Active_Ingredient target)
                                 && (Stock row >? 0)%Z) df
         else target :: others).
  pose proof (render_results_cases (rank_and_sort q alternatives) q) as Hr.
  destruct (compile_any_case _ _ Ec) as [pat' Ec'].
  assert (Hnil : rank_and_sort q alternatives = [] <-> alternatives = []).
  { unfold rank_and_sort. split; intros H.
    - apply (f_equal (@length _)) in H.
      rewrite (Permutation_length (MotorBusquedaFacts.sort_values_perm _))
        in H.
      rewrite length_map in H. destruct alternatives; [reflexivity|].
      discriminate.
    - rewrite H. reflexivity. }
  destruct (_render_results (rank_and_sort q alternatives) q)
    as [[[ref lns]|e0]|] eqn:Er.
  - split; [discriminate|].
    intros (_ & p & t & o & Hp & Hf & Hne & Hall). exfalso.
    injection Hp as <-. rewrite Em in Hf. injection Hf as <- <-.
    destruct Hr as ((r & Hin & _) & _).
    assert (Ha : alternatives = []).
    { unfold alternatives.
      destruct (eqb_str (Active_Ingredient target) DataManager.DESCONOCIDO)
        eqn:E; [apply eqb_str_eq in E; contradiction|].
      simpl.
      destruct (filter (fun row => eqb_str (Active_Ingredient row)
                                     (Active_Ingredient target)
                                   && (Stock row >? 0)%Z) df)
        as [|row rows] eqn:Ef; [reflexivity|].
      apply filter_head_In in Ef. destruct Ef as [Hrow Hc].
      apply andb_true_iff in Hc. destruct Hc as [Hi Hs].
      apply eqb_str_eq in Hi. apply Z.gtb_lt in Hs.
      specialize (Hall row Hrow Hi). lia. }
    apply Hnil in Ha. rewrite Ha in Hin. destruct Hin.
  - destruct Hr as [Hempty ->]. apply Hnil in Hempty. split.
    + intros H. injection H as <-. split; [reflexivity|].
      exists pat, target, others. split; [reflexivity|].
      split; [exact Em|]. unfold alternatives in Hempty.
      destruct (eqb_str (Active_Ingredient target) DataManager.DESCONOCIDO)
        eqn:E; [discriminate|]. simpl in Hempty. split.
      * intros H. rewrite H, eqb_str_refl in E. discriminate.
      * intros row Hin Hi.
        destruct (Stock row >? 0)%Z eqn:Es.
        -- assert (Hf : In row (filter (fun row =>
                     eqb_str (Active_Ingredient row)
                       (Active_Ingredient target)
                     && (Stock row >? 0)%Z) df)).
           { apply filter_In. split; [exact Hin|].
             rewrite Hi, eqb_str_refl, Es. reflexivity. }
           rewrite Hempty in Hf. destruct Hf.
        -- pose proof (Zgt_cases (Stock row) 0) as H. rewrite Es in H.
           exact H.
    + intros [-> _]. reflexivity.
  - unfold _render_results in Er. fold q in Ec'. rewrite Ec' in Er.
    discriminate.
Qed.

(** X11. When [buscar] raises.  On the frame of a file without rows it
    raises KeyError, whatever the query: the frame has no column
    [clean_name].  On a frame with rows, whose stock and prices are whole
    numbers, and for a query of ordinary characters and dots, it raises
    exactly when the first product matching the query has a known
    ingredient and no product with that ingredient is in stock: the list
    of alternatives is then empty and [_render_results] reads its first
    row, an IndexError. *)
Theorem buscar_index_error (df : list product) (query : str) (e : exn) :
  buscar df query = Some (Raise e)
  <-> (df = [] /\ e = KeyError)
      \/ (e = IndexError
          /\ exists pat target others,
               Pandas.compile_query true (strip (upper query)) = Some pat
               /\ filter (fun row => Pandas.str_contains pat (clean_name row))
                    df
                  = target :: others
               /\ Active_Ingredient target <> DataManager.DESCONOCIDO
               /\ forall row, In row df ->
                              Active_Ingredient row = Active_Ingredient target ->
                              (Stock row <= 0)%Z).
Proof.
  destruct df as [|p0 df0] eqn:Edf.
  - split.
    + intros H. injection H as <-. left. split; reflexivity.
    + intros [[_ ->]|(_ & pat & target & others & _ & H & _)];
        [reflexivity | discriminate H].
  - rewrite <- Edf.
    assert (Hrows : df <> []) by (rewrite Edf; discriminate).
    rewrite (buscar_raises_rows df query e Hrows). split.
    + intros H. right. exact H.
    + intros [[H _]|H]; [contradiction | exact H].
Qed.

(** The only product whose name matches is out of stock: the search
    raises. *)
Example buscar_out_of_stock :
  buscar [{| clean_name := L "KITADOL"; Active_Ingredient := L "PARACETAMOL";
             Stock := 0; Is_Generic := false; Is_Bioequivalent := true;
             Precio_Venta := 3290 |}] (L "kitadol")
  = Some (Raise IndexError).
Proof. vm_compute. reflexivity. Qed.

End BuscarFacts.

(** ** The catalogue script *)

Module ProcesarDatosFacts.
Import ProcesarDatos.

(** *** Integers through binary64 *)

Lemma digits2_pos_iter (m d : positive) :
  digits2_pos (Pos.iter xO m d) = (digits2_pos m + d)%positive.
Proof.
  induction d as [|d IH] using Pos.peano_ind.
  - simpl. rewrite Pos.add_1_r. reflexivity.
  - rewrite Pos.iter_succ. simpl. rewrite IH, Pos.add_succ_r. reflexivity.
Qed.

Lemma Zpos_iter_xO (m d : positive) :
  Zpos (Pos.iter xO m d) = (Zpos m * 2 ^ Zpos d)%Z.
Proof.
  induction d as [|d IH] using Pos.peano_ind.
  - simpl. lia.
  - rewrite Pos.iter_succ, Pos2Z.inj_xO, IH, Pos2Z.inj_succ.
    rewrite Z.pow_succ_r by lia. lia.
Qed.

Lemma digits2_pos_size (m : positive) : digits2_pos m = Pos.size m.
Proof. induction m; simpl; congruence. Qed.

Lemma digits2_pos_bound (m : positive) :
  (Zpos m < 2 ^ 53)%Z -> (Zpos (digits2_pos m) <= 53)%Z.
Proof.
  intros H. rewrite digits2_pos_size.
  pose proof (Pos.size_le m) as Hs.
  assert (H2 : (2 ^ Zpos (Pos.size m) <= 2 * Zpos m)%Z).
  { rewrite <- Pos2Z.inj_pow. change (2 * Zpos m)%Z with (Zpos m~0).
    apply Pos2Z.pos_le_pos. exact Hs. }
  destruct (Z_le_gt_dec (Zpos (Pos.size m)) 53) as [Hle|Hgt]; [exact Hle|].
  exfalso.
  assert (H3 : (2 ^ 54 <= 2 ^ Zpos (Pos.size m))%Z)
    by (apply Z.pow_le_mono_r; lia).
  change (2 ^ 54)%Z with (2 * 2 ^ 53)%Z in H3. lia.
Qed.

Lemma fexp_small (e : Z) :
  (-1074 <= e - 53)%Z -> fexp 53 1024 e = (e - 53)%Z.
Proof. unfold fexp, emin. lia. Qed.

Lemma binary_round_aux_exact (s : bool) (mz : positive) (ez : Z) :
  Zpos (digits2_pos mz) = 53%Z -> (-52 <= ez <= 0)%Z ->
  binary_round_aux 53 1024 s (Zpos mz) ez loc_Exact = S754_finite s mz ez.
Proof.
  intros Hd He.
  assert (Hshr : shr_fexp 53 1024 (Zpos mz) ez loc_Exact
                 = ({| shr_m := Zpos mz; shr_r := false; shr_s := false |},
                    ez)).
  { unfold shr_fexp. cbn [Zdigits2 shr_record_of_loc]. rewrite Hd.
    rewrite fexp_small by lia.
    replace (53 + ez - 53 - ez)%Z with 0%Z by lia. reflexivity. }
  unfold binary_round_aux. rewrite Hshr.
  cbn [shr_m loc_of_shr_record round_nearest_even]. rewrite Hshr.
  cbn [shr_m].
  destruct (ez <=? 1024 - 53)%Z eqn:E; [reflexivity|].
  apply Z.leb_gt in E. lia.
Qed.

Lemma binary_round_exact (s : bool) (m : positive) :
  (Zpos m < 2 ^ 53)%Z ->
  exists mz ez,
    binary_round 53 1024 s m 0 = S754_finite s mz ez
    /\ (ez <= 0)%Z /\ Zpos mz = (Zpos m * 2 ^ (- ez))%Z.
Proof.
  intros H. apply digits2_pos_bound in H.
  unfold binary_round. rewrite Z.add_0_r, fexp_small by lia.
  unfold shl_align. rewrite Z.sub_0_r.
  destruct (Zpos (digits2_pos m) - 53)%Z as [|d|d] eqn:E; [| lia |].
  - exists m, 0%Z. rewrite binary_round_aux_exact by lia.
    repeat split; lia.
  - exists (Pos.iter xO m d), (Zneg d).
    rewrite binary_round_aux_exact.
    + repeat split; [lia|]. rewrite Zpos_iter_xO. reflexivity.
    + rewrite digits2_pos_iter, Pos2Z.inj_add. lia.
    + lia.
Qed.

(** An integer below 2^53 in absolute value goes through [float] and
    [int] unchanged. *)
Lemma int_of_float_exact (n : Z) (negative : bool) :
  (0 <= n < 2 ^ 53)%Z ->
  int_of_float (binary_normalize 53 1024 (if negative then - n else n) 0
                  negative)
  = Return (if negative then - n else n)%Z.
Proof.
  intros Hn.
  assert (H : forall s m, (Zpos m < 2 ^ 53)%Z ->
                int_of_float (binary_round 53 1024 s m 0)
                = Return (if s then - Zpos m else Zpos m)%Z).
  { intros s m Hm.
    destruct (binary_round_exact s m Hm) as (mz & ez & -> & He & Hz).
    unfold int_of_float.
    destruct (0 <=? ez)%Z eqn:E.
    - apply Z.leb_le in E. assert (ez = 0%Z) by lia. subst ez.
      change (- 0)%Z with 0%Z in Hz.
      rewrite Z.pow_0_r, Z.mul_1_r in Hz. injection Hz as ->.
      rewrite Z.pow_0_r, Z.mul_1_r. reflexivity.
    - rewrite Hz, Z.div_mul; [reflexivity|].
      apply Z.pow_nonzero; lia. }
  destruct n as [|m|m]; [destruct negative; reflexivity | | lia].
  destruct negative; simpl; apply H; lia.
Qed.

(** Rounding an integer never gives NaN. *)
Lemma iter_pos_inv {A} (P : A -> Prop) (f : A -> A) :
  (forall x, P x -> P (f x)) ->
  forall n x, P x -> P (iter_pos f n x).
Proof.
  intros Hf. induction n as [n IH|n IH|]; intros x Hx; simpl; auto.
Qed.

Lemma shr_1_nonneg (mrs : shr_record) :
  (0 <= shr_m mrs)%Z -> (0 <= shr_m (shr_1 mrs))%Z.
Proof.
  destruct mrs as [m r s]. simpl.
  destruct m as [|[p|p|]|[p|p|]]; simpl; lia.
Qed.

Lemma shr_fexp_nonneg (m e : Z) (l : location) :
  (0 <= m)%Z -> (0 <= shr_m (fst (shr_fexp 53 1024 m e l)))%Z.
Proof.
  intros Hm. unfold shr_fexp, shr.
  assert (H0 : (0 <= shr_m (shr_record_of_loc m l))%Z)
    by (destruct l as [|[]]; exact Hm).
  destruct (fexp 53 1024 (Zdigits2 m + e) - e)%Z; simpl; auto.
  apply iter_pos_inv; auto using shr_1_nonneg.
Qed.

Lemma binary_round_aux_not_nan (s : bool) (m e : Z) (l : location) :
  (0 <= m)%Z -> binary_round_aux 53 1024 s m e l <> S754_nan.
Proof.
  intros Hm. unfold binary_round_aux.
  pose proof (shr_fexp_nonneg m e l Hm) as H1.
  destruct (shr_fexp 53 1024 m e l) as [mrs' e'].
  simpl in H1.
  assert (H2 : (0 <= round_nearest_even (shr_m mrs')
                       (loc_of_shr_record mrs'))%Z).
  { unfold round_nearest_even.
    destruct (loc_of_shr_record mrs') as [|[]]; try lia.
    destruct (Z.even (shr_m mrs')); lia. }
  pose proof (shr_fexp_nonneg _ e' loc_Exact H2) as H3.
  destruct (shr_fexp 53 1024 _ e' loc_Exact) as [mrs'' e''].
  simpl in H3.
  destruct (shr_m mrs''); [discriminate | | lia].
  destruct (e'' <=? 1024 - 53)%Z; discriminate.
Qed.

Lemma binary_normalize_not_nan (n : Z) (szero : bool) :
  binary_normalize 53 1024 n 0 szero <> S754_nan.
Proof.
  destruct n as [|m|m]; simpl; [discriminate | |];
    unfold binary_round;
    destruct (shl_align m 0 _) as [mz ez];
    apply binary_round_aux_not_nan; lia.
Qed.

Lemma int_of_float_no_value_error (n : Z) (szero : bool) :
  int_of_float (binary_normalize 53 1024 n 0 szero) <> Fail ValueError.
Proof.
  pose proof (binary_normalize_not_nan n szero) as H.
  destruct (binary_normalize 53 1024 n 0 szero); simpl;
    try discriminate. congruence.
Qed.

(** *** The text of an [int] *)

Lemma digits_of_uint_acc (d : Decimal.uint) :
  forall acc : positive,
    fold_left (fun acc c => 10 * acc + digit_value c)%Z
      (L (NilEmpty.string_of_uint d)) (Zpos acc)
    = Zpos (Pos.of_uint_acc d acc).
Proof.
  induction d as [|d IH|d IH|d IH|d IH|d IH|d IH|d IH|d IH|d IH|d IH];
    intros acc; [reflexivity|..];
    cbn [NilEmpty.string_of_uint L list_ascii_of_string fold_left
         Pos.of_uint_acc];
    rewrite <- IH; f_equal;
    match goal with
    | |- context [digit_value ?c] =>
        let v := eval vm_compute in (digit_value c) in
        change (digit_value c) with v
    end;
    rewrite ?Pos2Z.inj_add, ?Pos2Z.inj_mul; lia.
Qed.

Lemma digits_of_uint (d : Decimal.uint) :
  int_of_digits (L (NilEmpty.string_of_uint d)) = Z.of_N (Pos.of_uint d).
Proof.
  unfold int_of_digits.
  induction d as [|d IH|d IH|d IH|d IH|d IH|d IH|d IH|d IH|d IH|d IH];
    [reflexivity | exact IH |..];
    cbn [NilEmpty.string_of_uint L list_ascii_of_string fold_left
         Pos.of_uint];
    apply (digits_of_uint_acc d).
Qed.

Lemma digits_of_uint_digits (d : Decimal.uint) :
  forallb is_digit (L (NilEmpty.string_of_uint d)) = true.
Proof.
  induction d as [|d IH|d IH|d IH|d IH|d IH|d IH|d IH|d IH|d IH|d IH];
    [reflexivity|..]; exact IH.
Qed.

(** The text of an [int]: a hyphen when it is negative, then the digits of
    its absolute value. *)
Lemma py_str_int (z : Z) :
  exists dz,
    py_str (PyInt z) = (if (z <? 0)%Z then ["-"%char] else []) ++ dz
    /\ is_number dz /\ int_of_digits dz = Z.abs z.
Proof.
  assert (Hp : forall p,
             let dz := L (NilZero.string_of_uint (Pos.to_uint p)) in
             is_number dz /\ int_of_digits dz = Zpos p).
  { intros p. cbv zeta. unfold NilZero.string_of_uint.
    pose proof (DecimalPos.Unsigned.to_uint_nonnil p) as Hn.
    pose proof (digits_of_uint (Pos.to_uint p)) as Hv.
    pose proof (digits_of_uint_digits (Pos.to_uint p)) as Hd.
    rewrite DecimalPos.Unsigned.of_to in Hv.
    destruct (Pos.to_uint p) eqn:E; try congruence;
      (split; [split; [discriminate | exact Hd] | exact Hv]). }
  destruct z as [|p|p].
  - exists (L "0"). repeat split. discriminate.
  - exists (L (NilZero.string_of_uint (Pos.to_uint p))).
    split; [reflexivity | apply Hp].
  - exists (L (NilZero.string_of_uint (Pos.to_uint p))).
    split; [reflexivity | apply Hp].
Qed.

Lemma digits_and_hyphens_all (s : str) :
  forallb is_digit s = true -> digits_and_hyphens s = s.
Proof.
  unfold digits_and_hyphens. induction s as [|c s IH]; simpl;
    [reflexivity|].
  intros H. apply andb_true_iff in H. destruct H as [-> H]. simpl.
  rewrite IH by exact H. reflexivity.
Qed.

(** A cell whose digits spell a number below 2^53 is not an [int] too long
    for [str]. *)
Lemma short_number (val : pyval) (negative : bool) (ds : str) :
  digits_and_hyphens (py_str val)
  = (if negative then ["-"%char] else []) ++ ds ->
  is_number ds ->
  (int_of_digits ds < 2 ^ 53)%Z ->
  long_int val = false.
Proof.
  intros Hs [Hne Hd] Hlt.
  destruct val as [s| |z|b|r]; try reflexivity.
  unfold long_int. apply Z.leb_gt.
  destruct (py_str_int z) as (dz & Ez & [Hnz Hdz] & Hv).
  rewrite Ez in Hs.
  assert (Hsame : ds = dz).
  { destruct (z <? 0)%Z; cbn [app] in Hs.
    - change (digits_and_hyphens ("-"%char :: dz))
        with ("-"%char :: digits_and_hyphens dz) in Hs.
      rewrite (digits_and_hyphens_all dz Hdz) in Hs.
      destruct negative; cbn [app] in Hs; [congruence|].
      subst ds. simpl in Hd. discriminate.
    - rewrite (digits_and_hyphens_all dz Hdz) in Hs.
      destruct negative; cbn [app] in Hs; [|congruence].
      subst dz. simpl in Hdz. discriminate. }
  subst dz. rewrite <- Hv.
  eapply Z.lt_le_trans; [exact Hlt|].
  unfold int_max_str_digits.
  apply Z.leb_le. vm_compute. reflexivity.
Qed.

(** *** [limpiar_num] *)

Lemma limpiar_num_text (text : str) :
  re_sub (RChar not_digit_or_hyphen) [] text = digits_and_hyphens text.
Proof.
  rewrite re_sub_class. unfold digits_and_hyphens. apply filter_ext.
  intros c. unfold not_digit_or_hyphen. apply negb_involutive.
Qed.

(** For a cell whose text [str] gives, [limpiar_num] reads the digits and
    hyphens of that text. *)
Lemma limpiar_num_short (val : pyval) :
  long_int val = false ->
  limpiar_num val
  = let s := digits_and_hyphens (py_str val) in
    match s with
    | [] => Return 0
    | _ :: _ =>
        match float_of_digits s with
        | Some x => int_of_float x
        | None => Fail ValueError
        end
    end.
Proof.
  intros H. unfold limpiar_num, str_of. rewrite H, limpiar_num_text.
  reflexivity.
Qed.

Lemma float_of_digits_some (s : str) :
  float_of_digits s <> None
  <-> is_number s \/ exists ds, s = "-"%char :: ds /\ is_number ds.
Proof.
  unfold float_of_digits, is_number. destruct s as [|c s].
  - split; [congruence|]. intros [[H _]|(ds & H & _)]; congruence.
  - destruct (Ascii.eqb c "-"%char) eqn:Ec.
    + apply Ascii.eqb_eq in Ec. subst c. split.
      * intros H. right. exists s. split; [reflexivity|].
        destruct s as [|d s]; [congruence|].
        destruct (forallb is_digit (d :: s)); [|congruence].
        split; [discriminate | reflexivity].
      * intros [[_ H]|(ds & H & Hne & Hd)].
        -- simpl in H. discriminate.
        -- injection H as <-. destruct s as [|d s]; [congruence|].
           rewrite Hd. discriminate.
    + split.
      * intros H. left.
        destruct (forallb is_digit (c :: s)); [|congruence].
        split; [discriminate | reflexivity].
      * intros [[_ H]|(ds & H & _)].
        -- rewrite H. discriminate.
        -- injection H as -> _. simpl in Ec. discriminate.
Qed.

(** X12. [limpiar_num] looks only at the digits and hyphens of the text
    [str] gives for the cell.  When [str] itself raises, for an [int] of
    more than 4300 digits, [limpiar_num] raises that ValueError.  Otherwise,
    without any digit or hyphen it returns 0, and it raises ValueError
    exactly when there are some and they are not a number with at most one
    hyphen, in front: a cell holding a lone hyphen, or a hyphen after a
    digit, stops the script. *)
Theorem limpiar_num_value_error (val : pyval) :
  match str_of val with
  | Raise _ => long_int val = true /\ limpiar_num val = Fail ValueError
  | Ok text =>
      let s := digits_and_hyphens text in
      long_int val = false
      /\ text = py_str val
      /\ (s = [] -> limpiar_num val = Return 0)
      /\ (limpiar_num val = Fail ValueError
          <-> s <> []
              /\ ~ (is_number s
                    \/ exists ds, s = "-"%char :: ds /\ is_number ds))
  end.
Proof.
  unfold limpiar_num, str_of. destruct (long_int val); [split; reflexivity|].
  cbv zeta. rewrite limpiar_num_text.
  split; [reflexivity|]. split; [reflexivity|].
  set (s := digits_and_hyphens (py_str val)). split.
  - intros ->. reflexivity.
  - pose proof (float_of_digits_some s) as Hs.
    destruct s as [|c s]; [split; [discriminate | intros [H _]; congruence]|].
    destruct (float_of_digits (c :: s)) as [x|] eqn:Ex.
    + split.
      * intros H. exfalso. unfold float_of_digits in Ex.
        destruct (Ascii.eqb c "-"%char).
        -- destruct s as [|d s]; [discriminate|].
           destruct (forallb is_digit (d :: s)); [|discriminate].
           injection Ex as <-.
           apply (int_of_float_no_value_error _ _ H).
        -- destruct (forallb is_digit (c :: s)); [|discriminate].
           injection Ex as <-.
           apply (int_of_float_no_value_error _ _ H).
      * intros [_ H]. exfalso. apply H, Hs. discriminate.
    + split; [|reflexivity]. intros _. split; [discriminate|].
      intros H. apply Hs in H. congruence.
Qed.

Lemma int_of_digits_nonneg (ds : str) : (0 <= int_of_digits ds)%Z.
Proof.
  unfold int_of_digits.
  assert (H : forall acc, (0 <= acc)%Z ->
                (0 <= fold_left (fun acc c => 10 * acc + digit_value c) ds
                        acc)%Z).
  { induction ds as [|c ds IH]; intros acc Ha; cbn [fold_left];
      [exact Ha|].
    apply IH. pose proof (Nat2Z.is_nonneg (code c - 48)).
    unfold digit_value. lia. }
  apply H. lia.
Qed.

(** X13. When what is left is a number below 2^53, with or without a
    hyphen in front, [limpiar_num] returns that number, negated after a
    hyphen.  Every other character of the cell is dropped before the number
    is read, the decimal point included: the float 1500.0 gives 15000. *)
Theorem limpiar_num_reads_digits (val : pyval) (negative : bool) (ds : str) :
  digits_and_hyphens (py_str val)
  = (if negative then ["-"%char] else []) ++ ds ->
  is_number ds ->
  (int_of_digits ds < 2 ^ 53)%Z ->
  limpiar_num val
  = Return (if negative then - int_of_digits ds else int_of_digits ds)%Z.
Proof.
  intros Hs [Hne Hd] Hlt.
  rewrite (limpiar_num_short val
             (short_number val negative ds Hs (conj Hne Hd) Hlt)).
  cbv zeta. rewrite Hs.
  pose proof (int_of_digits_nonneg ds) as H0.
  destruct ds as [|d ds]; [congruence|].
  destruct negative; cbn [app].
  - unfold float_of_digits. cbn [Ascii.eqb]. simpl (Ascii.eqb _ _).
    rewrite Hd. apply (int_of_float_exact _ true). lia.
  - unfold float_of_digits.
    destruct (Ascii.eqb d "-"%char) eqn:Ed.
    + apply Ascii.eqb_eq in Ed. subst d. simpl in Hd. discriminate.
    + rewrite Hd. apply (int_of_float_exact _ false). lia.
Qed.

Lemma limpiar_num_reads_digits_witness :
  limpiar_num (PyFloat (L "1500.0")) = Return 15000.
Proof.
  apply (limpiar_num_reads_digits (PyFloat (L "1500.0")) false (L "15000"));
    [reflexivity | split; [discriminate | reflexivity] | reflexivity].
Defined.

(** Above 2^53 the number goes through the nearest float, and a number too
    large for a float raises OverflowError. *)
Example limpiar_num_rounds :
  limpiar_num (PyInt 9007199254740993) = Return 9007199254740992
  /\ limpiar_num (PyFloat (L "1e+16")) = Return 116
  /\ limpiar_num (PyFloat (L "1e-05")) = Fail ValueError
  /\ limpiar_num (PyStr (concat (repeat (L "9999999999") 40)))
     = Fail OverflowError.
Proof. vm_compute. repeat split. Qed.

Example limpiar_num_lone_hyphen :
  limpiar_num (PyStr (L "-")) = Fail ValueError
  /\ limpiar_num (PyStr (L "10-12")) = Fail ValueError
  /\ limpiar_num (PyStr (L "$ 1.990")) = Return 1990
  /\ limpiar_num PyNone = Return 0.
Proof. vm_compute. repeat split. Qed.

End ProcesarDatosFacts.

(** *** Columns, categories and states *)

Module CatalogoFacts.
Import ProcesarDatos.

Lemma startswith_refl (s : str) : startswith s s = true.
Proof.
  induction s as [|c s IH]; simpl; [reflexivity|].
  rewrite Ascii.eqb_refl. exact IH.
Qed.

Lemma contains_refl (s : str) : contains s s = true.
Proof. destruct s; simpl; [reflexivity|]. rewrite Ascii.eqb_refl, startswith_refl. reflexivity. Qed.

Lemma find_first {A} (p : A -> bool) (l : list A) (x : A) :
  find p l = Some x ->
  exists before after,
    l = before ++ x :: after
    /\ p x = true /\ Forall (fun y => p y = false) before.
Proof.
  induction l as [|y l IH]; simpl; [discriminate|].
  destruct (p y) eqn:E.
  - intros H. injection H as <-. exists [], l. repeat split; auto.
  - intros H. destruct (IH H) as (before & after & -> & Hx & Hb).
    exists (y :: before), after. repeat split; auto.
Qed.

(** X14. The column [buscar_columna] finds is a column of the frame and
    contains one of the keywords.  A keyword that is itself a column wins:
    the column found is the first keyword, in the order of the keywords,
    that is a column, even if it contains a forbidden word.  When no
    keyword is a column, the column found is the first column, in the order
    of the frame, that contains no forbidden word and contains a keyword.
    [None] is returned exactly when no keyword is a column and every column
    that contains a keyword contains a forbidden word. *)
Theorem buscar_columna_spec (columns keywords evitar : list str) :
  match buscar_columna columns keywords evitar with
  | Some col =>
      In col columns
      /\ (exists key, In key keywords /\ contains col key = true)
      /\ ((exists before after,
             keywords = before ++ col :: after
             /\ Forall (fun key => ~ In key columns) before)
          \/ ((forall key, In key keywords -> ~ In key columns)
              /\ (forall bad, In bad evitar -> contains col bad = false)
              /\ exists before after,
                   columns = before ++ col :: after
                   /\ Forall (fun c =>
                                (exists bad,
                                    In bad evitar /\ contains c bad = true)
                                \/ (forall key, In key keywords ->
                                                contains c key = false))
                        before))
  | None =>
      forall col, In col columns ->
        ~ In col keywords
        /\ ((exists key, In key keywords /\ contains col key = true) ->
            exists bad, In bad evitar /\ contains col bad = true)
  end.
Proof.
  assert (Hcol : forall key, existsb (eqb_str key) columns = true
                             <-> In key columns).
  { intros key. rewrite existsb_exists. split.
    - intros (c & Hc & He). apply eqb_str_eq in He. subst c. exact Hc.
    - intros Hc. exists key. split; [exact Hc | apply eqb_str_refl]. }
  assert (Hbad : forall c, existsb (fun bad => contains c bad) evitar = false
                           <-> forall bad, In bad evitar ->
                                           contains c bad = false).
  { intros c. split.
    - intros H bad Hb. destruct (contains c bad) eqn:Ec; [|reflexivity].
      assert (Ht : existsb (fun bad => contains c bad) evitar = true)
        by (apply existsb_exists; eauto).
      congruence.
    - intros H. destruct (existsb _ evitar) eqn:Ee; [|reflexivity].
      apply existsb_exists in Ee. destruct Ee as (bad & Hb & Hc).
      rewrite (H bad Hb) in Hc. discriminate. }
  assert (Hkey : forall c, existsb (fun key => contains c key) keywords = false
                           <-> forall key, In key keywords ->
                                           contains c key = false).
  { intros c. split.
    - intros H key Hk. destruct (contains c key) eqn:Ec; [|reflexivity].
      assert (Ht : existsb (fun key => contains c key) keywords = true)
        by (apply existsb_exists; eauto).
      congruence.
    - intros H. destruct (existsb _ keywords) eqn:Ee; [|reflexivity].
      apply existsb_exists in Ee. destruct Ee as (key & Hk & Hc).
      rewrite (H key Hk) in Hc. discriminate. }
  unfold buscar_columna.
  destruct (find (fun key => existsb (eqb_str key) columns) keywords)
    as [key|] eqn:E.
  - apply find_first in E.
    destruct E as (before & after & Ek & Hc & Hbefore).
    apply Hcol in Hc. split; [exact Hc|]. split.
    + exists key. split; [|apply contains_refl].
      rewrite Ek. apply in_or_app. right. left. reflexivity.
    + left. exists before, after. split; [exact Ek|].
      eapply Forall_impl; [|exact Hbefore]. cbv beta.
      intros k Hk Hin. apply Hcol in Hin. congruence.
  - assert (Hno : forall key, In key keywords -> ~ In key columns).
    { intros key Hk Hc. apply (find_none _ _ E) in Hk.
      apply Hcol in Hc. congruence. }
    destruct (find _ columns) as [col|] eqn:E2.
    + apply find_first in E2.
      destruct E2 as (before & after & Ec & Hc & Hbefore).
      apply andb_true_iff in Hc. destruct Hc as [Hb Hk].
      apply negb_true_iff in Hb. apply existsb_exists in Hk.
      split; [rewrite Ec; apply in_or_app; right; left; reflexivity|].
      split; [exact Hk|]. right. split; [exact Hno|].
      split; [apply Hbad, Hb|]. exists before, after.
      split; [exact Ec|].
      eapply Forall_impl; [|exact Hbefore]. cbv beta.
      intros c Hc. apply andb_false_iff in Hc. destruct Hc as [Hc|Hc].
      * left. apply negb_false_iff in Hc. apply existsb_exists in Hc.
        exact Hc.
      * right. apply Hkey, Hc.
    + intros col Hin. split.
      * intros Hk. apply (Hno col Hk Hin).
      * intros Hk. apply (find_none _ _ E2) in Hin.
        apply andb_false_iff in Hin. destruct Hin as [Hb|Hc].
        -- apply negb_false_iff in Hb. apply existsb_exists in Hb. exact Hb.
        -- assert (Ht : existsb (fun key => contains col key) keywords
                        = true) by (apply existsb_exists; exact Hk).
           congruence.
Qed.

(** The case the script is written for: the product column is not taken
    for the group column that comes before it, while the loader of the
    pipeline, which takes the first column containing the word, would. *)
Example buscar_columna_grupo :
  buscar_columna [L "Grupo de Producto"; L "Producto"; L "Stock"]
    [L "Producto"; L "Descripcion"] [L "Grupo"; L "Tipo"]
  = Some (L "Producto")
  /\ buscar_columna [L "Grupo de Producto"; L "Nombre Producto"]
       [L "Producto"; L "Descripcion"] [L "Grupo"; L "Tipo"]
     = Some (L "Nombre Producto")
  /\ find (fun c => contains c (L "Producto"))
       [L "Grupo de Producto"; L "Producto"; L "Stock"]
     = Some (L "Grupo de Producto").
Proof. vm_compute. repeat split. Qed.

(** X15. The state of the catalogue script and the status of the endpoint
    [/search] agree on a product, except when it is in stock with a price
    that is not positive: the endpoint calls it AVAILABLE, the script SOLO
    REFERENCIA. *)
Theorem estado_and_status (row : fila) (r : Api.db_row) :
  Api.stock r = Stock row -> Api.precio r = Precio row ->
  (definir_estado row = estado_of_status (Api.o_status (Api.to_result r))
   <-> ~ ((Stock row > 0)%Z /\ (Precio row <= 0)%Z))
  /\ ((Stock row > 0)%Z /\ (Precio row <= 0)%Z ->
      definir_estado row = SOLO_REFERENCIA
      /\ Api.o_status (Api.to_result r) = Api.AVAILABLE).
Proof.
  intros Hs Hp. unfold definir_estado, Api.to_result. cbn [Api.o_status].
  rewrite Hs, Hp.
  pose proof (Zgt_cases (Stock row) 0) as H1.
  pose proof (Zgt_cases (Precio row) 0) as H2.
  pose proof (Zle_cases (Stock row) 0) as H3.
  destruct (Stock row >? 0)%Z; destruct (Precio row >? 0)%Z;
    destruct (Stock row <=? 0)%Z; cbn [andb estado_of_status];
    try (exfalso; lia).
  - split; [split; [intros _; lia | reflexivity] | intros; lia].
  - split; [split; [discriminate | intros H; exfalso; lia]|].
    intros _. split; reflexivity.
  - split; [split; [intros _; lia | reflexivity] | intros; lia].
  - split; [split; [intros _; lia | reflexivity] | intros; lia].
Qed.

Lemma estado_and_status_witness :
  definir_estado {| Producto := PyStr (L "MUESTRA MEDICA"); Codigo := PyNone;
                    Stock := 4; Costo := 0; Precio := 0 |}
  = SOLO_REFERENCIA
  /\ Api.o_status
       (Api.to_result {| Api.id := 1; Api.nombre_comercial := L "MUESTRA MEDICA";
                         Api.precio := 0; Api.stock := 4;
                         Api.maestro_id := None;
                         Api.nombre_generico := None |})
     = Api.AVAILABLE.
Proof.
  apply (estado_and_status
           {| Producto := PyStr (L "MUESTRA MEDICA"); Codigo := PyNone;
              Stock := 4; Costo := 0; Precio := 0 |}
           {| Api.id := 1; Api.nombre_comercial := L "MUESTRA MEDICA";
              Api.precio := 0; Api.stock := 4; Api.maestro_id := None;
              Api.nombre_generico := None |});
    [reflexivity | reflexivity | simpl; lia].
Defined.

(** *** The categories *)

Lemma dict_get_In (d : dict) (key v : str) :
  dict_get d key = Some v -> In (key, v) d.
Proof.
  induction d as [|[k v0] d IH]; simpl; [discriminate|].
  destruct (eqb_str k key) eqn:E.
  - apply eqb_str_eq in E. intros H. injection H as <-. subst. auto.
  - auto.
Qed.

Lemma add_category_from_row (rows : list cenabast_row) (d d' : dict)
    (row : cenabast_row) :
  In row rows -> Forall (from_row rows) d ->
  add_category d row = Some d' -> Forall (from_row rows) d'.
Proof.
  intros Hin Hd. unfold add_category.
  set (nom := upper (py_str (Nombre_producto_generico row))).
  set (cat := strip (py_str (Clasificacion_interna row))).
  destruct (3 <? length nom) eqn:El; cbn [andb].
  2:{ intros H. injection H as <-. exact Hd. }
  cbn [existsb].
  destruct (eqb_str cat (L "nan")) eqn:E1; cbn [orb negb].
  { intros H. injection H as <-. exact Hd. }
  destruct (eqb_str cat []) eqn:E2; cbn [orb negb].
  { intros H. injection H as <-. exact Hd. }
  destruct (RapidFuzz.split nom) as [|key rest] eqn:Es; [discriminate|].
  intros H. injection H as <-.
  destruct (dict_get d key); [exact Hd|].
  apply Forall_app. split; [exact Hd|]. constructor; [|constructor].
  exists row, rest. cbn [fst snd]. fold nom. fold cat.
  repeat split; auto.
  - intros H. rewrite H in E2. discriminate.
  - intros H. rewrite H in E1. discriminate.
Qed.

Lemma load_categories_from_row (rows : list cenabast_row) :
  forall todo d,
    (forall row, In row todo -> In row rows) ->
    Forall (from_row rows) d ->
    Forall (from_row rows) (load_categories d todo).
Proof.
  induction todo as [|row todo IH]; intros d Hsub Hd; simpl; [exact Hd|].
  destruct (add_category d row) as [d'|] eqn:E; [|exact Hd].
  apply IH; [intros r Hr; apply Hsub; right; exact Hr|].
  eapply add_category_from_row; eauto. apply Hsub. left. reflexivity.
Qed.

(** X16. The category [get_cat] gives is OTROS for a name that is not a
    string; otherwise SIN CLASIFICAR, or the classification, neither empty
    nor [nan], of a row of the Cenabast file whose generic name begins with
    a word of the product name that is longer than three characters. *)
Theorem get_cat_from_file (rows : list cenabast_row) (txt : pyval) :
  let cat := get_cat (load_categories [] rows) txt in
  (isinstance_str txt = false -> cat = OTROS)
  /\ (isinstance_str txt = true ->
      cat = SIN_CLASIFICAR
      \/ exists row t rest,
           In row rows
           /\ In t (RapidFuzz.split (upper (py_str txt)))
           /\ 3 < length t
           /\ RapidFuzz.split (upper (py_str (Nombre_producto_generico row)))
              = t :: rest
           /\ cat = strip (py_str (Clasificacion_interna row))
           /\ cat <> [] /\ cat <> L "nan").
Proof.
  cbv zeta. unfold get_cat. split.
  - intros ->. reflexivity.
  - intros ->. simpl negb. cbv iota.
    destruct (find _ (RapidFuzz.split (upper (py_str txt)))) as [t|] eqn:E;
      [|left; reflexivity].
    apply find_some in E. destruct E as [Hin Ht].
    apply andb_true_iff in Ht. destruct Ht as [Hlen _].
    destruct (dict_get (load_categories [] rows) t) as [cat|] eqn:Eg;
      [|left; reflexivity].
    right. apply dict_get_In in Eg.
    pose proof (load_categories_from_row rows rows [] (fun _ H => H)
                  (Forall_nil _)) as Hall.
    rewrite Forall_forall in Hall. apply Hall in Eg.
    destruct Eg as (row & rest & Hrow & Hs & Hc & Hne & Hnan).
    simpl in Hs, Hc, Hne, Hnan.
    exists row, t, rest. apply Nat.ltb_lt in Hlen.
    repeat split; auto.
Qed.

(** X17. A row of the Cenabast file whose generic name is white space
    only, more than three characters of it, with a classification, ends the
    loading of the categories: the rows after it are not read. *)
Theorem load_categories_stops (d : dict) (pre post : list cenabast_row)
    (row : cenabast_row) :
  add_category d row = None ->
  (forall d', add_category d' row = None)
  /\ load_categories d (pre ++ row :: post) = load_categories d pre.
Proof.
  intros H.
  assert (Hall : forall d', add_category d' row = None).
  { intros d'. unfold add_category in *.
    destruct ((3 <? length _) && _); [|discriminate].
    destruct (RapidFuzz.split _); [reflexivity | discriminate]. }
  split; [exact Hall|]. clear H. revert d.
  induction pre as [|r pre IH]; intros d; simpl.
  - rewrite Hall. reflexivity.
  - destruct (add_category d r); [apply IH | reflexivity].
Qed.

Lemma load_categories_stops_witness :
  load_categories []
    [ {| Nombre_producto_generico := PyStr (L "PARACETAMOL 500 MG");
         Clasificacion_interna := PyStr (L "ANALGESICOS") |};
      {| Nombre_producto_generico := PyStr (L "     ");
         Clasificacion_interna := PyStr (L "OTROS") |};
      {| Nombre_producto_generico := PyStr (L "IBUPROFENO 400 MG");
         Clasificacion_interna := PyStr (L "ANTIINFLAMATORIOS") |} ]
  = [(L "PARACETAMOL", L "ANALGESICOS")].
Proof.
  destruct (load_categories_stops []
              [ {| Nombre_producto_generico := PyStr (L "PARACETAMOL 500 MG");
                   Clasificacion_interna := PyStr (L "ANALGESICOS") |} ]
              [ {| Nombre_producto_generico := PyStr (L "IBUPROFENO 400 MG");
                   Clasificacion_interna :=
                     PyStr (L "ANTIINFLAMATORIOS") |} ]
              {| Nombre_producto_generico := PyStr (L "     ");
                 Clasificacion_interna := PyStr (L "OTROS") |} eq_refl)
    as [_ H].
  exact (eq_trans H eq_refl).
Defined.

(** *** The order of the catalogue *)

Lemma clave_leb_rank (a b : fila_final) :
  known_estado a -> known_estado b ->
  (clave_leb a b = true -> rank_le a b)
  /\ (clave_leb a b = false -> rank_le b a).
Proof.
  unfold known_estado, rank_le, clave_leb. intros Ha Hb.
  destruct (eqb_str (Estado a) (Estado b)) eqn:E.
  - apply eqb_str_eq in E. rewrite E. split; intros _; lia.
  - simpl in Ha, Hb.
    destruct Ha as [Ha|[Ha|[Ha|[]]]]; destruct Hb as [Hb|[Hb|[Hb|[]]]];
      rewrite <- Ha, <- Hb in *; vm_compute in E; try discriminate;
      vm_compute; split; intros H; try discriminate; lia.
Qed.

Lemma insertar_perm (x : fila_final) (l : list fila_final) :
  Permutation (insertar x l) (x :: l).
Proof.
  induction l as [|y l IH]; simpl; [apply Permutation_refl|].
  destruct (clave_leb x y); [apply Permutation_refl|].
  eapply Permutation_trans; [apply perm_skip, IH | apply perm_swap].
Qed.

Lemma insertar_sorted (x : fila_final) (l : list fila_final) :
  known_estado x -> Forall known_estado l ->
  StronglySorted rank_le l -> StronglySorted rank_le (insertar x l).
Proof.
  intros Hx. induction l as [|y l IH]; intros Hl Hs; simpl.
  - repeat constructor.
  - inversion Hl as [|? ? Hy Hl']; subst.
    inversion Hs as [|? ? Hs' Hall]; subst.
    destruct (clave_leb_rank x y Hx Hy) as [Ht Hf].
    destruct (clave_leb x y).
    + constructor; [exact Hs|]. constructor; [apply Ht; reflexivity|].
      eapply Forall_impl; [|exact Hall]. unfold rank_le in *.
      intros z Hz. specialize (Ht eq_refl). lia.
    + constructor; [apply IH; assumption|].
      eapply Permutation_Forall;
        [apply Permutation_sym, insertar_perm|].
      constructor; [apply Hf; reflexivity | exact Hall].
Qed.

Lemma definir_estado_known (row : fila) :
  In (definir_estado row) [DISPONIBLE; POR_ENCARGO; SOLO_REFERENCIA].
Proof.
  unfold definir_estado.
  destruct ((Stock row >? 0)%Z && (Precio row >? 0)%Z); [simpl; auto|].
  destruct ((Stock row <=? 0)%Z && (Precio row >? 0)%Z); simpl; auto.
Qed.

Lemma fold_insertar_perm (l : list fila_final) :
  Permutation (fold_right insertar [] l) l.
Proof.
  induction l as [|x l IH]; simpl; [constructor|].
  eapply Permutation_trans; [apply insertar_perm|].
  apply perm_skip, IH.
Qed.

Lemma fold_insertar_sorted (l : list fila_final) :
  Forall known_estado l -> StronglySorted rank_le (fold_right insertar [] l).
Proof.
  induction 1 as [|x l Hx Hl IH]; simpl; [constructor|].
  apply insertar_sorted; [exact Hx | | exact IH].
  eapply Permutation_Forall;
    [apply Permutation_sym, fold_insertar_perm | exact Hl].
Qed.

(** X18. The rows the script writes are the rows with a product name, each
    once, with the state [definir_estado] gives them, and in the order the
    comment promises: the available products first, then those on order,
    then those for reference only.  (The sort is on the text of the state;
    the three texts happen to be in that alphabetical order.) *)
Theorem catalogo_available_first (mapa_cat : dict) (rows : list fila)
    (out : list fila_final) :
  catalogo mapa_cat rows = Some out ->
  Permutation out (map (clasificar mapa_cat) (filter con_nombre rows))
  /\ Forall (fun r => Estado r = definir_estado (datos r)) out
  /\ forall i j a b,
       i < j -> nth_error out i = Some a -> nth_error out j = Some b ->
       estado_rank (Estado a) <= estado_rank (Estado b).
Proof.
  unfold catalogo, sort_values.
  set (l := map (clasificar mapa_cat) (filter con_nombre rows)).
  destruct (forallb _ l); [|discriminate]. intros H. injection H as <-.
  assert (Hk : Forall known_estado l).
  { unfold l. apply Forall_map. apply Forall_forall. intros r _.
    apply definir_estado_known. }
  assert (He : Forall (fun r => Estado r = definir_estado (datos r)) l).
  { unfold l. apply Forall_map. apply Forall_forall. intros r _.
    reflexivity. }
  clearbody l.
  split; [apply fold_insertar_perm|]. split.
  - eapply Permutation_Forall;
      [apply Permutation_sym, fold_insertar_perm | exact He].
  - intros i j a b Hij Ha Hb.
    apply (MotorBusquedaFacts.StronglySorted_nth rank_le _ (fold_insertar_sorted l Hk)
             i j a b Hij Ha Hb).
Qed.

Lemma catalogo_available_first_witness :
  exists out,
    catalogo []
      [ {| Producto := PyStr (L "ZETA"); Codigo := PyNone;
           Stock := 0; Costo := 0; Precio := 100 |};
        {| Producto := PyStr (L "BETA"); Codigo := PyNone;
           Stock := 3; Costo := 0; Precio := 100 |} ] = Some out
    /\ map (fun r => Estado r) out = [DISPONIBLE; POR_ENCARGO]
    /\ Forall (fun r => Estado r = definir_estado (datos r)) out.
Proof.
  eexists. split; [vm_compute; reflexivity|]. split; [reflexivity|].
  apply (catalogo_available_first []
           [ {| Producto := PyStr (L "ZETA"); Codigo := PyNone;
                Stock := 0; Costo := 0; Precio := 100 |};
             {| Producto := PyStr (L "BETA"); Codigo := PyNone;
                Stock := 3; Costo := 0; Precio := 100 |} ]
           _ eq_refl).
Defined.

End CatalogoFacts.

(** ** The pipeline *)

Module PipelineFacts.
Import Pipeline.

(** *** The master catalogue *)

Lemma upper_trimmed (s : str) : trimmed s = true -> trimmed (upper s) = true.
Proof.
  destruct s as [|c s]; [reflexivity|]. unfold trimmed, upper.
  cbn [map]. rewrite upper_space.
  assert (H : forall d, last (upper_char c :: map upper_char s) (upper_char d)
                        = upper_char (last (c :: s) d)).
  { intros d. change (upper_char c :: map upper_char s)
      with (map upper_char (c :: s)).
    generalize (c :: s). intros l. induction l as [|x l IH]; [reflexivity|].
    destruct l as [|y l]; [reflexivity|]. exact IH. }
  rewrite H, upper_space. auto.
Qed.

Lemma NoDup_snoc {A} (l : list A) (x : A) :
  NoDup l -> ~ In x l -> NoDup (l ++ [x]).
Proof.
  intros Hl Hx. apply NoDup_rev in Hl.
  rewrite <- (rev_involutive (l ++ [x])). apply NoDup_rev.
  rewrite rev_app_distr. simpl. constructor; [|exact Hl].
  rewrite <- in_rev. exact Hx.
Qed.

Lemma add_maestro_step (records : list maestro_record)
    (unique_names : list str) (row : cenabast_row) :
  add_maestro (records, unique_names) row
  = if negb (match nombre (maestro_of_row row) with
             | [] => true
             | _ :: _ => false
             end)
       && negb (existsb (eqb_str (nombre (maestro_of_row row))) unique_names)
    then (records ++ [maestro_of_row row],
          nombre (maestro_of_row row) :: unique_names)
    else (records, unique_names).
Proof. reflexivity. Qed.

Lemma add_maestro_cond (unique_names : list str) (n : str) :
  negb (match n with [] => true | _ :: _ => false end)
  && negb (existsb (eqb_str n) unique_names) = true
  <-> n <> [] /\ ~ In n unique_names.
Proof.
  rewrite andb_true_iff, !negb_true_iff. split.
  - intros [Hn He]. split; [destruct n; congruence|].
    intros Hin.
    assert (Ht : existsb (eqb_str n) unique_names = true).
    { apply existsb_exists. exists n. split; [exact Hin | apply eqb_str_refl]. }
    congruence.
  - intros [Hn Hin]. split; [destruct n; congruence|].
    destruct (existsb (eqb_str n) unique_names) eqn:E; [|reflexivity].
    apply existsb_exists in E. destruct E as (x & Hx & Heq).
    apply eqb_str_eq in Heq. subst x. contradiction.
Qed.

Lemma add_maestro_inv (df : list cenabast_row) :
  forall todo records unique_names,
    (forall row, In row todo -> In row df) ->
    (forall n, In n unique_names <-> In n (map nombre records)) ->
    NoDup (map nombre records) ->
    Forall (fun r => nombre r <> []
                     /\ exists row, In row df /\ r = maestro_of_row row)
      records ->
    let records' := fst (fold_left add_maestro todo (records, unique_names)) in
    NoDup (map nombre records')
    /\ Forall (fun r => nombre r <> []
                        /\ exists row, In row df /\ r = maestro_of_row row)
         records'
    /\ (forall r, In r records -> In r records')
    /\ (forall row, In row todo -> nombre (maestro_of_row row) <> [] ->
                    In (nombre (maestro_of_row row)) (map nombre records'))
    /\ (forall pre row post,
          todo = pre ++ row :: post ->
          nombre (maestro_of_row row) <> [] ->
          ~ In (nombre (maestro_of_row row)) (map nombre records) ->
          (forall r, In r pre ->
                     nombre (maestro_of_row r) <> nombre (maestro_of_row row)) ->
          In (maestro_of_row row) records').
Proof.
  induction todo as [|row todo IH];
    intros records unique_names Hsub Hu Hnd Hall; cbv zeta.
  - simpl. split; [exact Hnd|]. split; [exact Hall|]. split; [auto|].
    split; [intros row []|].
    intros pre row post H. destruct pre; discriminate.
  - cbn [fold_left]. rewrite add_maestro_step.
    assert (Hrow : In row df) by (apply Hsub; left; reflexivity).
    assert (Hsub' : forall r, In r todo -> In r df)
      by (intros r Hr; apply Hsub; right; exact Hr).
    pose proof (add_maestro_cond unique_names (nombre (maestro_of_row row)))
      as Hc.
    destruct (negb _ && negb _).
    + destruct Hc as [Hc _]. destruct (Hc eq_refl) as [Hne Hnin].
      assert (Hnin' : ~ In (nombre (maestro_of_row row)) (map nombre records))
        by (rewrite <- Hu; exact Hnin).
      specialize (IH (records ++ [maestro_of_row row])
                    (nombre (maestro_of_row row) :: unique_names) Hsub').
      cbv zeta in IH. destruct IH as (H1 & H2 & H3 & H4 & H5).
      * intros x. rewrite map_app, in_app_iff. cbn [map In].
        rewrite Hu. tauto.
      * rewrite map_app. cbn [map]. apply NoDup_snoc; assumption.
      * apply Forall_app. split; [exact Hall|].
        constructor; [|constructor]. split; [exact Hne | eauto].
      * assert (Hnew : In (maestro_of_row row)
                         (fst (fold_left add_maestro todo
                                 (records ++ [maestro_of_row row],
                                  nombre (maestro_of_row row)
                                  :: unique_names)))).
        { apply H3. apply in_or_app. right. left. reflexivity. }
        split; [exact H1|]. split; [exact H2|]. split; [|split].
        -- intros r Hr. apply H3. apply in_or_app. left. exact Hr.
        -- intros r [<-|Hr] Hn; [|auto]. apply in_map. exact Hnew.
        -- intros pre r post Hp Hn Hnr Hpre.
           destruct pre as [|r0 pre]; simpl in Hp; injection Hp as -> ->.
           ++ exact Hnew.
           ++ apply (H5 pre r post eq_refl Hn).
              ** rewrite map_app, in_app_iff. cbn [map In].
                 intros [H|[H|[]]]; [contradiction|].
                 apply (Hpre r0); [left; reflexivity | exact H].
              ** intros x Hx. apply Hpre. right. exact Hx.
    + specialize (IH records unique_names Hsub' Hu Hnd Hall).
      cbv zeta in IH. destruct IH as (H1 & H2 & H3 & H4 & H5).
      assert (Hold : nombre (maestro_of_row row) <> [] ->
                     In (nombre (maestro_of_row row)) (map nombre records)).
      { intros Hne. apply Hu.
        destruct (in_dec (list_eq_dec ascii_dec)
                    (nombre (maestro_of_row row)) unique_names)
          as [Hin|Hnin]; [exact Hin|].
        destruct Hc as [_ Hc]. specialize (Hc (conj Hne Hnin)).
        discriminate. }
      split; [exact H1|]. split; [exact H2|]. split; [exact H3|]. split.
      * intros r [<-|Hr] Hn; [|auto].
        specialize (Hold Hn). apply in_map_iff in Hold.
        destruct Hold as (r0 & Hr0 & Hin). apply in_map_iff.
        exists r0. split; [exact Hr0 | apply H3, Hin].
      * intros pre r post Hp Hn Hnr Hpre.
        destruct pre as [|r0 pre]; simpl in Hp; injection Hp as -> ->.
        -- exfalso. apply Hnr, Hold, Hn.
        -- apply (H5 pre r post eq_refl Hn Hnr).
           intros x Hx. apply Hpre. right. exact Hx.
Qed.

(** X19. The master records [load_maestro] builds have names that are not
    empty, in capitals without white space around them, and all different:
    of the rows of the file with the same name the first one is kept.
    Every record is the one of a row of the file, and every name of the
    file that is not empty is the name of a record. *)
Theorem load_maestro_unique (df : list cenabast_row) :
  let records := load_maestro df in
  NoDup (map nombre records)
  /\ Forall (fun r => nombre r <> [] /\ trimmed (nombre r) = true
                      /\ (exists row, In row df /\ r = maestro_of_row row))
       records
  /\ (forall row, In row df -> nombre (maestro_of_row row) <> [] ->
                  In (nombre (maestro_of_row row)) (map nombre records))
  /\ (forall pre row post,
        df = pre ++ row :: post ->
        nombre (maestro_of_row row) <> [] ->
        (forall r, In r pre ->
                   nombre (maestro_of_row r) <> nombre (maestro_of_row row)) ->
        In (maestro_of_row row) records).
Proof.
  cbv zeta. unfold load_maestro.
  destruct (add_maestro_inv df df [] [] (fun _ H => H))
    as (H1 & H2 & _ & H4 & H5);
    [simpl; tauto | constructor | constructor |].
  split; [exact H1|]. split; [|split; [exact H4|]].
  - eapply Forall_impl; [|exact H2].
    intros r (Hne & row & Hrow & ->). split; [exact Hne|].
    split; [|eauto]. apply upper_trimmed, strip_trimmed.
  - intros pre row post Hdf Hne Hpre.
    apply (H5 pre row post Hdf Hne); [intros [] | exact Hpre].
Qed.

(** A row without a generic name is loaded under the name NAN: the text of
    a missing cell is [nan], and only the loader of the inventory skips
    it. *)
Example load_maestro_nan :
  load_maestro [ {| Nombre_producto_generico := PyFloat (L "nan");
                    Codigo_material := PyInt 100;
                    Clasificacion_interna := PyStr (L "OTROS") |} ]
  = [ {| codigo := L "100"; nombre := L "NAN";
         clasificacion := L "OTROS" |} ].
Proof. vm_compute. reflexivity. Qed.

(** *** The smart linker *)

Lemma cache_get_In (d : cache) (key : str) (v : Z) :
  cache_get d key = Some v -> In (key, v) d.
Proof.
  induction d as [|[k v0] d IH]; simpl; [discriminate|].
  destruct (eqb_str k key) eqn:E.
  - apply eqb_str_eq in E. intros H. injection H as <-. subst. auto.
  - auto.
Qed.

Lemma cache_get_key (d : cache) (key : str) :
  In key (map fst d) -> exists v, cache_get d key = Some v.
Proof.
  induction d as [|[k v0] d IH]; simpl; [intros []|].
  destruct (eqb_str k key) eqn:E; [eauto|].
  intros [H|H]; [|auto]. subst. rewrite eqb_str_refl in E. discriminate.
Qed.

Lemma cache_set_In (d : cache) (key : str) (x : Z) (k : str) (v : Z) :
  In (k, v) (cache_set d key x) -> (k = key /\ v = x) \/ In (k, v) d.
Proof.
  induction d as [|[k0 v0] d IH]; simpl.
  - intros [H|[]]. injection H as <- <-. auto.
  - destruct (eqb_str k0 key) eqn:E.
    + apply eqb_str_eq in E. subst k0.
      intros [H|H]; [injection H as <- <-; auto | auto].
    + intros [H|H]; [auto|]. apply IH in H. tauto.
Qed.

Lemma maestro_cache_In (rows : list (Z * str)) (k : str) (v : Z) :
  In (k, v) (maestro_cache rows) -> In (v, k) rows.
Proof.
  unfold maestro_cache.
  assert (H : forall d, In (k, v) (fold_left
                 (fun d row => cache_set d (snd row) (fst row)) rows d) ->
                        In (k, v) d \/ In (v, k) rows).
  { induction rows as [|[id name] rows IH]; intros d Hin; simpl in *;
      [auto|].
    apply IH in Hin. destruct Hin as [Hin|Hin]; [|auto].
    apply cache_set_In in Hin. destruct Hin as [[-> ->]|Hin]; auto. }
  intros Hin. apply H in Hin. destruct Hin as [[]|Hin]. exact Hin.
Qed.

Section WithLibraries.

Variable FUZZY_AVAILABLE : bool.
Variable token_set_ratio : str -> str -> Q.
Variable get_close_matches : str -> list str -> list str.
Variable py_int : pyval -> option Z.

Lemma smart_link_cases (maestro_cache : cache) (clean_name : str) :
  (forall v, cache_get maestro_cache clean_name = Some v ->
             smart_link FUZZY_AVAILABLE token_set_ratio get_close_matches
               maestro_cache clean_name = Ok (Some v))
  /\ (maestro_cache = [] ->
      smart_link FUZZY_AVAILABLE token_set_ratio get_close_matches
        maestro_cache clean_name = Ok None)
  /\ (forall v,
        smart_link FUZZY_AVAILABLE token_set_ratio get_close_matches
          maestro_cache clean_name = Ok (Some v) ->
        exists key, In (key, v) maestro_cache)
  /\ (FUZZY_AVAILABLE = true ->
      exists link,
        smart_link FUZZY_AVAILABLE token_set_ratio get_close_matches
          maestro_cache clean_name = Ok link).
Proof.
  unfold smart_link. split; [|split; [|split]].
  - intros v ->. reflexivity.
  - intros ->. reflexivity.
  - intros v.
    destruct (cache_get maestro_cache clean_name) as [v0|] eqn:Eg.
    { intros H. injection H as <-. eauto using cache_get_In. }
    destruct (map fst maestro_cache) as [|k0 ks] eqn:Ek; [discriminate|].
    assert (Hitem : forall key,
               (v1 <- cache_getitem maestro_cache key ;; Ok (Some v1))
               = Ok (Some v) -> exists key, In (key, v) maestro_cache).
    { intros key. unfold cache_getitem.
      destruct (cache_get maestro_cache key) as [v1|] eqn:E1; simpl;
        [|discriminate].
      intros H. injection H as <-. eauto using cache_get_In. }
    destruct FUZZY_AVAILABLE.
    + destruct (DataManager.extractOne _ _ _) as [[choice score]|];
        [|discriminate].
      destruct (DataManager.Qgt_bool score 85); [apply Hitem | discriminate].
    + destruct (get_close_matches clean_name (k0 :: ks)) as [|m ms];
        [discriminate | apply Hitem].
  - intros ->.
    destruct (cache_get maestro_cache clean_name) as [v0|]; [eauto|].
    destruct (map fst maestro_cache) as [|k0 ks] eqn:Ek; [eauto|].
    destruct (DataManager.extractOne token_set_ratio clean_name (k0 :: ks))
      as [[choice score]|] eqn:Ee; [|eauto].
    destruct (DataManager.Qgt_bool score 85); [|eauto].
    apply DataManagerFacts.extractOne_in in Ee. rewrite <- Ek in Ee.
    apply cache_get_key in Ee. destruct Ee as [v1 Hv].
    unfold cache_getitem. rewrite Hv. simpl. eauto.
Qed.

(** X20. The link [load_inventario] computes for a clean name.  A name
    that is a key of the cache gets the id stored under it, and no score is
    computed; with an empty master table nothing is linked; a link that is
    made is always an id stored in the cache; and with [rapidfuzz] the step
    never raises. *)
Theorem smart_link_spec (maestro_cache : cache) (clean_name : str) :
  (forall v, cache_get maestro_cache clean_name = Some v ->
             smart_link FUZZY_AVAILABLE token_set_ratio get_close_matches
               maestro_cache clean_name = Ok (Some v))
  /\ (maestro_cache = [] ->
      smart_link FUZZY_AVAILABLE token_set_ratio get_close_matches
        maestro_cache clean_name = Ok None)
  /\ (forall v,
        smart_link FUZZY_AVAILABLE token_set_ratio get_close_matches
          maestro_cache clean_name = Ok (Some v) ->
        exists key, In (key, v) maestro_cache)
  /\ (FUZZY_AVAILABLE = true ->
      exists link,
        smart_link FUZZY_AVAILABLE token_set_ratio get_close_matches
          maestro_cache clean_name = Ok link).
Proof. exact (smart_link_cases maestro_cache clean_name). Qed.

Lemma inventario_records_links (maestro : list (Z * str)) :
  forall df records,
    inventario_records FUZZY_AVAILABLE token_set_ratio get_close_matches
      py_int (maestro_cache maestro) df = Ok records ->
    Forall (link_ok maestro) records
    /\ map nombre_comercial records
       = filter (fun n => negb (eqb_str n (L "nan")))
           (map (fun row => py_str (g_producto row)) df).
Proof.
  induction df as [|row df IH]; intros records H; simpl in H.
  - injection H as <-. split; [constructor | reflexivity].
  - unfold inventario_row in H at 1.
    cbn [map filter].
    destruct (eqb_str (py_str (g_producto row)) (L "nan")) eqn:En.
    + simpl in H.
      destruct (inventario_records _ _ _ _ _ df) as [rs|e]; [|discriminate].
      simpl in H. injection H as <-. apply IH. reflexivity.
    + destruct (smart_link _ _ _ _ _) as [link|e] eqn:El; [|discriminate].
      simpl in H.
      destruct (inventario_records _ _ _ _ _ df) as [rs|e]; [|discriminate].
      simpl in H. injection H as <-.
      destruct (IH rs eq_refl) as [H1 H2]. cbn [negb]. split.
      * constructor; [|exact H1]. unfold link_ok. cbn [maestro_id].
        destruct link as [v|]; [|exact I].
        destruct (smart_link_cases (maestro_cache maestro)
                    (DrugParser.clean_name
                       (DrugParser.parse_str (py_str (g_producto row)))))
          as (_ & _ & H3 & _).
        destruct (H3 v El) as [key Hk].
        exists key. apply maestro_cache_In. exact Hk.
      * simpl. rewrite H2. reflexivity.
Qed.

(** X21. Every link [load_inventario] writes points to a row of the master
    table, and the records written are the rows of the file whose product
    cell is not empty, in order, under the name the file gives them.  With
    [rapidfuzz] the loading of a file that has a product column never
    raises. *)
Theorem load_inventario_links (columns : list str) (df : list golan_row)
    (maestro : list (Z * str)) :
  (forall records,
      load_inventario FUZZY_AVAILABLE token_set_ratio get_close_matches
        py_int columns df maestro = Some (Ok records) ->
      Forall (link_ok maestro) records
      /\ map nombre_comercial records
         = filter (fun n => negb (eqb_str n (L "nan")))
             (map (fun row => py_str (g_producto row)) df))
  /\ (FUZZY_AVAILABLE = true ->
      (exists c, In c columns /\ contains c (L "Producto") = true) ->
      exists records,
        load_inventario FUZZY_AVAILABLE token_set_ratio get_close_matches
          py_int columns df maestro = Some (Ok records)).
Proof.
  unfold load_inventario. split.
  - intros records.
    destruct (find _ columns); [|discriminate].
    intros H. injection H as H. apply inventario_records_links, H.
  - intros Hf (c & Hc & Hp).
    destruct (find (fun c => contains c (L "Producto")) columns) eqn:E.
    2:{ apply (find_none _ _ E) in Hc. congruence. }
    assert (H : exists records,
               inventario_records FUZZY_AVAILABLE token_set_ratio
                 get_close_matches py_int (maestro_cache maestro) df
               = Ok records).
    { induction df as [|row df IH]; cbn [inventario_records]; [eauto|].
      destruct IH as [rs ->]. unfold inventario_row.
      destruct (eqb_str (py_str (g_producto row)) (L "nan"));
        [cbn [bind]; eauto|].
      destruct (smart_link_cases (maestro_cache maestro)
                  (DrugParser.clean_name
                     (DrugParser.parse_str (py_str (g_producto row)))))
        as (_ & _ & _ & H4).
      destruct (H4 Hf) as [link ->]. cbn [bind]. eauto. }
    destruct H as [records ->]. eauto.
Qed.

End WithLibraries.

Lemma load_inventario_links_witness :
  exists records,
    load_inventario true RapidFuzz.token_set_ratio (fun _ _ => [])
      (fun _ => None) [L "Grupo"; L "Producto"]
      [ {| g_producto := PyStr (L "Paracetamol 500 mg x 16 comp");
           g_stock := None; g_precio := None; g_codigo := None |};
        {| g_producto := PyFloat (L "nan");
           g_stock := None; g_precio := None; g_codigo := None |} ]
      [(7%Z, L "PARACETAMOL")]
    = Some (Ok records)
    /\ map maestro_id records = [Some 7%Z].
Proof.
  destruct (load_inventario_links true RapidFuzz.token_set_ratio
              (fun _ _ => []) (fun _ => None) [L "Grupo"; L "Producto"]
              [ {| g_producto := PyStr (L "Paracetamol 500 mg x 16 comp");
                   g_stock := None; g_precio := None; g_codigo := None |};
                {| g_producto := PyFloat (L "nan");
                   g_stock := None; g_precio := None; g_codigo := None |} ]
              [(7%Z, L "PARACETAMOL")]) as [_ H].
  destruct (H eq_refl) as [records Hr].
  - exists (L "Producto"). split; [simpl; auto | reflexivity].
  - exists records. split; [exact Hr|].
    vm_compute in Hr. injection Hr as <-. reflexivity.
Defined.

End PipelineFacts.

(** ** The reconciliation *)

Module ReconcileFacts.
Import Reconcile.

Lemma unique_from_In (l : list pyval) :
  forall seen v, In v (unique_from seen l) -> In v l.
Proof.
  induction l as [|x l IH]; intros seen v H; simpl in *; [exact H|].
  destruct (existsb (cell_eqb x) seen).
  - right. eapply IH, H.
  - destruct H as [H|H]; [auto | right; eapply IH, H].
Qed.

Lemma normalized_principles_In (df_isp : list isp_row) (p : pyval) (n : str) :
  In (p, n) (normalized_principles df_isp) ->
  n = SmartMatch.normalize_text p
  /\ exists row, In row df_isp /\ Principio_Activo row = p.
Proof.
  unfold normalized_principles. intros H.
  apply in_map_iff in H. destruct H as (p0 & Heq & Hin).
  injection Heq as -> <-. split; [reflexivity|].
  apply unique_from_In in Hin. apply filter_In in Hin.
  destruct Hin as [Hin _]. apply in_map_iff in Hin.
  destruct Hin as (row & Hrow & Hin). eauto.
Qed.

Lemma contains_length (s p : str) :
  contains s p = true -> length p <= length s.
Proof.
  induction s as [|c s IH]; simpl.
  - rewrite orb_false_r. destruct p; [simpl; lia | discriminate].
  - intros H. apply orb_true_iff in H. destruct H as [H|H].
    + apply startswith_length in H. exact H.
    + apply IH in H. lia.
Qed.

Lemma normalize_long_is_text (p : pyval) :
  3 <= length (SmartMatch.normalize_text p) ->
  py_truthy p = true /\ exists s, p = PyStr s.
Proof.
  destruct p as [s| | | |]; try (simpl; lia).
  intros H. split; [|eauto]. destruct s; [|reflexivity].
  vm_compute in H. lia.
Qed.

Lemma detect_dci_sound (df_isp : list isp_row) (norm_name : str) (dci : pyval) :
  detect_dci (normalized_principles df_isp) norm_name = Some dci ->
  3 <= length (SmartMatch.normalize_text dci)
  /\ contains norm_name (SmartMatch.normalize_text dci) = true
  /\ exists row, In row df_isp /\ Principio_Activo row = dci.
Proof.
  unfold detect_dci. intros H.
  destruct (find _ (normalized_principles df_isp)) as [[p n]|] eqn:E;
    [|discriminate].
  simpl in H. injection H as <-. apply find_some in E.
  destruct E as [Hin Hc]. cbn [snd] in Hc.
  apply andb_true_iff in Hc. destruct Hc as [Hl Hc].
  apply normalized_principles_In in Hin. destruct Hin as [-> Hrow].
  apply negb_true_iff, Nat.ltb_ge in Hl. auto.
Qed.

Section WithDifflib.

Variable similar : str -> str -> Q.

Lemma detect_bio_sound (df_isp : list isp_row) (dci : option pyval)
    (norm_name norm_lab : str) :
  detect_bio similar (bio_map df_isp) dci norm_name norm_lab = true ->
  exists d row,
    dci = Some d /\ In row df_isp
    /\ SmartMatch.normalize_text (Principio_Activo row)
       = SmartMatch.normalize_text d
    /\ contains (upper (py_str (Estado row))) (L "EQUIVALENTE") = true
    /\ contains (upper (py_str (Vigencia row))) (L "NO") = false.
Proof.
  unfold detect_bio. destruct dci as [d|]; [|discriminate].
  destruct (py_truthy d); [|discriminate]. intros H.
  apply existsb_exists in H. destruct H as (entry & Hin & Hc).
  apply andb_true_iff in Hc. destruct Hc as [Hp Hc].
  apply andb_true_iff in Hc. destruct Hc as [_ Hv].
  apply eqb_str_eq in Hp. apply negb_true_iff in Hv.
  unfold bio_map in Hin. apply in_flat_map in Hin.
  destruct Hin as (row & Hrow & Hin).
  destruct (isna (Principio_Activo row)); [destruct Hin|].
  destruct (contains (upper (py_str (Estado row))) (L "EQUIVALENTE")) eqn:Ee;
    [|destruct Hin].
  destruct Hin as [<-|[]]. cbn [principio vigencia] in *.
  exists d, row. auto.
Qed.

Lemma reconcile_cases (df_isp : list isp_row) (p : product) :
  let found (dci : pyval) :=
    3 <= length (SmartMatch.normalize_text dci)
    /\ contains (SmartMatch.normalize_text (raw_name p))
         (SmartMatch.normalize_text dci) = true
    /\ (exists s, dci = PyStr s)
    /\ exists row, In row df_isp /\ Principio_Activo row = dci in
  match reconcile similar (normalized_principles df_isp) (bio_map df_isp) p
  with
  | Some SetBio => False
  | Some (SetDci dci) => found dci
  | Some (SetDciAndBio dci) =>
      found dci
      /\ exists row,
           In row df_isp
           /\ SmartMatch.normalize_text (Principio_Activo row)
              = SmartMatch.normalize_text dci
           /\ contains (upper (py_str (Estado row))) (L "EQUIVALENTE") = true
           /\ contains (upper (py_str (Vigencia row))) (L "NO") = false
  | None => True
  end.
Proof.
  cbv zeta. unfold reconcile.
  set (norm_name := SmartMatch.normalize_text (raw_name p)).
  set (norm_lab := SmartMatch.normalize_text _).
  pose proof (detect_dci_sound df_isp norm_name) as Hd.
  pose proof (detect_bio_sound df_isp
                (detect_dci (normalized_principles df_isp) norm_name)
                norm_name norm_lab) as Hb.
  destruct (detect_dci (normalized_principles df_isp) norm_name) as [dci|].
  - destruct (Hd dci eq_refl) as (Hl & Hc & Hrow).
    destruct (normalize_long_is_text dci Hl) as [Ht Hs].
    unfold choose_update. rewrite Ht.
    destruct (detect_bio _ _ _ _ _).
    + split; [auto|].
      destruct (Hb eq_refl) as (d & row & Heq & H). injection Heq as <-.
      eauto.
    + auto.
  - unfold choose_update.
    destruct (detect_bio _ _ _ _ _); [|exact I].
    destruct (Hb eq_refl) as (d & row & Heq & _). discriminate.
Qed.

(** X22. What the reconciliation decides for a product.  It never sends
    the statement that sets the bioequivalence flag alone.  A principle it
    writes is a text of the ISP file whose normal form, at least three
    characters long, is contained in the normal form of the product name;
    and the flag is set only if a row of the file for that principle has a
    state that contains EQUIVALENTE and a validity that does not contain
    NO. *)
Theorem reconcile_sound (df_isp : list isp_row) (p : product) :
  let found (dci : pyval) :=
    3 <= length (SmartMatch.normalize_text dci)
    /\ contains (SmartMatch.normalize_text (raw_name p))
         (SmartMatch.normalize_text dci) = true
    /\ (exists s, dci = PyStr s)
    /\ exists row, In row df_isp /\ Principio_Activo row = dci in
  match reconcile similar (normalized_principles df_isp) (bio_map df_isp) p
  with
  | Some SetBio => False
  | Some (SetDci dci) => found dci
  | Some (SetDciAndBio dci) =>
      found dci
      /\ exists row,
           In row df_isp
           /\ SmartMatch.normalize_text (Principio_Activo row)
              = SmartMatch.normalize_text dci
           /\ contains (upper (py_str (Estado row))) (L "EQUIVALENTE") = true
           /\ contains (upper (py_str (Vigencia row))) (L "NO") = false
  | None => True
  end.
Proof. exact (reconcile_cases df_isp p). Qed.

Variable execute : list (Z * update) -> Z -> update -> bool.

Lemma reconcile_not_bio_alone (df_isp : list isp_row) (p : product) :
  reconcile similar (normalized_principles df_isp) (bio_map df_isp) p
  <> Some SetBio.
Proof.
  intros H. pose proof (reconcile_cases df_isp p) as Hs.
  cbv zeta in Hs. rewrite H in Hs. exact Hs.
Qed.

Lemma process_product_inv (df_isp : list isp_row) (c : progress)
    (p : product) :
  let c' := process_product similar execute (normalized_principles df_isp)
              (bio_map df_isp) c p in
  updates_bio c <= updates_dci c ->
  updates_dci c <= length (sent c) ->
  Forall (fun su => snd su <> SetBio) (sent c) ->
  updates_bio c' <= updates_dci c'
  /\ updates_dci c' <= length (sent c')
  /\ length (sent c') <= S (length (sent c))
  /\ Forall (fun su => snd su <> SetBio) (sent c').
Proof.
  cbv zeta. intros H1 H2 H3. unfold process_product.
  pose proof (reconcile_not_bio_alone df_isp p) as Hn.
  destruct (reconcile similar _ _ p) as [u|]; [|repeat split; auto].
  assert (Hu : u <> SetBio) by congruence.
  destruct (execute (sent c) (pid p) u).
  - destruct u; [| |congruence]; cbn; repeat split; auto; lia.
  - cbn. repeat split; auto.
Qed.

(** X23. The two counters [main] prints: the number of bioequivalence
    flags set never exceeds the number of principles written, which never
    exceeds the number of statements sent, at most one per product; and no
    statement sets the flag alone, so that the third branch of the update
    is never taken. *)
Theorem process_products_counters (df_isp : list isp_row)
    (products : list product) :
  let c := process_products similar execute df_isp products in
  updates_bio c <= updates_dci c
  /\ updates_dci c <= length (sent c)
  /\ length (sent c) <= length products
  /\ Forall (fun su => snd su <> SetBio) (sent c).
Proof.
  cbv zeta. unfold process_products.
  assert (H : forall c,
             updates_bio c <= updates_dci c ->
             updates_dci c <= length (sent c) ->
             Forall (fun su => snd su <> SetBio) (sent c) ->
             let c' := fold_left
                         (process_product similar execute
                            (normalized_principles df_isp) (bio_map df_isp))
                         products c in
             updates_bio c' <= updates_dci c'
             /\ updates_dci c' <= length (sent c')
             /\ length (sent c') <= length (sent c) + length products
             /\ Forall (fun su => snd su <> SetBio) (sent c')).
  { induction products as [|p products IH]; intros c H1 H2 H3; cbv zeta.
    - simpl. repeat split; auto. lia.
    - cbn [fold_left].
      destruct (process_product_inv df_isp c p H1 H2 H3)
        as (G1 & G2 & G3 & G4).
      destruct (IH _ G1 G2 G4) as (K1 & K2 & K3 & K4).
      repeat split; auto. simpl. lia. }
  destruct (H {| updates_dci := 0; updates_bio := 0; sent := [] |})
    as (K1 & K2 & K3 & K4); simpl; auto.
Qed.

End WithDifflib.

(** A product whose name is missing, or of which nothing is left once
    normalised, is left alone. *)
Example reconcile_no_name :
  let df := [ {| Principio_Activo := PyStr (L "PARACETAMOL");
                 Estado := PyStr (L "Equivalente Terapeutico");
                 Producto := PyStr (L "KITADOL");
                 Titular := PyStr (L "LABORATORIO CHILE");
                 Vigencia := PyStr (L "Vigente") |} ] in
  reconcile (fun _ _ => 1%Q) (normalized_principles df) (bio_map df)
    {| pid := 1; raw_name := PyNone; raw_lab := PyNone |} = None
  /\ reconcile (fun _ _ => 1%Q) (normalized_principles df) (bio_map df)
       {| pid := 2; raw_name := PyStr (L "Kitadol paracetamol 500 mg");
          raw_lab := PyNone |}
     = Some (SetDciAndBio (PyStr (L "PARACETAMOL"))).
Proof. vm_compute. split; reflexivity. Qed.

End ReconcileFacts.

(** ** The alternatives of a product *)

Module AlternativesFacts.
Import Alternatives.

Lemma insert_by_precio_perm (x : inventario_local * catalogo_maestro)
    (l : list (inventario_local * catalogo_maestro)) :
  Permutation (insert_by_precio x l) (x :: l).
Proof.
  induction l as [|y l IH]; simpl; [apply Permutation_refl|].
  destruct (precio (fst x) <=? precio (fst y))%Z; [apply Permutation_refl|].
  eapply Permutation_trans; [apply perm_skip, IH | apply perm_swap].
Qed.

Lemma fold_insert_by_precio_perm
    (l : list (inventario_local * catalogo_maestro)) :
  Permutation (fold_right insert_by_precio [] l) l.
Proof.
  induction l as [|x l IH]; simpl; [constructor|].
  eapply Permutation_trans; [apply insert_by_precio_perm|].
  apply perm_skip, IH.
Qed.

Lemma insert_by_precio_sorted (x : inventario_local * catalogo_maestro)
    (l : list (inventario_local * catalogo_maestro)) :
  StronglySorted precio_le l -> StronglySorted precio_le (insert_by_precio x l).
Proof.
  induction l as [|y l IH]; intros Hs; simpl.
  - repeat constructor.
  - inversion Hs as [|? ? Hs' Hall]; subst.
    destruct (precio (fst x) <=? precio (fst y))%Z eqn:E.
    + apply Z.leb_le in E. constructor; [exact Hs|].
      constructor; [exact E|].
      eapply Forall_impl; [|exact Hall]. unfold precio_le. intros z Hz. lia.
    + apply Z.leb_gt in E. constructor; [apply IH, Hs'|].
      eapply Permutation_Forall;
        [apply Permutation_sym, insert_by_precio_perm|].
      constructor; [unfold precio_le; lia | exact Hall].
Qed.

Lemma select_siblings_sorted (db : database) (maestro product_id : Z) :
  StronglySorted precio_le (select_siblings db maestro product_id).
Proof.
  unfold select_siblings.
  match goal with
  | |- StronglySorted _ (fold_right _ _ ?l) => generalize l
  end.
  induction l as [|x l IH]; simpl; [constructor|].
  apply insert_by_precio_sorted, IH.
Qed.

Lemma select_siblings_In (db : database) (maestro product_id : Z)
    (im : inventario_local * catalogo_maestro) :
  In im (select_siblings db maestro product_id) ->
  In (fst im) (INVENTARIO_LOCAL db)
  /\ maestro_id (fst im) = Some maestro
  /\ id (fst im) <> product_id
  /\ (stock (fst im) > 0)%Z.
Proof.
  unfold select_siblings. intros H.
  eapply Permutation_in in H; [|apply fold_insert_by_precio_perm].
  apply filter_In in H. destruct H as [Hin Hc].
  apply andb_true_iff in Hc. destruct Hc as [Hc Hs].
  apply andb_true_iff in Hc. destruct Hc as [Hm Hi].
  apply in_flat_map in Hin. destruct Hin as (i & Hi' & Hin).
  apply in_map_iff in Hin. destruct Hin as (m & <- & _). cbn [fst] in *.
  split; [exact Hi'|]. split.
  - destruct (maestro_id i) as [k|]; [|discriminate].
    apply Z.eqb_eq in Hm. congruence.
  - split.
    + apply negb_true_iff, Z.eqb_neq in Hi. exact Hi.
    + apply Z.gtb_lt in Hs. lia.
Qed.

Lemma to_alternatives_Forall2 (base_price : Z) :
  forall rows alts,
    to_alternatives base_price rows = Ok alts ->
    Forall2 (fun row a => to_alternative base_price row = Ok a) rows alts.
Proof.
  induction rows as [|row rows IH]; intros alts H; simpl in H.
  - injection H as <-. constructor.
  - destruct (to_alternative base_price row) as [a|e] eqn:Ea;
      [|discriminate]. simpl in H.
    destruct (to_alternatives base_price rows) as [as_|e]; [|discriminate].
    simpl in H. injection H as <-. constructor; auto.
Qed.

Lemma to_alternatives_raise (base_price : Z) :
  forall rows e,
    to_alternatives base_price rows = Raise e ->
    e = TypeError
    /\ exists row, In row rows /\ nombre_generico (snd row) = None.
Proof.
  induction rows as [|row rows IH]; intros e H; simpl in H; [discriminate|].
  destruct (to_alternative base_price row) as [a|e0] eqn:Ea; simpl in H.
  - destruct (to_alternatives base_price rows) as [as_|e1]; [discriminate|].
    simpl in H. injection H as <-.
    destruct (IH e1 eq_refl) as [-> (r & Hr & Hn)].
    split; [reflexivity|]. exists r. split; [right; exact Hr | exact Hn].
  - injection H as <-. unfold to_alternative in Ea.
    destruct row as [i m]. destruct (nombre_generico m) eqn:En;
      [discriminate|]. injection Ea as <-.
    split; [reflexivity|]. exists (i, m). split; [left; reflexivity|].
    exact En.
Qed.

Lemma Forall2_sorted {A B} (P : A -> B -> Prop) (R : A -> A -> Prop)
    (R' : B -> B -> Prop) :
  (forall x y x' y', P x x' -> P y y' -> R x y -> R' x' y') ->
  forall l l', Forall2 P l l' -> StronglySorted R l -> StronglySorted R' l'.
Proof.
  intros HR. induction 1 as [|x x' l l' Hx Hl IH]; intros Hs; [constructor|].
  inversion Hs as [|? ? Hs' Hall]; subst.
  constructor; [apply IH, Hs'|].
  clear IH Hs Hs'. induction Hl as [|y y' l l' Hy Hl IH]; [constructor|].
  inversion Hall; subst. constructor; eauto.
Qed.

Lemma Forall2_Forall_r {A B} (P : A -> B -> Prop) (Q : B -> Prop)
    (l : list A) (l' : list B) :
  Forall2 P l l' -> (forall x x', In x l -> P x x' -> Q x') -> Forall Q l'.
Proof.
  induction 1 as [|x x' l l' Hx Hl IH]; intros H; constructor.
  - apply (H x x'); [left; reflexivity | exact Hx].
  - apply IH. intros y y' Hy. apply H. right. exact Hy.
Qed.

(** X24. The alternatives [get_alternatives] returns.  For a product that
    is unknown, or not linked to a master entry, the list is empty.
    Otherwise every alternative is another product of the inventory, in
    stock, linked to the same master entry; the saving is the price
    difference, or 0 when the alternative is not cheaper, never negative;
    the list is by price, cheapest first, so the savings never increase
    along it.  The handler raises only when the generic name of the master
    entry is NULL, a TypeError. *)
Theorem get_alternatives_spec (db : database) (product_id : Z) :
  match get_alternatives db product_id with
  | Ok alts =>
      (forall prod, select_product db product_id = Some prod ->
         Forall (alternative_ok db prod) alts)
      /\ ((select_product db product_id = None
           \/ exists prod,
                select_product db product_id = Some prod
                /\ (maestro_id prod = None \/ maestro_id prod = Some 0%Z)) ->
          alts = [])
      /\ StronglySorted (fun a b => (a_precio a <= a_precio b)%Z) alts
      /\ StronglySorted (fun a b => (a_savings b <= a_savings a)%Z) alts
  | Raise e =>
      e = TypeError
      /\ exists m, In m (CATALOGO_MAESTRO db) /\ nombre_generico m = None
  end.
Proof.
  unfold get_alternatives.
  destruct (select_product db product_id) as [prod|] eqn:Ep.
  2:{ split; [discriminate|]. split; [reflexivity|].
      split; constructor. }
  assert (Hid : id prod = product_id).
  { unfold select_product in Ep. apply find_some in Ep.
    destruct Ep as [_ Ep]. apply Z.eqb_eq in Ep. exact Ep. }
  destruct (maestro_id prod) as [maestro|] eqn:Em.
  2:{ split; [intros p _; constructor|]. split; [reflexivity|].
      split; constructor. }
  destruct (maestro =? 0)%Z eqn:E0.
  { split; [intros p _; constructor|]. split; [reflexivity|].
    split; constructor. }
  apply Z.eqb_neq in E0.
  destruct (to_alternatives (precio prod)
              (select_siblings db maestro product_id)) as [alts|e] eqn:Ea.
  - apply to_alternatives_Forall2 in Ea.
    assert (Hrow : forall row a,
               to_alternative (precio prod) row = Ok a ->
               a_id a = id (fst row) /\ a_precio a = precio (fst row)
               /\ a_stock a = stock (fst row)
               /\ a_savings a = Z.max 0 (precio prod - precio (fst row))).
    { intros [i m] a H. unfold to_alternative in H.
      destruct (nombre_generico m); [|discriminate].
      injection H as <-. auto. }
    split; [|split; [|split]].
    + intros p Hp. injection Hp as <-.
      eapply Forall2_Forall_r; [exact Ea|].
      intros row a Hin Ha. apply select_siblings_In in Hin.
      destruct Hin as (Hi & Hm & Hne & Hs).
      destruct (Hrow row a Ha) as (H1 & H2 & H3 & H4).
      exists (fst row). rewrite Hid, Em, H1, H2, H3, H4.
      repeat split; auto; lia.
    + intros [H|(p & Hp & [H|H])]; [discriminate | |];
        injection Hp as <-; congruence.
    + eapply (Forall2_sorted _ precio_le); [|exact Ea|].
      * intros x y x' y' Hx Hy Hxy.
        destruct (Hrow x x' Hx) as (_ & -> & _).
        destruct (Hrow y y' Hy) as (_ & -> & _). exact Hxy.
      * apply select_siblings_sorted.
    + eapply (Forall2_sorted _ precio_le); [|exact Ea|].
      * intros x y x' y' Hx Hy Hxy.
        destruct (Hrow x x' Hx) as (_ & _ & _ & ->).
        destruct (Hrow y y' Hy) as (_ & _ & _ & ->).
        unfold precio_le in Hxy. lia.
      * apply select_siblings_sorted.
  - apply to_alternatives_raise in Ea.
    destruct Ea as [-> ([i m] & Hin & Hn)]. split; [reflexivity|].
    exists m. split; [|exact Hn].
    unfold select_siblings in Hin.
    eapply Permutation_in in Hin; [|apply fold_insert_by_precio_perm].
    apply filter_In in Hin. destruct Hin as [Hin _].
    apply in_flat_map in Hin. destruct Hin as (i0 & _ & Hin).
    apply in_map_iff in Hin. destruct Hin as (m0 & Heq & Hm0).
    injection Heq as _ <-. apply filter_In in Hm0. tauto.
Qed.

(** A brand at 5000, its generic at 2000, and a dearer brand at 6000: the
    generic is listed first with a saving of 3000, the dearer one with a
    saving of 0. *)
Example alternatives_scenario :
  let db :=
    {| INVENTARIO_LOCAL :=
         [ {| id := 1; nombre_comercial := L "PANADOL"; precio := 5000;
              stock := 2; maestro_id := Some 9%Z |};
           {| id := 2; nombre_comercial := L "TAPSIN"; precio := 6000;
              stock := 1; maestro_id := Some 9%Z |};
           {| id := 3; nombre_comercial := L "PARACETAMOL 500 MG";
              precio := 2000; stock := 7; maestro_id := Some 9%Z |};
           {| id := 4; nombre_comercial := L "KITADOL"; precio := 1500;
              stock := 0; maestro_id := Some 9%Z |} ];
       CATALOGO_MAESTRO :=
         [ {| m_id := 9; nombre_generico := Some (L "PARACETAMOL") |} ] |} in
  option_map (map (fun a => (a_id a, a_savings a, a_is_generic a)))
    (match get_alternatives db 1 with Ok alts => Some alts | _ => None end)
  = Some [(3%Z, 3000%Z, true); (2%Z, 0%Z, false)].
Proof. vm_compute. reflexivity. Qed.

End AlternativesFacts.

(** ** The patch script *)

Module PatchStitchFacts.
Import PatchStitch.

Lemma startswith_app_l (a b p : str) :
  startswith a p = true -> startswith (a ++ b) p = true.
Proof.
  revert a. induction p as [|x p IH]; intros a H; [reflexivity|].
  destruct a as [|c a]; [discriminate|]. simpl in *.
  apply andb_true_iff in H. destruct H as [-> H]. simpl. auto.
Qed.

Lemma contains_app_l (a b p : str) :
  contains a p = true -> contains (a ++ b) p = true.
Proof.
  induction a as [|c a IH]; simpl.
  - rewrite orb_false_r. intros H. destruct p; [|discriminate].
    destruct b; reflexivity.
  - intros H. apply orb_true_iff in H. destruct H as [H|H].
    + apply (startswith_app_l (c :: a) b) in H. simpl in H.
      rewrite H. reflexivity.
    + rewrite (IH H). apply orb_true_r.
Qed.

Lemma contains_app_r (a b p : str) :
  contains b p = true -> contains (a ++ b) p = true.
Proof.
  intros H. induction a as [|c a IH]; [exact H|].
  simpl. rewrite IH. apply orb_true_r.
Qed.

Lemma contains_split (s p : str) :
  contains s p = true -> exists a b, s = a ++ p ++ b.
Proof.
  induction s as [|c s IH]; simpl.
  - rewrite orb_false_r. destruct p; [|discriminate].
    exists [], []. reflexivity.
  - intros H. apply orb_true_iff in H. destruct H as [H|H].
    + apply (startswith_app (c :: s) p) in H.
      exists [], (skipn (length p) (c :: s)). exact H.
    + destruct (IH H) as (a & b & ->). exists (c :: a), b. reflexivity.
Qed.

Lemma contains_middle (a p b : str) : contains (a ++ p ++ b) p = true.
Proof.
  apply contains_app_r, contains_app_l.
  destruct p; simpl; [reflexivity|].
  rewrite Ascii.eqb_refl.
  assert (H : forall q : str, startswith q q = true).
  { induction q as [|x q IH]; simpl; [reflexivity|].
    rewrite Ascii.eqb_refl. exact IH. }
  rewrite H. reflexivity.
Qed.

Lemma contains_trans (s p q : str) :
  contains s p = true -> contains p q = true -> contains s q = true.
Proof.
  intros H1 H2. apply contains_split in H1. destruct H1 as (a & b & ->).
  apply contains_app_r, contains_app_l. exact H2.
Qed.

Lemma replace_from_grows (old new : str) :
  length old <= length new -> old <> [] ->
  forall s skip,
    skip <= length s ->
    length s <= length (replace_from old new skip s) + skip.
Proof.
  intros Hlen Hne. induction s as [|c s IH]; intros skip Hs.
  - destruct skip; simpl; lia.
  - destruct skip; cbn [replace_from].
    + destruct (startswith (c :: s) old) eqn:E.
      * apply startswith_length in E. rewrite length_app.
        specialize (IH (length old - 1)).
        destruct old as [|a old]; [congruence|]. simpl in *.
        specialize (IH ltac:(lia)). lia.
      * specialize (IH 0 ltac:(lia)). simpl in *. lia.
    + specialize (IH skip). simpl in *. specialize (IH ltac:(lia)). lia.
Qed.

Lemma replace_from_longer (old new : str) :
  length old < length new -> old <> [] ->
  forall s,
    contains s old = true ->
    length s < length (replace_from old new 0 s).
Proof.
  intros Hlen Hne. induction s as [|c s IH]; intros H.
  - simpl in H. destruct old; [congruence | discriminate].
  - cbn [contains] in H. cbn [replace_from].
    destruct (startswith (c :: s) old) eqn:E.
    + pose proof (startswith_length _ _ E) as Hl.
      assert (Hle : length old <= length new) by lia.
      pose proof (replace_from_grows old new Hle Hne s (length old - 1)) as G.
      destruct old as [|a old]; [congruence|]. simpl in *.
      specialize (G ltac:(lia)). rewrite length_app. lia.
    + simpl in H. apply IH in H. simpl. lia.
Qed.

Lemma replace_from_keeps (old new : str) :
  contains new old = true ->
  forall s,
    contains s old = true -> contains (replace_from old new 0 s) old = true.
Proof.
  intros Hn. induction s as [|c s IH]; intros H.
  - simpl in *. exact H.
  - cbn [replace_from].
    destruct (startswith (c :: s) old) eqn:E.
    + apply contains_app_l, Hn.
    + cbn [contains] in H. rewrite E in H. simpl in H.
      cbn [contains]. rewrite (IH H). apply orb_true_r.
Qed.

(** X25. The patch is not recognised once applied.  The text the script
    writes contains the text it looks for, so the message that the file
    appears to be patched already is never given, and a file the script
    has patched is patched again by the next run, which makes it longer. *)
Theorem patch_never_settles (file : option str) :
  (forall appears_patched,
      patch file = NotFound appears_patched -> appears_patched = false)
  /\ (forall new_content,
        patch file = Patched new_content ->
        exists newer,
          patch (Some new_content) = Patched newer
          /\ length new_content < length newer).
Proof.
  assert (Hc : contains replace_text search_text = true) by reflexivity.
  assert (Hr : forall s, replace s search_text replace_text
                         = replace_from search_text replace_text 0 s)
    by reflexivity.
  unfold patch. destruct file as [content|]; [|split; discriminate].
  destruct (contains content search_text) eqn:E; cbn [negb].
  - split; [discriminate|]. intros new H. injection H as <-.
    rewrite !Hr.
    assert (Hk : contains (replace_from search_text replace_text 0 content)
                   search_text = true)
      by (apply replace_from_keeps; assumption).
    rewrite Hk. cbn [negb]. eexists. split; [reflexivity|].
    apply replace_from_longer; [simpl; lia | discriminate | exact Hk].
  - split; [|discriminate]. intros b H. injection H as <-.
    destruct (contains content replace_text) eqn:Er; [|reflexivity].
    rewrite (contains_trans _ _ _ Er Hc) in E. discriminate.
Qed.

Example patch_twice :
  patch (Some (L "x; _log(`injecting env`);"))
  = Patched (L "x; // _log(`injecting env`);")
  /\ patch (Some (L "x; // _log(`injecting env`);"))
     = Patched (L "x; // // _log(`injecting env`);").
Proof. vm_compute. split; reflexivity. Qed.

End PatchStitchFacts.

(** ** The dump filter *)

Module FixDumpFacts.
Import FixDump.

Section WithPatterns.

Variable table_create_regex : str -> option str.
Variable inherits_regex : str -> option str.
Variable copy_regex : str -> option (str * str).
Variable skip_regex : str -> bool.

Lemma chunks_set_In (d : chunks) (key : option str) (v : str)
    (k : option str) (x : str) :
  In (k, x) (chunks_set d key v) -> x = v \/ In (k, x) d.
Proof.
  induction d as [|[k0 v0] d IH]; simpl.
  - intros [H|[]]. injection H as _ <-. auto.
  - destruct (match k0, key with
              | Some a, Some b => eqb_str a b
              | None, None => true
              | _, _ => false
              end).
    + intros [H|H]; [injection H as _ <-; auto | auto].
    + intros [H|H]; [auto|]. apply IH in H. tauto.
Qed.

Lemma chunks_get_In (d : chunks) (key : str) (v : str) :
  chunks_get d key = Some v -> exists k, In (k, v) d.
Proof.
  induction d as [|[[k|] v0] d IH]; simpl; [discriminate| |].
  - destruct (eqb_str k key).
    + intros H. injection H as <-. eauto.
    + intros H. destruct (IH H) as [k' Hk]. eauto.
  - intros H. destruct (IH H) as [k' Hk]. eauto.
Qed.

Lemma step_ok (lines : list str) (st : state) (line : str) :
  In line lines ->
  dump_state_ok table_create_regex inherits_regex copy_regex skip_regex
    lines st ->
  dump_state_ok table_create_regex inherits_regex copy_regex skip_regex
    lines (step table_create_regex inherits_regex copy_regex skip_regex
             st line)
  /\ length (fout (step table_create_regex inherits_regex copy_regex
                     skip_regex st line)) <= S (length (fout st)).
Proof.
  intros Hin [Hout Hmap]. unfold step.
  assert (Hdef : dump_state_ok table_create_regex inherits_regex copy_regex
                   skip_regex lines (default_write skip_regex st line)
                 /\ length (fout (default_write skip_regex st line))
                    <= S (length (fout st))
                 \/ table_create_regex line <> None).
  { destruct (table_create_regex line) eqn:Et; [right; discriminate|].
    left. unfold default_write.
    destruct (skip_regex line) eqn:Es; [split; [split|]; auto|].
    destruct (contains line _) eqn:Ec; [split; [split|]; auto|].
    split; [split; [|exact Hmap] | simpl; lia].
    cbn [fout]. constructor; [|exact Hout]. left. auto. }
  destruct (table_create_regex line) as [chunk|] eqn:Et.
  - split; [split; assumption | simpl; lia].
  - destruct Hdef as [Hdef|Hdef]; [|congruence].
    destruct (inside_chunk_create st).
    + split; [|simpl; lia]. split; [exact Hout|]. cbn [chunk_map].
      destruct (inherits_regex line) as [parent|] eqn:Ei; [|exact Hmap].
      intros k p Hk. apply chunks_set_In in Hk.
      destruct Hk as [->|Hk]; [eauto | eauto].
    + destruct (copy_regex line) as [[chunk_name cols]|] eqn:Ec;
        [|exact Hdef].
      destruct (chunks_get (chunk_map st) chunk_name) as [[|c parent]|]
        eqn:Eg; try exact Hdef.
      split; [|simpl; lia]. split; [|exact Hmap]. cbn [fout].
      constructor; [|exact Hout]. right.
      apply chunks_get_In in Eg. destruct Eg as [k Hk].
      destruct (Hmap _ _ Hk) as (line' & Hl' & Hi & Ht).
      exists line, chunk_name, cols, (c :: parent), line'.
      repeat split; auto. discriminate.
Qed.

(** X26. [process_dump] invents nothing.  Every line it writes is a line
    of the input that starts no chunk table, is not skipped and does not
    create the extension, or it is the COPY line of a chunk retargeted to a
    parent table that an INHERITS line of the input names; and it writes at
    most one line per line read. *)
Theorem process_dump_lines (lines : list str) :
  let out := process_dump table_create_regex inherits_regex copy_regex
               skip_regex lines in
  Forall (written_line table_create_regex inherits_regex copy_regex
            skip_regex lines) out
  /\ length out <= length lines.
Proof.
  cbv zeta. unfold process_dump.
  assert (H : forall todo st,
             (forall l, In l todo -> In l lines) ->
             dump_state_ok table_create_regex inherits_regex copy_regex
               skip_regex lines st ->
             dump_state_ok table_create_regex inherits_regex copy_regex
               skip_regex lines
               (fold_left (step table_create_regex inherits_regex copy_regex
                             skip_regex) todo st)
             /\ length (fout (fold_left (step table_create_regex
                                            inherits_regex copy_regex
                                            skip_regex) todo st))
                <= length (fout st) + length todo).
  { induction todo as [|line todo IH]; intros st Hsub Hst.
    - simpl. split; [exact Hst | lia].
    - cbn [fold_left].
      destruct (step_ok lines st line) as [Hst' Hlen];
        [apply Hsub; left; reflexivity | exact Hst |].
      destruct (IH _ (fun l Hl => Hsub l (or_intror Hl)) Hst') as [H1 H2].
      split; [exact H1 | simpl; lia]. }
  destruct (H lines {| chunk_map := []; inside_chunk_create := false;
                       current_chunk := None; buffer_chunk := [];
                       fout := [] |} (fun _ Hl => Hl))
    as [[Hout _] Hlen].
  { split; [constructor | intros k p []]. }
  split.
  - apply Forall_rev. exact Hout.
  - rewrite length_rev. simpl in Hlen. exact Hlen.
Qed.

End WithPatterns.

(** A chunk table with its parent, the data of the chunk and a statement on
    the internal schema: the table and the statement are dropped and the
    data go to the parent. *)
Example process_dump_chunk :
  let create l := if startswith l (L "CREATE TABLE _timescaledb_internal._hyper_1_1_chunk (")
                  then Some (L "_hyper_1_1_chunk") else None in
  let inherits l := if startswith l (L "INHERITS (public.ventas)")
                    then Some (L "public.ventas") else None in
  let copy l := if startswith l (L "COPY _timescaledb_internal._hyper_1_1_chunk (id, total) FROM stdin;")
                then Some (L "_hyper_1_1_chunk", L "id, total") else None in
  let skip l := startswith l (L "ALTER TABLE _timescaledb_internal") in
  process_dump create inherits copy skip
    [ L "CREATE TABLE _timescaledb_internal._hyper_1_1_chunk (";
      L "INHERITS (public.ventas);";
      L "COPY _timescaledb_internal._hyper_1_1_chunk (id, total) FROM stdin;";
      L "1 100";
      L "ALTER TABLE _timescaledb_internal._hyper_1_1_chunk OWNER TO x;" ]
  = [ L "COPY public.ventas (id, total) FROM stdin;" ++ [newline];
      L "1 100" ].
Proof. vm_compute. reflexivity. Qed.

End FixDumpFacts.
